(** * perspect: schema parsers and template generators

    A shallow embedding of the deterministic core of the repository:

    - [src/types/schema.ts]: the intermediate representation (IR);
    - [src/parsers/prisma.ts] ([parsePrismaSchema]) and
      [src/parsers/sql.ts] ([parseSqlSchema]);
    - [src/generators/zod.ts] ([generateZodSchemas]) and
      [src/generators/types.ts] ([generateTypeDefinitions]).

    Strings are Rocq [string]s, read as sequences of code units: a
    character of a Rocq string is a UTF-16 code unit below 256, so that the
    strings of the model are the JavaScript strings over U+0000-U+00FF.  On
    these the character classes, [trim] and the case conversions below are
    the ECMAScript ones: U+00A0 is white space, the accented capitals
    U+00C0-U+00DE have lower-case forms, and the sharp s becomes SS in
    upper case.  Texts with a character above U+00FF are outside the model.

    Regular expressions are kept as syntax ([regex]) and run by a
    backtracking matcher that follows the ECMAScript matching order (greedy
    quantifiers, ordered alternation, leftmost match), so that every pattern
    of the source appears below in the shape it has there.

    JavaScript failures are explicit: [result] carries a [TypeError]
    (a string operation applied to [undefined]) and [Diverges] (a loop that
    did not finish within its fuel). *)

From Stdlib Require Import String Ascii List Bool Arith ZArith Lia Sorted.
Import ListNotations.
Open Scope string_scope.
Open Scope bool_scope.

(* ====================================================================== *)
(** ** Outcomes of JavaScript computations *)

Inductive result (A : Type) : Type :=
| Ok (a : A)
| TypeError
| Diverges.

Arguments Ok {A} a.
Arguments TypeError {A}.
Arguments Diverges {A}.

Definition bind {A B} (r : result A) (f : A -> result B) : result B :=
  match r with
  | Ok a => f a
  | TypeError => TypeError
  | Diverges => Diverges
  end.

Notation "x <- c ;; k" := (bind c (fun x => k))
  (at level 61, c at next level, right associativity).

(** [for (const x of xs) { acc = body(acc, x) }] with a body that may throw. *)
Fixpoint forEach {A S} (body : S -> A -> result S) (xs : list A) (acc : S)
  : result S :=
  match xs with
  | [] => Ok acc
  | x :: xs' => acc' <- body acc x ;; forEach body xs' acc'
  end.

(* ====================================================================== *)
(** ** Characters and string primitives *)

Definition code (c : ascii) : nat := nat_of_ascii c.

Definition inRange (lo hi : nat) (c : ascii) : bool :=
  ((lo <=? code c)%nat && (code c <=? hi)%nat).

(** White space and line terminators below 256: TAB LF VT FF CR SP and the
    no-break space U+00A0. *)
Definition isSpace (c : ascii) : bool :=
  inRange 9 13 c || (code c =? 32)%nat || (code c =? 160)%nat.
Definition isUpper (c : ascii) : bool := inRange 65 90 c.
Definition isLower (c : ascii) : bool := inRange 97 122 c.
Definition isDigit (c : ascii) : bool := inRange 48 57 c.
(** [\w] is ASCII only, with and without the [i] flag. *)
Definition isWord (c : ascii) : bool :=
  isUpper c || isLower c || isDigit c || (code c =? 95)%nat.
Definition isLineTerminator (c : ascii) : bool :=
  (code c =? 10)%nat || (code c =? 13)%nat.

(** The accented letters of the Latin-1 range: capitals U+00C0-U+00DE
    without the multiplication sign, small letters U+00E0-U+00FE without
    the division sign. *)
Definition isUpperLatin (c : ascii) : bool := inRange 192 214 c || inRange 216 222 c.
Definition isLowerLatin (c : ascii) : bool := inRange 224 246 c || inRange 248 254 c.

(** The capital of a character when it is a single code unit of the model;
    this is also the canonical form under which the [i] flag compares
    characters.  The sharp s (its upper case is two letters) stays, as do
    the micro sign and the y with diaeresis, whose capitals U+039C and
    U+0178 lie above U+00FF: no other character of the model has these
    capitals, and the program looks in upper-case text for ASCII keywords
    only, so that no comparison of the program is changed by it. *)
Definition charToUpper (c : ascii) : ascii :=
  if isLower c || isLowerLatin c then ascii_of_nat (code c - 32) else c.
Definition charToLower (c : ascii) : ascii :=
  if isUpper c || isUpperLatin c then ascii_of_nat (code c + 32) else c.

Fixpoint smap (f : ascii -> ascii) (s : string) : string :=
  match s with
  | EmptyString => EmptyString
  | String c s' => String (f c) (smap f s')
  end.

Fixpoint sfilter (p : ascii -> bool) (s : string) : string :=
  match s with
  | EmptyString => EmptyString
  | String c s' => if p c then String c (sfilter p s') else sfilter p s'
  end.

(** The upper case of one character: the sharp s gives two letters. *)
Definition upperOf (c : ascii) : string :=
  if (code c =? 223)%nat then "SS" else String (charToUpper c) EmptyString.

Fixpoint toUpperCase (s : string) : string :=
  match s with
  | EmptyString => EmptyString
  | String c s' => upperOf c ++ toUpperCase s'
  end.

Definition toLowerCase : string -> string := smap charToLower.

Definition isEmpty (s : string) : bool :=
  match s with EmptyString => true | _ => false end.

(** A string used as a condition: the empty string is falsy. *)
Definition truthy (s : string) : bool := negb (isEmpty s).

Fixpoint trimStart (s : string) : string :=
  match s with
  | String c s' => if isSpace c then trimStart s' else s
  | EmptyString => EmptyString
  end.

Fixpoint trimEnd (s : string) : string :=
  match s with
  | EmptyString => EmptyString
  | String c s' =>
      let t := trimEnd s' in
      if isSpace c && isEmpty t then EmptyString else String c t
  end.

Definition trim (s : string) : string := trimEnd (trimStart s).

Definition startsWith (s p : string) : bool := String.prefix p s.

Fixpoint includes (s sub : string) : bool :=
  String.prefix sub s ||
  match s with
  | String _ s' => includes s' sub
  | EmptyString => false
  end.

(** [s.split(sep)] for a one-character separator. *)
Fixpoint split (sep : ascii) (s : string) : list string :=
  match s with
  | EmptyString => [EmptyString]
  | String c s' =>
      if Ascii.eqb c sep then EmptyString :: split sep s'
      else match split sep s' with
           | h :: t => String c h :: t
           | [] => [String c EmptyString]
           end
  end.

Fixpoint join (sep : string) (l : list string) : string :=
  match l with
  | [] => EmptyString
  | [x] => x
  | x :: l' => x ++ sep ++ join sep l'
  end.

Definition charAt0 (s : string) : string :=
  match s with
  | String c _ => String c EmptyString
  | EmptyString => EmptyString
  end.

Definition slice1 (s : string) : string :=
  match s with
  | String _ s' => s'
  | EmptyString => EmptyString
  end.

Fixpoint drop (n : nat) (s : string) : string :=
  match n, s with
  | S n', String _ s' => drop n' s'
  | _, _ => s
  end.

Definition newline : ascii := ascii_of_nat 10.
Definition nl : string := String newline EmptyString.
Definition dquote : ascii := ascii_of_nat 34.
Definition dq : string := String dquote EmptyString.
Definition squote : ascii := ascii_of_nat 39.
Definition backtick : ascii := ascii_of_nat 96.

(* ====================================================================== *)
(** ** Regular expressions *)

Inductive atom : Type :=
| AChar (c : ascii)   (* a literal character *)
| ASpace              (* \s *)
| AWord.              (* \w *)

Inductive cset : Type :=
| One (a : atom)
| NonSpace                  (* \S *)
| Dot                       (* .  *)
| OneOf (l : list atom)     (* [...]  *)
| NoneOf (l : list atom).   (* [^...] *)

(** Quantifiers range over single-character matchers, except [?]: that is
    all the source's patterns use. *)
Inductive regex : Type :=
| Eps
| Chr (c : cset)
| Bol                        (* ^ *)
| Eol                        (* $ *)
| Seq (r1 r2 : regex)
| Alt (r1 r2 : regex)
| Opt (r : regex)            (* r?  *)
| Star (c : cset)            (* c*  *)
| Plus (c : cset)            (* c+  *)
| Group (n : nat) (r : regex).

Fixpoint lit (s : string) : regex :=
  match s with
  | EmptyString => Eps
  | String c EmptyString => Chr (One (AChar c))
  | String c s' => Seq (Chr (One (AChar c))) (lit s')
  end.

Fixpoint seqs (rs : list regex) : regex :=
  match rs with
  | [] => Eps
  | [r] => r
  | r :: rs' => Seq r (seqs rs')
  end.

Definition ws : cset := One ASpace.      (* \s *)
Definition word : cset := One AWord.     (* \w *)
Definition ch (s : string) : atom :=
  match s with
  | String c _ => AChar c
  | EmptyString => AChar zero
  end.

(** Match state: [pos] is the index of the next character, [rest] the input
    from there on, [caps] the capture groups set so far (newest first). *)
Record mstate : Type := MState {
  pos : nat;
  rest : string;
  caps : list (nat * string)
}.

Fixpoint lookupCap (n : nat) (l : list (nat * string)) : option string :=
  match l with
  | [] => None
  | (k, v) :: l' => if Nat.eqb k n then Some v else lookupCap n l'
  end.

(** [m[n]]: [None] is JavaScript's [undefined]. *)
Definition cap (m : mstate) (n : nat) : option string := lookupCap n (caps m).

(** [m[n]] used as a string: a group that did not take part raises. *)
Definition capStr (m : mstate) (n : nat) : result string :=
  match cap m n with
  | Some s => Ok s
  | None => TypeError
  end.

Section Matcher.
(** The [i] flag. *)
Variable icase : bool.

Definition charEq (a c : ascii) : bool :=
  if icase then Ascii.eqb (charToUpper a) (charToUpper c) else Ascii.eqb a c.

Definition atomMatches (a : atom) (c : ascii) : bool :=
  match a with
  | AChar x => charEq x c
  | ASpace => isSpace c
  | AWord => isWord c
  end.

Definition csetMatches (cs : cset) (c : ascii) : bool :=
  match cs with
  | One a => atomMatches a c
  | NonSpace => negb (isSpace c)
  | Dot => negb (isLineTerminator c)
  | OneOf l => existsb (fun a => atomMatches a c) l
  | NoneOf l => negb (existsb (fun a => atomMatches a c) l)
  end.

(** Greedy iteration of a character set, longest first. *)
Fixpoint star (cs : cset) (k : mstate -> option mstate)
         (p : nat) (cp : list (nat * string)) (s : string) : option mstate :=
  match s with
  | String c s' =>
      if csetMatches cs c then
        match star cs k (S p) cp s' with
        | Some r => Some r
        | None => k (MState p s cp)
        end
      else k (MState p s cp)
  | EmptyString => k (MState p s cp)
  end.

(** Backtracking matcher in continuation-passing style. *)
Fixpoint rmatch (r : regex) (k : mstate -> option mstate) (st : mstate)
  : option mstate :=
  match r with
  | Eps => k st
  | Chr cs =>
      match rest st with
      | String c s' =>
          if csetMatches cs c then k (MState (S (pos st)) s' (caps st))
          else None
      | EmptyString => None
      end
  | Bol => if (pos st =? 0)%nat then k st else None
  | Eol => if isEmpty (rest st) then k st else None
  | Seq r1 r2 => rmatch r1 (rmatch r2 k) st
  | Alt r1 r2 =>
      match rmatch r1 k st with
      | Some x => Some x
      | None => rmatch r2 k st
      end
  | Opt r1 =>
      match rmatch r1 (fun st' => if (pos st' =? pos st)%nat then None else k st') st with
      | Some x => Some x
      | None => k st
      end
  | Star cs => star cs k (pos st) (caps st) (rest st)
  | Plus cs =>
      match rest st with
      | String c s' =>
          if csetMatches cs c then star cs k (S (pos st)) (caps st) s'
          else None
      | EmptyString => None
      end
  | Group n r1 =>
      rmatch r1
        (fun st' =>
           k (MState (pos st') (rest st')
                ((n, substring 0 (pos st' - pos st) (rest st)) :: caps st')))
        st
  end.

Definition matchAt (r : regex) (p : nat) (s : string) : option mstate :=
  rmatch r Some (MState p s []).

(** Leftmost match at or after index [p], where [s] is the input from
    [p] on. *)
Fixpoint searchFrom (r : regex) (p : nat) (s : string) : option mstate :=
  match matchAt r p s with
  | Some st => Some st
  | None =>
      match s with
      | String _ s' => searchFrom r (S p) s'
      | EmptyString => None
      end
  end.

(** [s.match(r)] for a pattern without the [g] flag. *)
Definition jsMatch (r : regex) (s : string) : option mstate := searchFrom r 0 s.

(** [r.test(s)]. *)
Definition test (r : regex) (s : string) : bool :=
  match jsMatch r s with Some _ => true | None => false end.

(** [r.exec(input)] for a pattern with the [g] flag and the given
    [lastIndex]; the new [lastIndex] is [pos] of the result. *)
Definition exec (r : regex) (input : string) (lastIndex : nat) : option mstate :=
  if (String.length input <? lastIndex)%nat then None
  else searchFrom r lastIndex (drop lastIndex input).

(** [while ((m = r.exec(input)) !== null) { acc = body(acc, m) }]. *)
Fixpoint execLoop {S} (fuel : nat) (r : regex) (input : string)
         (body : S -> mstate -> result S) (lastIndex : nat) (acc : S)
  : result S :=
  match fuel with
  | 0 => Diverges
  | S fuel' =>
      match exec r input lastIndex with
      | None => Ok acc
      | Some m =>
          acc' <- body acc m ;;
          execLoop fuel' r input body (pos m) acc'
      end
  end.

End Matcher.

(* ====================================================================== *)
(** ** The intermediate representation ([src/types/schema.ts]) *)

(** [FieldTypeEnum].  [TInherited] is not one of the eight tags: it stands
    for the value a lookup in an object literal returns for a key that the
    literal inherits from [Object.prototype]; see [mapPrismaType]. *)
Inductive FieldType : Type :=
| TString | TNumber | TBoolean | TDate | TDatetime | TEnum | TJson | TRelation
| TInherited (key : string).

Inductive RelationType : Type := OneToOne | OneToMany | ManyToMany.

Module Relation.
Record t : Type := mk {
  model : string;
  type : RelationType;
  foreignKey : option string
}.
End Relation.

Module Field.
Record t : Type := mk {
  name : string;
  type : FieldType;
  isRequired : bool;
  isUnique : bool;
  isId : bool;
  isList : bool;
  default : option string;
  enumValues : option (list string);
  relation : option Relation.t;
  description : option string
}.
End Field.

Module Model.
Record t : Type := mk {
  name : string;
  fields : list Field.t;
  description : option string
}.
End Model.

Module Enum.
Record t : Type := mk {
  name : string;
  values : list string
}.
End Enum.

Record DatabaseSchema : Type := {
  models : list Model.t;
  enums : list Enum.t
}.

Inductive FormLibrary : Type := ReactHookForm | Native.
Inductive OrmStyle : Type := Prisma | Drizzle.
Inductive ApiStyle : Type := Trpc | Rest.

Record GenerationConfig : Type := {
  formLibrary : FormLibrary;
  ormStyle : OrmStyle;
  apiStyle : ApiStyle;
  includeComments : bool;
  strictMode : bool
}.

Definition isRelation (t : FieldType) : bool :=
  match t with TRelation => true | _ => false end.

Definition isSome {A} (o : option A) : bool :=
  match o with Some _ => true | None => false end.

Fixpoint lookup {V} (key : string) (table : list (string * V)) : option V :=
  match table with
  | [] => None
  | (k, v) :: table' => if String.eqb k key then Some v else lookup key table'
  end.

(** The string-keyed properties every object literal inherits. *)
Definition objectPrototypeKeys : list string :=
  [ "constructor"; "__defineGetter__"; "__defineSetter__"; "hasOwnProperty";
    "__lookupGetter__"; "__lookupSetter__"; "isPrototypeOf";
    "propertyIsEnumerable"; "toString"; "valueOf"; "__proto__";
    "toLocaleString" ].

(** [typeMap[key] ?? fallback] for an object literal [typeMap]. *)
Definition tableGet (table : list (string * FieldType)) (key : string)
           (fallback : FieldType) : FieldType :=
  match lookup key table with
  | Some t => t
  | None =>
      if existsb (String.eqb key) objectPrototypeKeys then TInherited key
      else fallback
  end.

(* ====================================================================== *)
(** ** The Prisma parser ([src/parsers/prisma.ts]) *)

(** Source pattern: "/^model\s+(\w+)\s*\{/" *)
Definition modelStart : regex :=
  seqs [Bol; lit "model"; Plus ws; Group 1 (Plus word); Star ws; lit "{"].

(** Source pattern: "/^enum\s+(\w+)\s*\{/" *)
Definition enumStart : regex :=
  seqs [Bol; lit "enum"; Plus ws; Group 1 (Plus word); Star ws; lit "{"].

(** Source pattern: "/^(\w+)\s+(\w+)(\[\])?\??/" *)
Definition fieldPattern : regex :=
  seqs [Bol; Group 1 (Plus word); Plus ws; Group 2 (Plus word);
        Opt (Group 3 (lit "[]")); Opt (lit "?")].

(** Source pattern: "/@default\(([^)]+)\)/" *)
Definition defaultPattern : regex :=
  seqs [lit "@default("; Group 1 (Plus (NoneOf [ch ")"])); lit ")"].

(** Source pattern, with blanks added: "/@relation\( ([^)]* ) \)/" *)
Definition relationPattern : regex :=
  seqs [lit "@relation("; Group 1 (Star (NoneOf [ch ")"])); lit ")"].

(** Source pattern: "/fields:\s*\[(\w+)\]/" *)
Definition fkPattern : regex :=
  seqs [lit "fields:"; Star ws; lit "["; Group 1 (Plus word); lit "]"].

Definition prismaTypeMap : list (string * FieldType) :=
  [ ("String", TString); ("Int", TNumber); ("Float", TNumber);
    ("Decimal", TNumber); ("BigInt", TNumber); ("Boolean", TBoolean);
    ("DateTime", TDatetime); ("Json", TJson) ].

Definition mapPrismaType (prismaType : string) (isEnum : bool) : FieldType :=
  if isEnum then TEnum else tableGet prismaTypeMap prismaType TRelation.

Definition parsePrismaField (line : string) (knownEnums : list Enum.t)
  : result (option Field.t) :=
  match jsMatch false fieldPattern line with
  | None => Ok None
  | Some m =>
      name <- capStr m 1 ;;
      rawType <- capStr m 2 ;;
      let isList := cap m 3 in
      let isOptional := includes line "?" in
      let isId := includes line "@id" in
      let isUnique := includes line "@unique" in
      let defaultValue :=
        match jsMatch false defaultPattern line with
        | Some defaultMatch => cap defaultMatch 1
        | None => None
        end in
      let enumDef := find (fun e => String.eqb (Enum.name e) rawType) knownEnums in
      let type := mapPrismaType rawType (isSome enumDef) in
      let field (rel : option Relation.t) :=
        {| Field.name := name;
           Field.type := type;
           Field.isRequired := negb isOptional;
           Field.isUnique := isUnique;
           Field.isId := isId;
           Field.isList := isSome isList;
           Field.default :=
             match defaultValue with
             | Some d => if truthy d then Some d else None
             | None => None
             end;
           Field.enumValues := option_map Enum.values enumDef;
           Field.relation := rel;
           Field.description := None |} in
      if isRelation type then
        foreignKey <-
          match jsMatch false relationPattern line with
          | Some relationMatch =>
              inner <- capStr relationMatch 1 ;;
              match jsMatch false fkPattern inner with
              | Some fkMatch => Ok (cap fkMatch 1)
              | None => Ok None
              end
          | None => Ok None
          end ;;
        Ok (Some (field (Some
          {| Relation.model := rawType;
             Relation.type := if isSome isList then OneToMany else OneToOne;
             Relation.foreignKey := foreignKey |})))
      else Ok (Some (field None))
  end.

Definition parseModelFields (lines : list string) (knownEnums : list Enum.t)
  : result (list Field.t) :=
  forEach
    (fun fields line =>
       field <- parsePrismaField line knownEnums ;;
       Ok (match field with
           | Some f => (fields ++ [f])%list
           | None => fields
           end))
    lines [].

Inductive BlockType : Type := BModel | BEnum.

Record Block : Type := {
  btype : BlockType;
  bname : string;
  blines : list string
}.

Record PrismaState : Type := {
  pmodels : list Model.t;
  penums : list Enum.t;
  currentBlock : option Block
}.

(** One iteration of the line loop of [parsePrismaSchema]. *)
Definition prismaStep (st : PrismaState) (line : string) : result PrismaState :=
  let trimmed := trim line in
  match jsMatch false modelStart trimmed with
  | Some modelMatch =>
      name <- capStr modelMatch 1 ;;
      Ok {| pmodels := pmodels st; penums := penums st;
            currentBlock := Some {| btype := BModel; bname := name; blines := [] |} |}
  | None =>
  match jsMatch false enumStart trimmed with
  | Some enumMatch =>
      name <- capStr enumMatch 1 ;;
      Ok {| pmodels := pmodels st; penums := penums st;
            currentBlock := Some {| btype := BEnum; bname := name; blines := [] |} |}
  | None =>
  match String.eqb trimmed "}", currentBlock st with
  | true, Some b =>
      match btype b with
      | BModel =>
          fields <- parseModelFields (blines b) (penums st) ;;
          Ok {| pmodels := (pmodels st ++
                  [ {| Model.name := bname b; Model.fields := fields;
                       Model.description := None |} ])%list;
                penums := penums st;
                currentBlock := None |}
      | BEnum =>
          Ok {| pmodels := pmodels st;
                penums := (penums st ++
                  [ {| Enum.name := bname b;
                       Enum.values :=
                         filter (fun l => truthy l && negb (startsWith l "//"))
                                (map trim (blines b)) |} ])%list;
                currentBlock := None |}
      end
  | _, _ =>
      match currentBlock st with
      | Some b =>
          if truthy trimmed && negb (startsWith trimmed "//")
             && negb (startsWith trimmed "@@")
          then Ok {| pmodels := pmodels st; penums := penums st;
                     currentBlock :=
                       Some {| btype := btype b; bname := bname b;
                               blines := (blines b ++ [trimmed])%list |} |}
          else Ok st
      | None => Ok st
      end
  end end end.

Definition prismaInit : PrismaState :=
  {| pmodels := []; penums := []; currentBlock := None |}.

Definition parsePrismaSchema (input : string) : result DatabaseSchema :=
  st <- forEach prismaStep (split newline input) prismaInit ;;
  Ok {| models := pmodels st; enums := penums st |}.

(* ====================================================================== *)
(** ** The SQL DDL parser ([src/parsers/sql.ts]) *)

Fixpoint alts (rs : list regex) : regex :=
  match rs with
  | [] => Eps
  | [r] => r
  | r :: rs' => Alt r (alts rs')
  end.

(** The class of the two identifier quotes, double quote and backtick. *)
Definition quoteSet : cset := OneOf [AChar dquote; AChar backtick].

(** Source pattern: "/CREATE\s+TYPE\s+(\w+)\s+AS\s+ENUM\s*\(([^)]+)\)/gi" *)
Definition enumRegex : regex :=
  seqs [lit "CREATE"; Plus ws; lit "TYPE"; Plus ws; Group 1 (Plus word);
        Plus ws; lit "AS"; Plus ws; lit "ENUM"; Star ws; lit "(";
        Group 2 (Plus (NoneOf [ch ")"])); lit ")"].

(** Source pattern, with Q for the class [quoteSet]:
    "/CREATE\s+TABLE\s+(?:IF\s+NOT\s+EXISTS\s+)?Q?(\w+)Q?\s*\(([^;]+)\)/gi" *)
Definition tableRegex : regex :=
  seqs [lit "CREATE"; Plus ws; lit "TABLE"; Plus ws;
        Opt (seqs [lit "IF"; Plus ws; lit "NOT"; Plus ws; lit "EXISTS"; Plus ws]);
        Opt (Chr quoteSet); Group 1 (Plus word); Opt (Chr quoteSet);
        Star ws; lit "("; Group 2 (Plus (NoneOf [ch ";"])); lit ")"].

(** Source pattern:
    "/^(PRIMARY\s+KEY|FOREIGN\s+KEY|UNIQUE|INDEX|CHECK|CONSTRAINT)/i" *)
Definition constraintPattern : regex :=
  seqs [Bol;
        Group 1 (alts [seqs [lit "PRIMARY"; Plus ws; lit "KEY"];
                       seqs [lit "FOREIGN"; Plus ws; lit "KEY"];
                       lit "UNIQUE"; lit "INDEX"; lit "CHECK";
                       lit "CONSTRAINT"])].

(** Source pattern, with Q for the class [quoteSet] and blanks added:
    "/^Q?(\w+)Q?\s+(\w+)(?:\( ([^)]* ) \))?(.* )$/i" *)
Definition columnPattern : regex :=
  seqs [Bol; Opt (Chr quoteSet); Group 1 (Plus word); Opt (Chr quoteSet);
        Plus ws; Group 2 (Plus word);
        Opt (seqs [lit "("; Group 3 (Star (NoneOf [ch ")"])); lit ")"]);
        Group 4 (Star Dot); Eol].

(** Source pattern, with blanks added: "/DEFAULT\s+(?:'([^']* )'|(\S+))/i" *)
Definition sqlDefaultPattern : regex :=
  seqs [lit "DEFAULT"; Plus ws;
        Alt (seqs [Chr (One (AChar squote));
                   Group 1 (Star (NoneOf [AChar squote]));
                   Chr (One (AChar squote))])
            (Group 2 (Plus NonSpace))].

(** Source pattern, with Q for the class [quoteSet]:
    "/REFERENCES\s+Q?(\w+)Q?/i" *)
Definition referencesPattern : regex :=
  seqs [lit "REFERENCES"; Plus ws; Opt (Chr quoteSet); Group 1 (Plus word);
        Opt (Chr quoteSet)].

(** [str.split(/[_\s-]+/)]: the pieces between maximal runs of separator
    characters; [prevSep] tells that the previous character was one. *)
Fixpoint splitRuns (sep : ascii -> bool) (s : string) (prevSep : bool)
  : list string :=
  match s with
  | EmptyString => [EmptyString]
  | String c s' =>
      if sep c then
        if prevSep then splitRuns sep s' true
        else EmptyString :: splitRuns sep s' true
      else match splitRuns sep s' false with
           | h :: t => String c h :: t
           | [] => [String c EmptyString]
           end
  end.

Definition wordSeparator (c : ascii) : bool :=
  csetMatches false (OneOf [ch "_"; ASpace; ch "-"]) c.

Definition toPascalCase (str : string) : string :=
  join ""
    (map (fun word => toUpperCase (charAt0 word) ++ toLowerCase (slice1 word))
         (splitRuns wordSeparator str false)).

Definition toCamelCase (str : string) : string :=
  let pascal := toPascalCase str in
  toLowerCase (charAt0 pascal) ++ slice1 pascal.

Fixpoint splitColumnsLoop (body : string) (depth : Z) (current : string)
         (result : list string) : list string * string :=
  match body with
  | EmptyString => (result, current)
  | String char body' =>
      let depth' :=
        if Ascii.eqb char "(" then (depth + 1)%Z
        else if Ascii.eqb char ")" then (depth - 1)%Z
        else depth in
      if Ascii.eqb char "," && (depth' =? 0)%Z
      then splitColumnsLoop body' depth' EmptyString (result ++ [current])%list
      else splitColumnsLoop body' depth' (current ++ String char EmptyString) result
  end.

Definition splitColumns (body : string) : list string :=
  let '(result, current) := splitColumnsLoop body 0%Z EmptyString [] in
  if truthy (trim current) then (result ++ [current])%list else result.

Definition sqlTypeMap : list (string * FieldType) :=
  [ ("VARCHAR", TString); ("CHAR", TString); ("TEXT", TString);
    ("UUID", TString); ("CITEXT", TString);
    ("INTEGER", TNumber); ("INT", TNumber); ("SMALLINT", TNumber);
    ("BIGINT", TNumber); ("SERIAL", TNumber); ("BIGSERIAL", TNumber);
    ("FLOAT", TNumber); ("DOUBLE", TNumber); ("DECIMAL", TNumber);
    ("NUMERIC", TNumber); ("REAL", TNumber);
    ("BOOLEAN", TBoolean); ("BOOL", TBoolean);
    ("DATE", TDate); ("TIMESTAMP", TDatetime); ("TIMESTAMPTZ", TDatetime);
    ("JSON", TJson); ("JSONB", TJson) ].

Definition mapSqlType (sqlType : string) : FieldType :=
  tableGet sqlTypeMap sqlType TString.

Definition parseSqlColumn (def : string) (knownEnums : list Enum.t)
  : result (option Field.t) :=
  match jsMatch true columnPattern def with
  | None => Ok None
  | Some m =>
      name <- capStr m 1 ;;
      rawType <- capStr m 2 ;;
      rest <- capStr m 4 ;;
      let upperType := toUpperCase rawType in
      let restUpper := toUpperCase rest in
      let isId := includes restUpper "PRIMARY KEY" || includes restUpper "SERIAL" in
      let isUnique := includes restUpper "UNIQUE" in
      let isRequired := includes restUpper "NOT NULL" || isId in
      let defaultValue :=
        match jsMatch true sqlDefaultPattern rest with
        | Some defaultMatch =>
            match cap defaultMatch 1 with
            | Some d => Some d
            | None => cap defaultMatch 2
            end
        | None => None
        end in
      let enumDef :=
        find (fun e => String.eqb (toLowerCase (Enum.name e)) (toLowerCase rawType))
             knownEnums in
      let refMatch := jsMatch true referencesPattern rest in
      let type := if isSome enumDef then TEnum else mapSqlType upperType in
      let field (ty : FieldType) (rel : option Relation.t) :=
        {| Field.name := toCamelCase name;
           Field.type := ty;
           Field.isRequired := isRequired;
           Field.isUnique := isUnique;
           Field.isId := isId;
           Field.isList := false;
           Field.default :=
             match defaultValue with
             | Some d => if truthy d then Some d else None
             | None => None
             end;
           Field.enumValues := option_map Enum.values enumDef;
           Field.relation := rel;
           Field.description := None |} in
      match refMatch with
      | Some rm =>
          table <- capStr rm 1 ;;
          Ok (Some (field TRelation (Some
            {| Relation.model := toPascalCase table;
               Relation.type := OneToOne;
               Relation.foreignKey := Some (toCamelCase name) |})))
      | None => Ok (Some (field type None))
      end
  end.

Definition parseSqlColumns (body : string) (knownEnums : list Enum.t)
  : result (list Field.t) :=
  forEach
    (fun fields def =>
       let trimmed := trim def in
       if test true constraintPattern trimmed then Ok fields
       else
         field <- parseSqlColumn trimmed knownEnums ;;
         Ok (match field with
             | Some f => (fields ++ [f])%list
             | None => fields
             end))
    (splitColumns body) [].

(** Body of the [CREATE TYPE] loop. *)
Definition sqlEnumBody (enums : list Enum.t) (enumMatch : mstate)
  : result (list Enum.t) :=
  name <- capStr enumMatch 1 ;;
  list <- capStr enumMatch 2 ;;
  let values :=
    map (fun v => sfilter (fun c => negb (Ascii.eqb c squote)) (trim v))
        (split "," list) in
  Ok (enums ++ [ {| Enum.name := name; Enum.values := values |} ])%list.

(** Body of the [CREATE TABLE] loop. *)
Definition sqlTableBody (enums : list Enum.t) (models : list Model.t)
           (tableMatch : mstate) : result (list Model.t) :=
  tableName <- capStr tableMatch 1 ;;
  body <- capStr tableMatch 2 ;;
  fields <- parseSqlColumns body enums ;;
  Ok (models ++ [ {| Model.name := toPascalCase tableName;
                     Model.fields := fields;
                     Model.description := None |} ])%list.

(** Both loops run on a fresh pattern object, so [lastIndex] starts at 0.
    Each loop is given [String.length input + 1] iterations; the theorems
    below show that it never needs more. *)
Definition parseSqlSchema (input : string) : result DatabaseSchema :=
  let fuel := S (String.length input) in
  enums <- execLoop true fuel enumRegex input sqlEnumBody 0 [] ;;
  models <- execLoop true fuel tableRegex input (sqlTableBody enums) 0 [] ;;
  Ok {| models := models; enums := enums |}.

(* ====================================================================== *)
(** ** Helpers shared by the two generators *)

(** [lines.push(l)]. *)
Definition push (lines : list string) (l : string) : list string :=
  (lines ++ [l])%list.

(** [if (cond) lines.push(l)]. *)
Definition pushIf (cond : bool) (lines : list string) (l : string) : list string :=
  if cond then push lines l else lines.

(** The elements of an array paired with their indices. *)
Definition indexed {A} (l : list A) : list (nat * A) :=
  combine (seq 0 (List.length l)) l.

(** [a.every((val, i) => val === b[i])] behind the length test; an index
    outside [b] reads [undefined], which equals no string. *)
Definition arraysEqual (a b : list string) : bool :=
  if negb (List.length a =? List.length b)%nat then false
  else forallb (fun '(i, val) =>
                  match nth_error b i with
                  | Some x => String.eqb val x
                  | None => false
                  end)
               (indexed a).

Definition autoFieldNames : list string :=
  ["createdAt"; "updatedAt"; "created_at"; "updated_at"].

Definition isAutoField (field : Field.t) : bool :=
  Field.isId field || existsb (String.eqb (Field.name field)) autoFieldNames.

Definition lowerFirst (str : string) : string :=
  toLowerCase (charAt0 str) ++ slice1 str.

(** The template fragment that puts a value between double quotes. *)
Definition quoted (v : string) : string := dq ++ v ++ dq.

(** [schema.enums.find(e => field.enumValues && arraysEqual(e.values, field.enumValues))] *)
Definition findTopEnum (field : Field.t) (schema : DatabaseSchema) : option Enum.t :=
  find (fun e =>
          match Field.enumValues field with
          | Some vs => arraysEqual (Enum.values e) vs
          | None => false
          end)
       (enums schema).

(** [field.enumValues?.length] as a condition. *)
Definition hasEnumValues (field : Field.t) : bool :=
  match Field.enumValues field with
  | Some (_ :: _) => true
  | _ => false
  end.

Definition enumValuesOrEmpty (field : Field.t) : list string :=
  match Field.enumValues field with
  | Some vs => vs
  | None => []
  end.

(* ====================================================================== *)
(** ** The Zod generator ([src/generators/zod.ts]) *)

Definition zodBaseType (field : Field.t) (schema : DatabaseSchema)
           (strictMode : bool) : string :=
  if Field.isId field then "z.string().uuid()"
  else
    match Field.type field with
    | TString =>
        if strictMode && Field.isRequired field then "z.string().min(1)"
        else "z.string()"
    | TNumber => "z.number()"
    | TBoolean => "z.boolean()"
    | TDate | TDatetime => "z.coerce.date()"
    | TEnum =>
        match findTopEnum field schema with
        | Some topEnum => lowerFirst (Enum.name topEnum) ++ "Schema"
        | None =>
            if hasEnumValues field then
              "z.enum([" ++ join ", " (map quoted (enumValuesOrEmpty field)) ++ "])"
            else "z.string()"
        end
    | TJson => "z.record(z.unknown())"
    | _ => "z.string()"
    end.

Definition zodFieldType (field : Field.t) (schema : DatabaseSchema)
           (strictMode : bool) : string :=
  let base := zodBaseType field schema strictMode in
  let base := if Field.isList field then "z.array(" ++ base ++ ")" else base in
  if negb (Field.isRequired field) then base ++ ".optional()" else base.

Definition zodFieldLine (schema : DatabaseSchema) (strictMode : bool)
           (field : Field.t) : string :=
  "  " ++ Field.name field ++ ": " ++ zodFieldType field schema strictMode ++ ",".

(** Body of the loop over [schema.enums]. *)
Definition zodEnumStep (config : GenerationConfig) (lines : list string)
           (enumDef : Enum.t) : list string :=
  let lines := pushIf (includeComments config) lines
                 ("/** " ++ Enum.name enumDef ++ " enum values */") in
  let values := join ", " (map quoted (Enum.values enumDef)) in
  let lines := push lines
                 ("export const " ++ lowerFirst (Enum.name enumDef)
                  ++ "Schema = z.enum([" ++ values ++ "]);") in
  let lines := push lines
                 ("export type " ++ Enum.name enumDef ++ " = z.infer<typeof "
                  ++ lowerFirst (Enum.name enumDef) ++ "Schema>;") in
  push lines "".

(** Body of the loop over [schema.models]. *)
Definition zodModelStep (schema : DatabaseSchema) (config : GenerationConfig)
           (lines : list string) (model : Model.t) : list string :=
  let name := Model.name model in
  let strict := strictMode config in
  let dataFields :=
    filter (fun f => negb (isRelation (Field.type f))) (Model.fields model) in
  (* Full schema *)
  let lines := pushIf (includeComments config) lines
                 ("/** Full " ++ name ++ " schema with all fields */") in
  let lines := push lines ("export const " ++ lowerFirst name ++ "Schema = z.object({") in
  let lines := fold_left (fun ls field => push ls (zodFieldLine schema strict field))
                 dataFields lines in
  let lines := push lines "});" in
  let lines := push lines "" in
  (* Create schema (omit auto-managed fields) *)
  let createFields := filter (fun f => negb (isAutoField f)) dataFields in
  let lines := pushIf (includeComments config) lines
                 ("/** Schema for creating a new " ++ name ++ " */") in
  let lines := push lines ("export const create" ++ name ++ "Schema = z.object({") in
  let lines := fold_left (fun ls field => push ls (zodFieldLine schema strict field))
                 createFields lines in
  let lines := push lines "});" in
  let lines := push lines "" in
  (* Update schema *)
  let lines := pushIf (includeComments config) lines
                 ("/** Schema for updating a " ++ name ++ " (all fields optional) */") in
  let lines := push lines
                 ("export const update" ++ name ++ "Schema = create" ++ name
                  ++ "Schema.partial();") in
  let lines := push lines "" in
  (* Inferred types *)
  let lines := push lines
                 ("export type " ++ name ++ " = z.infer<typeof "
                  ++ lowerFirst name ++ "Schema>;") in
  let lines := push lines
                 ("export type Create" ++ name ++ "Input = z.infer<typeof create"
                  ++ name ++ "Schema>;") in
  let lines := push lines
                 ("export type Update" ++ name ++ "Input = z.infer<typeof update"
                  ++ name ++ "Schema>;") in
  push lines "".

(** The [lines] array of [generateZodSchemas] just before it is joined. *)
Definition zodLines (schema : DatabaseSchema) (config : GenerationConfig)
  : list string :=
  let lines := push [] ("import { z } from " ++ quoted "zod" ++ ";") in
  let lines := push lines "" in
  let lines := fold_left (zodEnumStep config) (enums schema) lines in
  fold_left (zodModelStep schema config) (models schema) lines.

Definition generateZodSchemas (schema : DatabaseSchema) (config : GenerationConfig)
  : string :=
  join nl (zodLines schema config).

(* ====================================================================== *)
(** ** The type-definition generator ([src/generators/types.ts]) *)

Definition tsBaseType (field : Field.t) (modelName : string)
           (schema : DatabaseSchema) : string :=
  if Field.isId field then modelName ++ "Id"
  else
    match Field.type field with
    | TString => "string"
    | TNumber => "number"
    | TBoolean => "boolean"
    | TDate | TDatetime => "Date"
    | TEnum =>
        match findTopEnum field schema with
        | Some topEnum => Enum.name topEnum
        | None =>
            if hasEnumValues field then
              join " | " (map quoted (enumValuesOrEmpty field))
            else "string"
        end
    | TJson => "Record<string, unknown>"
    | _ => "string"
    end.

Definition tsFieldType (field : Field.t) (modelName : string)
           (schema : DatabaseSchema) : string :=
  let base := tsBaseType field modelName schema in
  if Field.isList field then base ++ "[]" else base.

(** The [optional] marker of a property. *)
Definition optionalMark (field : Field.t) : string :=
  if Field.isRequired field then "" else "?".

Definition tsFieldLine (schema : DatabaseSchema) (modelName : string)
           (field : Field.t) : string :=
  "  " ++ Field.name field ++ optionalMark field ++ ": "
  ++ tsFieldType field modelName schema ++ ";".

Definition tsEnumStep (config : GenerationConfig) (lines : list string)
           (enumDef : Enum.t) : list string :=
  let lines := pushIf (includeComments config) lines
                 ("/** " ++ Enum.name enumDef ++ " enum */") in
  let values := join " | " (map quoted (Enum.values enumDef)) in
  let lines := push lines ("export type " ++ Enum.name enumDef ++ " = " ++ values ++ ";") in
  push lines "".

Definition tsBrandStep (lines : list string) (model : Model.t) : list string :=
  push lines ("export type " ++ Model.name model ++ "Id = string & { __brand: "
              ++ quoted (Model.name model ++ "Id") ++ " };").

(** Body of the inner loop of the full interface: relation fields are
    skipped by [continue]. *)
Definition tsFullFieldStep (schema : DatabaseSchema) (config : GenerationConfig)
           (modelName : string) (lines : list string) (field : Field.t)
  : list string :=
  if isRelation (Field.type field) then lines
  else
    let lines :=
      match Field.description field with
      | Some d => pushIf (includeComments config && truthy d) lines
                    ("  /** " ++ d ++ " */")
      | None => lines
      end in
    push lines (tsFieldLine schema modelName field).

Definition tsFullStep (schema : DatabaseSchema) (config : GenerationConfig)
           (lines : list string) (model : Model.t) : list string :=
  let lines := pushIf (includeComments config) lines
                 ("/** Full " ++ Model.name model ++ " entity */") in
  let lines := push lines ("export interface " ++ Model.name model ++ " {") in
  let lines := fold_left (tsFullFieldStep schema config (Model.name model))
                 (Model.fields model) lines in
  let lines := push lines "}" in
  push lines "".

Definition tsCreateStep (schema : DatabaseSchema) (config : GenerationConfig)
           (lines : list string) (model : Model.t) : list string :=
  let createFields :=
    filter (fun f => negb (isRelation (Field.type f)) && negb (isAutoField f))
           (Model.fields model) in
  let lines := pushIf (includeComments config) lines
                 ("/** Input for creating a new " ++ Model.name model ++ " */") in
  let lines := push lines ("export interface Create" ++ Model.name model ++ "Input {") in
  let lines := fold_left (fun ls field => push ls (tsFieldLine schema (Model.name model) field))
                 createFields lines in
  let lines := push lines "}" in
  push lines "".

Definition tsUpdateStep (config : GenerationConfig) (lines : list string)
           (model : Model.t) : list string :=
  let lines := pushIf (includeComments config) lines
                 ("/** Input for updating a " ++ Model.name model
                  ++ " (all fields optional) */") in
  let lines := push lines
                 ("export type Update" ++ Model.name model ++ "Input = Partial<Create"
                  ++ Model.name model ++ "Input>;") in
  push lines "".

Definition tsRelationFieldStep (lines : list string) (field : Field.t)
  : result (list string) :=
  match Field.relation field with
  | None => TypeError
  | Some rel =>
      let relModel := Relation.model rel in
      if Field.isList field then
        Ok (push lines ("  " ++ Field.name field ++ ": " ++ relModel ++ "[];"))
      else
        Ok (push lines ("  " ++ Field.name field ++ optionalMark field ++ ": "
                        ++ relModel ++ ";"))
  end.

Definition tsRelationsStep (config : GenerationConfig) (lines : list string)
           (model : Model.t) : result (list string) :=
  let relationFields :=
    filter (fun f => isRelation (Field.type f) && isSome (Field.relation f))
           (Model.fields model) in
  if (0 <? List.length relationFields)%nat then
    let lines := pushIf (includeComments config) lines
                   ("/** " ++ Model.name model ++ " with all relations loaded */") in
    let lines := push lines
                   ("export interface " ++ Model.name model
                    ++ "WithRelations extends " ++ Model.name model ++ " {") in
    lines <- forEach tsRelationFieldStep relationFields lines ;;
    let lines := push lines "}" in
    Ok (push lines "")
  else Ok lines.

(** The first line is a banner drawn with the box-drawing character
    U+2500, which lies above the code units of the model; the literal holds
    it as the source file does. *)
Definition tsUtilityLines : list string :=
  [ "// ─── Utility Types ───────────────────────────────────────────────────────";
    "";
    "export interface Paginated<T> {";
    "  items: T[];";
    "  nextCursor?: string;";
    "  total: number;";
    "}";
    "";
    "export type SortDirection = " ++ quoted "asc" ++ " | " ++ quoted "desc" ++ ";";
    "";
    "export interface SortBy<T> {";
    "  field: keyof T;";
    "  direction: SortDirection;";
    "}" ].

(** The [lines] array of [generateTypeDefinitions] just before it is
    joined. *)
Definition tsLines (schema : DatabaseSchema) (config : GenerationConfig)
  : result (list string) :=
  let lines :=
    if (0 <? List.length (enums schema))%nat
    then fold_left (tsEnumStep config) (enums schema) []
    else [] in
  let lines := fold_left tsBrandStep (models schema) lines in
  let lines := push lines "" in
  let lines := fold_left (tsFullStep schema config) (models schema) lines in
  let lines := fold_left (tsCreateStep schema config) (models schema) lines in
  let lines := fold_left (tsUpdateStep config) (models schema) lines in
  lines <- forEach (tsRelationsStep config) (models schema) lines ;;
  Ok (lines ++ tsUtilityLines)%list.

Definition generateTypeDefinitions (schema : DatabaseSchema)
           (config : GenerationConfig) : result string :=
  lines <- tsLines schema config ;;
  Ok (join nl lines).

(* ====================================================================== *)
(** ** The parser entry points ([src/parsers/index.ts]) *)

Inductive InputFormat : Type := FPrisma | FSql | FEnglish.

(** [parseSchema]: the [default] branch of the switch, which throws, is for
    a value outside [InputFormat] and has no counterpart here; [None] is
    the [null] returned for English input. *)
Definition parseSchema (input : string) (format : InputFormat)
  : result (option DatabaseSchema) :=
  match format with
  | FPrisma => d <- parsePrismaSchema input ;; Ok (Some d)
  | FSql => d <- parseSqlSchema input ;; Ok (Some d)
  | FEnglish => Ok None
  end.

(** The pattern of [detectFormat] after its anchor:
    "(model|datasource|generator|enum)\s+\w+\s*\{" *)
Definition blockOpener : regex :=
  seqs [Group 1 (alts [lit "model"; lit "datasource"; lit "generator"; lit "enum"]);
        Plus ws; Plus word; Star ws; lit "{"].

(** Source pattern: "/CREATE\s+(TABLE|TYPE)/i" *)
Definition createPattern : regex :=
  seqs [lit "CREATE"; Plus ws; Group 1 (alts [lit "TABLE"; lit "TYPE"])].

(** Search for a pattern that starts with the anchor under the [m] flag:
    the anchor holds at index 0 and right after a line terminator, so the
    rest of the pattern is tried at these indices only, from left to right.
    [atStart] tells whether index [p] is such an index. *)
Fixpoint searchLineStarts (icase : bool) (r : regex) (p : nat) (atStart : bool)
         (s : string) : option mstate :=
  match (if atStart then matchAt icase r p s else None) with
  | Some st => Some st
  | None =>
      match s with
      | String c s' => searchLineStarts icase r (S p) (isLineTerminator c) s'
      | EmptyString => None
      end
  end.

(** [/^r/m.test(s)]. *)
Definition testLines (icase : bool) (r : regex) (s : string) : bool :=
  isSome (searchLineStarts icase r 0 true s).

Definition detectFormat (input : string) : InputFormat :=
  let trimmed := trim input in
  if testLines false blockOpener trimmed then FPrisma
  else if test true createPattern trimmed then FSql
  else FEnglish.

(* ====================================================================== *)
(** ** The template dispatcher ([src/generators/index.ts]) *)

Inductive GenerationTarget : Type :=
| TargetZod | TargetTrpc | TargetReactForm | TargetTypes.

Definition targetName (target : GenerationTarget) : string :=
  match target with
  | TargetZod => "zod"
  | TargetTrpc => "trpc"
  | TargetReactForm => "react-form"
  | TargetTypes => "types"
  end.

Definition TEMPLATE_TARGETS : list GenerationTarget := [TargetZod; TargetTypes].

Definition isTemplateTarget (target : GenerationTarget) : bool :=
  existsb (fun t => String.eqb (targetName t) (targetName target)) TEMPLATE_TARGETS.

(** What a call that may [throw new Error(message)] does. *)
Inductive attempt (A : Type) : Type :=
| Done (r : result A)
| Throws (message : string).

Arguments Done {A} r.
Arguments Throws {A} message.

Definition generateFromTemplate (schema : DatabaseSchema)
           (target : GenerationTarget) (config : GenerationConfig)
  : attempt string :=
  match target with
  | TargetZod => Done (Ok (generateZodSchemas schema config))
  | TargetTypes => Done (generateTypeDefinitions schema config)
  | _ => Throws ("No template generator for target: " ++ targetName target)
  end.

(* ====================================================================== *)
(** ** The rate limiter ([src/lib/rate-limit.ts])

    The module-level [Map] is threaded through as a [Store]; [Date.now()]
    is the argument [now], in milliseconds. *)

(** A [Map<string, number[]>] as its entries in insertion order. *)
Definition Store : Type := list (string * list Z).

Fixpoint mapGet (key : string) (store : Store) : option (list Z) :=
  match store with
  | [] => None
  | (k, v) :: store' => if String.eqb k key then Some v else mapGet key store'
  end.

(** [store.set(key, v)]: an existing key keeps its place. *)
Fixpoint mapSet (key : string) (v : list Z) (store : Store) : Store :=
  match store with
  | [] => [(key, v)]
  | (k, v') :: store' =>
      if String.eqb k key then (k, v) :: store'
      else (k, v') :: mapSet key v store'
  end.

Definition MAX_REQUESTS : nat := 20.
Definition WINDOW_MS : Z := 60 * 1000.

(** [Math.ceil(x / 1000)] for an integer [x]. *)
Definition ceilSeconds (x : Z) : Z := (- ((- x) / 1000))%Z.

(** The 429 response; [retryAfter] is [None] where the source would
    compute with an [undefined] first element. *)
Record Rejection : Type := {
  status : Z;
  retryAfter : option Z
}.

(** The client address read from the [x-forwarded-for] and [x-real-ip]
    headers ([None] for an absent header). *)
Definition clientIp (forwardedFor realIp : option string) : string :=
  match forwardedFor with
  | Some h =>
      match split "," h with
      | first :: _ => trim first
      | [] => match realIp with Some r => r | None => "unknown" end
      end
  | None => match realIp with Some r => r | None => "unknown" end
  end.

(** The periodic cleanup: keys whose timestamps are all older than the
    window are deleted. *)
Definition cleanup (now : Z) (store : Store) : Store :=
  filter (fun '(key, vals) =>
            negb (forallb (fun t => (WINDOW_MS <? now - t)%Z) vals))
         store.

(** [rateLimit] for the client [ip] at time [now]: the rejection, if any,
    and the store afterwards. *)
Definition rateLimit (store : Store) (ip : string) (now : Z)
  : option Rejection * Store :=
  let timestamps := match mapGet ip store with Some ts => ts | None => [] end in
  let recent := filter (fun t => (now - t <? WINDOW_MS)%Z) timestamps in
  if (MAX_REQUESTS <=? List.length recent)%nat then
    (Some {| status := 429;
             retryAfter :=
               match recent with
               | t0 :: _ => Some (ceilSeconds (t0 + WINDOW_MS - now))
               | [] => None
               end |},
     store)
  else
    let recent := (recent ++ [now])%list in
    let store := mapSet ip recent store in
    let store :=
      if (10000 <? Z.of_nat (List.length store))%Z then cleanup now store else store in
    (None, store).

(* ====================================================================== *)
(** ** Vocabulary of the statements below *)

(** Capture group [n] is set on every path through [r]. *)
Fixpoint defines (n : nat) (r : regex) : bool :=
  match r with
  | Group m r1 => Nat.eqb m n || defines n r1
  | Seq r1 r2 => defines n r1 || defines n r2
  | Alt r1 r2 => defines n r1 && defines n r2
  | _ => false
  end.

(** Every match of [r] takes at least one character. *)
Fixpoint consumes (r : regex) : bool :=
  match r with
  | Chr _ | Plus _ => true
  | Seq r1 r2 => consumes r1 || consumes r2
  | Alt r1 r2 => consumes r1 && consumes r2
  | Group _ r1 => consumes r1
  | _ => false
  end.

(** [st'] is a later state of the run that was in [st]: the same input,
    further on, with no capture lost. *)
Definition extends (st st' : mstate) : Prop :=
  pos st + String.length (rest st) = pos st' + String.length (rest st')
  /\ pos st <= pos st'
  /\ (forall n, cap st n <> None -> cap st' n <> None).

Definition after (r : regex) (st st' : mstate) : Prop :=
  extends st st'
  /\ (forall n, defines n r = true -> cap st' n <> None)
  /\ (consumes r = true -> pos st < pos st').

(** The enum a raw type name resolves to among the enums known so far. *)
Definition prismaEnumDef (rawType : string) (knownEnums : list Enum.t)
  : option Enum.t :=
  find (fun e => String.eqb (Enum.name e) rawType) knownEnums.

(** The field a line contributes, if any. *)
Definition fieldOfLine (knownEnums : list Enum.t) (line : string) : list Field.t :=
  match parsePrismaField line knownEnums with
  | Ok (Some f) => [f]
  | _ => []
  end.

(** Every field of every model was produced by [parsePrismaField]. *)
Definition prismaFieldsFrom (ms : list Model.t) : Prop :=
  Forall (fun m =>
            Forall (fun f => exists line known,
                        parsePrismaField line known = Ok (Some f))
                   (Model.fields m)) ms.

(** The enum a raw SQL type name resolves to, compared in lower case. *)
Definition sqlEnumDef (rawType : string) (knownEnums : list Enum.t)
  : option Enum.t :=
  find (fun e => String.eqb (toLowerCase (Enum.name e)) (toLowerCase rawType))
       knownEnums.

(** The field a column definition contributes, if any. *)
Definition columnOfDef (knownEnums : list Enum.t) (def : string) : list Field.t :=
  if test true constraintPattern (trim def) then []
  else match parseSqlColumn (trim def) knownEnums with
       | Ok (Some f) => [f]
       | _ => []
       end.

(** The successive results of [r.exec(input)], in the order the loop meets
    them. *)
Fixpoint execAll (icase : bool) (fuel : nat) (r : regex) (input : string)
         (lastIndex : nat) : list mstate :=
  match fuel with
  | 0 => []
  | S fuel' =>
      match exec icase r input lastIndex with
      | None => []
      | Some m => m :: execAll icase fuel' r input (pos m)
      end
  end.

Definition allMatches (r : regex) (input : string) : list mstate :=
  execAll true (S (String.length input)) r input 0.

Definition capOrEmpty (m : mstate) (n : nat) : string :=
  match cap m n with
  | Some s => s
  | None => EmptyString
  end.

(** The top-level enum built from one match of [enumRegex]. *)
Definition sqlEnumOf (m : mstate) : Enum.t :=
  {| Enum.name := capOrEmpty m 1;
     Enum.values :=
       map (fun v => sfilter (fun c => negb (Ascii.eqb c squote)) (trim v))
           (split "," (capOrEmpty m 2)) |}.

(** The model built from one match of [tableRegex], given the enums. *)
Definition sqlModelOf (knownEnums : list Enum.t) (m : mstate) : Model.t :=
  {| Model.name := toPascalCase (capOrEmpty m 1);
     Model.fields := flat_map (columnOfDef knownEnums) (splitColumns (capOrEmpty m 2));
     Model.description := None |}.

Fixpoint occurs (c : ascii) (s : string) : bool :=
  match s with
  | EmptyString => false
  | String x s' => Ascii.eqb x c || occurs c s'
  end.

(** A text line: it holds no line feed. *)
Definition isLine (s : string) : Prop := occurs newline s = false.

(** [header] opens a model block named [name]. *)
Definition opensModel (header name : string) : Prop :=
  exists m, jsMatch false modelStart (trim header) = Some m /\ cap m 1 = Some name.

(** [header] opens an enum block named [name]. *)
Definition opensEnum (header name : string) : Prop :=
  jsMatch false modelStart (trim header) = None /\
  exists m, jsMatch false enumStart (trim header) = Some m /\ cap m 1 = Some name.

(** A line that the loop stores in the open block: it opens and closes no
    block and is neither blank, nor a comment, nor a block attribute. *)
Definition bodyLine (l : string) : bool :=
  let t := trim l in
  negb (isSome (jsMatch false modelStart t))
  && negb (isSome (jsMatch false enumStart t))
  && negb (String.eqb t "}")
  && truthy t && negb (startsWith t "//") && negb (startsWith t "@@").

(** The values an enum block with the given body lines declares. *)
Definition enumValuesOf (body : list string) : list string :=
  filter (fun l => truthy l && negb (startsWith l "//")) (map trim (map trim body)).

(** How a field line resolves against the enums known when its block
    closes: an enum of that name gives type [enum] and its values, and
    otherwise the scalar table or its [relation] fallback decides. *)
Definition resolvedAgainst (knownEnums : list Enum.t) (line : string) : Prop :=
  match jsMatch false fieldPattern line with
  | None => fieldOfLine knownEnums line = []
  | Some m =>
      exists rawType f,
        cap m 2 = Some rawType /\ fieldOfLine knownEnums line = [f] /\
        match prismaEnumDef rawType knownEnums with
        | Some e =>
            Field.type f = TEnum /\ Field.enumValues f = Some (Enum.values e)
        | None =>
            Field.type f <> TEnum /\ Field.enumValues f = None
            /\ Field.type f = tableGet prismaTypeMap rawType TRelation
        end
  end.

(** [P] holds of every field of every model. *)
Definition allFields (P : Field.t -> Prop) (ms : list Model.t) : Prop :=
  Forall (fun m => Forall P (Model.fields m)) ms.

(** The IR invariant on relation fields: a field of type [relation] carries
    its [relation] attribute (a model name and a cardinality). *)
Definition relationPresent (f : Field.t) : Prop :=
  match Field.type f with
  | TRelation => exists rel, Field.relation f = Some rel
  | _ => True
  end.

(** How the Prisma parser fills in a relation: the field comes from a line
    that matches [fieldPattern]; it is a list exactly when group 3 of the
    pattern, the bracket pair after the type, took part in the match; the
    [relation] attribute is there exactly for type [relation], and its
    cardinality follows the list marker. *)
Definition prismaCardinality (f : Field.t) : Prop :=
  exists line known m,
    jsMatch false fieldPattern line = Some m /\
    parsePrismaField line known = Ok (Some f) /\
    Field.isList f = isSome (cap m 3) /\
    match Field.relation f with
    | Some rel =>
        Field.type f = TRelation /\
        Relation.type rel = (if isSome (cap m 3) then OneToMany else OneToOne) /\
        (Relation.type rel = OneToMany <-> Field.isList f = true) /\
        (Relation.type rel = OneToOne <-> Field.isList f = false) /\
        Relation.type rel <> ManyToMany
    | None => Field.type f <> TRelation
    end.


(** The line matches the base pattern of a field. *)
Definition isFieldLine (line : string) : bool :=
  isSome (jsMatch false fieldPattern line).

(** The column definition is no table constraint and matches the base
    pattern of a column. *)
Definition isColumnDef (def : string) : bool :=
  negb (test true constraintPattern (trim def))
  && isSome (jsMatch true columnPattern (trim def)).

(** Name, type and enum values of every field of every model of a parse
    result; an error has none. *)
Definition fieldTypesOf (r : result DatabaseSchema)
  : list (string * list (string * FieldType * option (list string))) :=
  match r with
  | Ok d =>
      map (fun m =>
             (Model.name m,
              map (fun f => (Field.name f, Field.type f, Field.enumValues f))
                  (Model.fields m)))
          (models d)
  | _ => []
  end.

Definition enumsOf (r : result DatabaseSchema) : list Enum.t :=
  match r with
  | Ok d => enums d
  | _ => []
  end.

(** *** Rendered constructs, as the specification describes them *)

(** A doc comment that is emitted only when comments are on. *)
Definition commentIf (cond : bool) (c : string) : list string :=
  if cond then [c] else [].

(** Equality of two value lists: same length, same elements, same order. *)
Definition sameValues (a b : list string) : bool :=
  if list_eq_dec string_dec a b then true else false.

(** The data fields of a model: those that are no relations. *)
Definition dataFieldsOf (model : Model.t) : list Field.t :=
  filter (fun f => negb (isRelation (Field.type f))) (Model.fields model).

(** The create-input fields in the words of the specification: the
    non-relation fields, minus the id field, minus any field named
    [createdAt], [updatedAt], [created_at] or [updated_at]. *)
Definition createFieldsOf (model : Model.t) : list Field.t :=
  filter (fun f =>
            negb (isRelation (Field.type f))
            && negb (Field.isId f)
            && negb (existsb (String.eqb (Field.name f))
                             ["createdAt"; "updatedAt"; "created_at"; "updated_at"]))
         (Model.fields model).

Definition zodEnumConstruct (config : GenerationConfig) (e : Enum.t) : list string :=
  commentIf (includeComments config) ("/** " ++ Enum.name e ++ " enum values */")
   ++ [ "export const " ++ lowerFirst (Enum.name e) ++ "Schema = z.enum(["
          ++ join ", " (map quoted (Enum.values e)) ++ "]);";
        "export type " ++ Enum.name e ++ " = z.infer<typeof "
          ++ lowerFirst (Enum.name e) ++ "Schema>;";
        "" ].

Definition zodFullConstruct (schema : DatabaseSchema) (config : GenerationConfig)
           (model : Model.t) : list string :=
  commentIf (includeComments config)
     ("/** Full " ++ Model.name model ++ " schema with all fields */")
   ++ ("export const " ++ lowerFirst (Model.name model) ++ "Schema = z.object({")
   :: map (zodFieldLine schema (strictMode config)) (dataFieldsOf model)
   ++ ["});"; ""].

Definition zodCreateConstruct (schema : DatabaseSchema) (config : GenerationConfig)
           (model : Model.t) : list string :=
  commentIf (includeComments config)
     ("/** Schema for creating a new " ++ Model.name model ++ " */")
   ++ ("export const create" ++ Model.name model ++ "Schema = z.object({")
   :: map (zodFieldLine schema (strictMode config)) (createFieldsOf model)
   ++ ["});"; ""].

(** The update schema is the create schema under Zod's [partial()], which
    makes every key of an object schema optional. *)
Definition zodUpdateConstruct (config : GenerationConfig) (model : Model.t)
  : list string :=
  commentIf (includeComments config)
     ("/** Schema for updating a " ++ Model.name model ++ " (all fields optional) */")
   ++ [ "export const update" ++ Model.name model ++ "Schema = create"
          ++ Model.name model ++ "Schema.partial();";
        "" ].

Definition zodTypeAliases (model : Model.t) : list string :=
  [ "export type " ++ Model.name model ++ " = z.infer<typeof "
      ++ lowerFirst (Model.name model) ++ "Schema>;";
    "export type Create" ++ Model.name model ++ "Input = z.infer<typeof create"
      ++ Model.name model ++ "Schema>;";
    "export type Update" ++ Model.name model ++ "Input = z.infer<typeof update"
      ++ Model.name model ++ "Schema>;";
    "" ].

Definition zodModelConstructs (schema : DatabaseSchema) (config : GenerationConfig)
           (model : Model.t) : list string :=
  zodFullConstruct schema config model ++ zodCreateConstruct schema config model
   ++ zodUpdateConstruct config model ++ zodTypeAliases model.

Definition tsEnumConstruct (config : GenerationConfig) (e : Enum.t) : list string :=
  commentIf (includeComments config) ("/** " ++ Enum.name e ++ " enum */")
   ++ [ "export type " ++ Enum.name e ++ " = "
          ++ join " | " (map quoted (Enum.values e)) ++ ";";
        "" ].

Definition tsBrand (model : Model.t) : string :=
  "export type " ++ Model.name model ++ "Id = string & { __brand: "
  ++ quoted (Model.name model ++ "Id") ++ " };".

(** The lines of one property of the full interface: its doc comment, when
    comments are on and the field has a description, and the property. *)
Definition tsFullProperty (schema : DatabaseSchema) (config : GenerationConfig)
           (modelName : string) (f : Field.t) : list string :=
  match Field.description f with
   | Some d => commentIf (includeComments config && truthy d) ("  /** " ++ d ++ " */")
   | None => []
   end ++ [tsFieldLine schema modelName f].

Definition tsFullConstruct (schema : DatabaseSchema) (config : GenerationConfig)
           (model : Model.t) : list string :=
  commentIf (includeComments config) ("/** Full " ++ Model.name model ++ " entity */")
   ++ ("export interface " ++ Model.name model ++ " {")
   :: flat_map (tsFullProperty schema config (Model.name model)) (dataFieldsOf model)
   ++ ["}"; ""].

Definition tsCreateConstruct (schema : DatabaseSchema) (config : GenerationConfig)
           (model : Model.t) : list string :=
  commentIf (includeComments config)
     ("/** Input for creating a new " ++ Model.name model ++ " */")
   ++ ("export interface Create" ++ Model.name model ++ "Input {")
   :: map (tsFieldLine schema (Model.name model)) (createFieldsOf model)
   ++ ["}"; ""].

(** The update input is the create input under TypeScript's [Partial],
    which makes every property of a type optional. *)
Definition tsUpdateConstruct (config : GenerationConfig) (model : Model.t)
  : list string :=
  commentIf (includeComments config)
     ("/** Input for updating a " ++ Model.name model ++ " (all fields optional) */")
   ++ [ "export type Update" ++ Model.name model ++ "Input = Partial<Create"
          ++ Model.name model ++ "Input>;";
        "" ].

Definition tsRelationLine (f : Field.t) : string :=
  match Field.relation f with
  | Some rel =>
      if Field.isList f then "  " ++ Field.name f ++ ": " ++ Relation.model rel ++ "[];"
      else "  " ++ Field.name f ++ optionalMark f ++ ": " ++ Relation.model rel ++ ";"
  | None => EmptyString
  end.

Definition relationFieldsOf (model : Model.t) : list Field.t :=
  filter (fun f => isRelation (Field.type f) && isSome (Field.relation f))
         (Model.fields model).

Definition tsRelationsConstruct (config : GenerationConfig) (model : Model.t)
  : list string :=
  match relationFieldsOf model with
  | [] => []
  | fs =>
      commentIf (includeComments config)
         ("/** " ++ Model.name model ++ " with all relations loaded */")
       ++ ("export interface " ++ Model.name model ++ "WithRelations extends "
           ++ Model.name model ++ " {")
       :: map tsRelationLine fs ++ ["}"; ""]
  end.

(** [block] occurs in [lines] as a run of consecutive lines. *)
Definition rendersBlock (lines block : list string) : Prop :=
  exists before after_, lines = (before ++ block ++ after_)%list.

Definition zodImportLine : string := "import { z } from " ++ quoted "zod" ++ ";".

(** The first top-level enum whose values are exactly [vs]. *)
Definition topEnumFor (schema : DatabaseSchema) (vs : list string) : option Enum.t :=
  find (fun e => sameValues (Enum.values e) vs) (enums schema).

(** *** The generated text, written out *)

(** A value between double quotes. *)
Definition inQuotes (v : string) : string :=
  String dquote (v ++ String dquote EmptyString).

(** A name with its first letter in lower case. *)
Definition lowerInitial (name : string) : string :=
  match name with
  | String c others => String (charToLower c) others
  | EmptyString => EmptyString
  end.

(** One key of a Zod object schema: two blanks, the name of the field, a
    colon, the validator, a comma. *)
Definition zodProperty (name validator : string) : string :=
  "  " ++ name ++ ": " ++ validator ++ ",".

(** One property of a TypeScript interface: two blanks, the name of the
    field, a question mark when the property is optional, a colon, the
    type, a semicolon. *)
Definition tsProperty (name : string) (optional : bool) (type : string) : string :=
  "  " ++ name ++ (if optional then "?" else "") ++ ": " ++ type ++ ";".

(** The TypeScript types the generator deals in: a type known by its name,
    a union of string literals, and an array. *)
Inductive TsType : Type :=
| TsName (name : string)
| TsUnion (literals : list string)
| TsArray (element : TsType).

(** The array suffix binds tighter than the union bar, so that the array
    of a union of two or more literals is written with parentheses. *)
Definition needsParens (t : TsType) : bool :=
  match t with
  | TsUnion (_ :: _ :: _) => true
  | _ => false
  end.

Fixpoint printTs (t : TsType) : string :=
  match t with
  | TsName name => name
  | TsUnion literals => join " | " (map inQuotes literals)
  | TsArray element =>
      (if needsParens element then "(" ++ printTs element ++ ")"
       else printTs element) ++ "[]"
  end.

(** The fixed table from field types to TypeScript types, in the words of
    the specification. *)
Definition tsTableType (schema : DatabaseSchema) (f : Field.t) : TsType :=
  match Field.type f with
  | TString => TsName "string"
  | TNumber => TsName "number"
  | TBoolean => TsName "boolean"
  | TDate | TDatetime => TsName "Date"
  | TEnum =>
      match Field.enumValues f with
      | Some vs =>
          match topEnumFor schema vs with
          | Some e => TsName (Enum.name e)
          | None =>
              match vs with
              | [] => TsName "string"
              | _ => TsUnion vs
              end
          end
      | None => TsName "string"
      end
  | TJson => TsName "Record<string, unknown>"
  | _ => TsName "string"
  end.

(** A list field is an array of its base type. *)
Definition tsListOf (f : Field.t) (base : TsType) : TsType :=
  if Field.isList f then TsArray base else base.

(** The type of a field when every field goes through the table: the
    reading of the specification's sentence that makes no exception. *)
Definition tsTypeByTable (schema : DatabaseSchema) (f : Field.t) : TsType :=
  tsListOf f (tsTableType schema f).

(** The base type of a field: the branded id type of the model for its id,
    the table entry for any other field. *)
Definition tsBaseOf (schema : DatabaseSchema) (modelName : string) (f : Field.t)
  : TsType :=
  if Field.isId f then TsName (modelName ++ "Id") else tsTableType schema f.

Definition tsTypeOf (schema : DatabaseSchema) (modelName : string) (f : Field.t)
  : TsType :=
  tsListOf f (tsBaseOf schema modelName f).

(** A list field whose base type is an inline union of two or more
    literals. *)
Definition unionList (schema : DatabaseSchema) (modelName : string) (f : Field.t)
  : bool :=
  Field.isList f && needsParens (tsBaseOf schema modelName f).

(** The type texts [typeOf] are those of the specification for every field
    that is no list of an inline union. *)
Definition typesAsSpecified (schema : DatabaseSchema) (modelName : string)
           (typeOf : Field.t -> string) (fields : list Field.t) : Prop :=
  Forall (fun f =>
            unionList schema modelName f = false ->
            typeOf f = printTs (tsTypeOf schema modelName f))
         fields.

(** The doc comment of a property: the description of the field, when
    comments are on. *)
Definition tsDocComment (config : GenerationConfig) (f : Field.t) : list string :=
  match Field.description f with
  | Some d => commentIf (includeComments config && truthy d) ("  /** " ++ d ++ " */")
  | None => []
  end.

(** The full interface of a model: one property for every non-relation
    field, in order, optional when the field is not required, with the
    given type texts. *)
Definition tsFullInterface (config : GenerationConfig) (model : Model.t)
           (typeOf : Field.t -> string) : list string :=
  commentIf (includeComments config) ("/** Full " ++ Model.name model ++ " entity */")
  ++ ("export interface " ++ Model.name model ++ " {")
  :: flat_map (fun f =>
                 (tsDocComment config f
                  ++ [tsProperty (Field.name f) (negb (Field.isRequired f)) (typeOf f)])%list)
              (dataFieldsOf model)
  ++ ["}"; ""].

(** The create input of a model: one property for every create-input
    field, in order. *)
Definition tsCreateInput (config : GenerationConfig) (model : Model.t)
           (typeOf : Field.t -> string) : list string :=
  commentIf (includeComments config)
     ("/** Input for creating a new " ++ Model.name model ++ " */")
  ++ ("export interface Create" ++ Model.name model ++ "Input {")
  :: map (fun f => tsProperty (Field.name f) (negb (Field.isRequired f)) (typeOf f))
         (createFieldsOf model)
  ++ ["}"; ""].

(** The update input: the create input under TypeScript's [Partial], which
    makes every property of a type optional. *)
Definition tsUpdateInput (config : GenerationConfig) (model : Model.t)
  : list string :=
  commentIf (includeComments config)
     ("/** Input for updating a " ++ Model.name model ++ " (all fields optional) */")
  ++ [ "export type Update" ++ Model.name model ++ "Input = Partial<Create"
         ++ Model.name model ++ "Input>;";
       "" ].

Definition defaultConfig : GenerationConfig :=
  {| formLibrary := ReactHookForm; ormStyle := Prisma; apiStyle := Trpc;
     includeComments := true; strictMode := true |}.

Definition plainField (name : string) (type : FieldType) : Field.t :=
  {| Field.name := name; Field.type := type; Field.isRequired := true;
     Field.isUnique := false; Field.isId := false; Field.isList := false;
     Field.default := None; Field.enumValues := None; Field.relation := None;
     Field.description := None |}.

Definition idField (name : string) (type : FieldType) : Field.t :=
  {| Field.name := name; Field.type := type; Field.isRequired := true;
     Field.isUnique := false; Field.isId := true; Field.isList := false;
     Field.default := None; Field.enumValues := None; Field.relation := None;
     Field.description := None |}.

Definition enumField (name : string) (vs : list string) : Field.t :=
  {| Field.name := name; Field.type := TEnum; Field.isRequired := true;
     Field.isUnique := false; Field.isId := false; Field.isList := false;
     Field.default := None; Field.enumValues := Some vs; Field.relation := None;
     Field.description := None |}.

(** A user with a string id, a name and a role drawn from a top-level
    enum. *)
Definition userSchema : DatabaseSchema :=
  {| models :=
       [ {| Model.name := "User";
            Model.fields := [ idField "id" TString; plainField "name" TString;
                              enumField "role" ["ADMIN"; "EDITOR"; "AUTHOR"];
                              plainField "createdAt" TDatetime ];
            Model.description := None |} ];
     enums := [ {| Enum.name := "Role"; Enum.values := ["ADMIN"; "EDITOR"; "AUTHOR"] |} ] |}.

(** The list and optional wrappers the Zod generator puts around a base
    validator. *)
Definition zodWrapped (f : Field.t) (base : string) : string :=
  let base := if Field.isList f then "z.array(" ++ base ++ ")" else base in
  if Field.isRequired f then base else base ++ ".optional()".

(** The base validator of a string field, in the words of the
    specification. *)
Definition zodStringBase (strict : bool) (f : Field.t) : string :=
  if strict && Field.isRequired f then "z.string().min(1)" else "z.string()".

Definition laxConfig : GenerationConfig :=
  {| formLibrary := ReactHookForm; ormStyle := Prisma; apiStyle := Trpc;
     includeComments := true; strictMode := false |}.

(** The named construct each generator emits for a top-level enum. *)
Definition zodEnumDeclaration (e : Enum.t) : string :=
  "export const " ++ lowerInitial (Enum.name e) ++ "Schema = z.enum(["
  ++ join ", " (map inQuotes (Enum.values e)) ++ "]);".

Definition tsEnumDeclaration (e : Enum.t) : string :=
  "export type " ++ Enum.name e ++ " = "
  ++ join " | " (map inQuotes (Enum.values e)) ++ ";".

(** The validator of an enum field, in the words of the specification: the
    validator of the top-level enum with exactly these values, by name;
    else an inline enumeration of the values; else the plain string. *)
Definition zodEnumValidator (schema : DatabaseSchema) (values : option (list string))
  : string :=
  match values with
  | Some vs =>
      match topEnumFor schema vs with
      | Some e => lowerInitial (Enum.name e) ++ "Schema"
      | None =>
          match vs with
          | [] => "z.string()"
          | _ => "z.enum([" ++ join ", " (map inQuotes vs) ++ "])"
          end
      end
  | None => "z.string()"
  end.

(** The table from field types to base validators. *)
Definition zodTableBase (schema : DatabaseSchema) (strict : bool) (f : Field.t)
  : string :=
  if Field.isId f then "z.string().uuid()"
  else
    match Field.type f with
    | TString => zodStringBase strict f
    | TNumber => "z.number()"
    | TBoolean => "z.boolean()"
    | TDate | TDatetime => "z.coerce.date()"
    | TEnum => zodEnumValidator schema (Field.enumValues f)
    | TJson => "z.record(z.unknown())"
    | _ => "z.string()"
    end.

Definition zodValidator (schema : DatabaseSchema) (strict : bool) (f : Field.t)
  : string :=
  zodWrapped f (zodTableBase schema strict f).

(** The create schema of a model: one key for every create-input field, in
    order. *)
Definition zodCreateSchema (schema : DatabaseSchema) (config : GenerationConfig)
           (model : Model.t) : list string :=
  commentIf (includeComments config)
     ("/** Schema for creating a new " ++ Model.name model ++ " */")
  ++ ("export const create" ++ Model.name model ++ "Schema = z.object({")
  :: map (fun f => zodProperty (Field.name f)
                     (zodValidator schema (strictMode config) f))
         (createFieldsOf model)
  ++ ["});"; ""].

(** The update schema: the create schema under Zod's [partial()], which
    makes every key of an object schema optional. *)
Definition zodUpdateSchema (config : GenerationConfig) (model : Model.t)
  : list string :=
  commentIf (includeComments config)
     ("/** Schema for updating a " ++ Model.name model ++ " (all fields optional) */")
  ++ [ "export const update" ++ Model.name model ++ "Schema = create"
         ++ Model.name model ++ "Schema.partial();";
       "" ].

(** The full interface of every model, with every non-relation field
    mapped through the table and every list field an array of its base
    type: the reading of the specification's sentence that makes no
    exception. *)
Definition fullInterfacesByTable (schema : DatabaseSchema)
           (config : GenerationConfig) : Prop :=
  exists lines,
    tsLines schema config = Ok lines
    /\ Forall (fun model =>
                 rendersBlock lines
                   (tsFullInterface config model
                      (fun f => printTs (tsTypeByTable schema f))))
              (models schema).

(** A post with a list of labels that belong to no top-level enum. *)
Definition labelsField : Field.t :=
  {| Field.name := "labels"; Field.type := TEnum; Field.isRequired := true;
     Field.isUnique := false; Field.isId := false; Field.isList := true;
     Field.default := None; Field.enumValues := Some ["DRAFT"; "LIVE"];
     Field.relation := None; Field.description := None |}.

Definition postSchema : DatabaseSchema :=
  {| models := [ {| Model.name := "Post"; Model.fields := [labelsField];
                    Model.description := None |} ];
     enums := [] |}.

Fixpoint allChars (p : ascii -> bool) (s : string) : bool :=
  match s with
  | EmptyString => true
  | String c s' => p c && allChars p s'
  end.

(** The next character of [s] satisfies [p]. *)
Definition headIs (p : ascii -> bool) (s : string) : bool :=
  match s with
  | String c _ => p c
  | EmptyString => false
  end.

(** A non-empty run of word characters, and a non-empty run of blanks. *)
Definition isWordToken (s : string) : bool := negb (isEmpty s) && allChars isWord s.
Definition isBlank (s : string) : bool := negb (isEmpty s) && allChars isSpace s.

(** *** Vocabulary of the further properties *)

(** The string holds none of the characters that [toPascalCase] splits
    at: underscore, hyphen, white space. *)
Definition noSeparators (s : string) : bool :=
  allChars (fun c => negb (wordSeparator c)) s.

(** The string holds no parenthesis. *)
Definition noParens (s : string) : bool :=
  negb (occurs "(" s) && negb (occurs ")" s).

(** How the SQL parser fills in a relation: the attribute is there exactly
    for type [relation], always [one-to-one], with the field's own name as
    foreign key. *)
Definition sqlRelationShape (f : Field.t) : Prop :=
  match Field.relation f with
  | Some rel =>
      Field.type f = TRelation /\ Relation.type rel = OneToOne
      /\ Relation.foreignKey rel = Some (Field.name f)
      /\ noSeparators (Relation.model rel) = true
  | None => Field.type f <> TRelation
  end.

(** Flags and default of a parsed field: an id is required, and a default
    is never the empty string. *)
Definition sqlFlagsShape (f : Field.t) : Prop :=
  implb (Field.isId f) (Field.isRequired f) = true
  /\ Field.default f <> Some EmptyString
  /\ Field.description f = None
  /\ noSeparators (Field.name f) = true.

(** A line the Prisma loop passes over: blank, a comment, or a block
    attribute. *)
Definition skippedLine (l : string) : bool :=
  isEmpty (trim l) || startsWith (trim l) "//" || startsWith (trim l) "@@".

(** A line between the header of a block and its closing brace: it opens
    no block and is no closing brace.  It may be blank, a comment or a
    block attribute. *)
Definition innerLine (l : string) : bool :=
  let t := trim l in
  negb (isSome (jsMatch false modelStart t))
  && negb (isSome (jsMatch false enumStart t))
  && negb (String.eqb t "}").

(** The line closes the open block. *)
Definition closingLine (l : string) : bool := String.eqb (trim l) "}".

(** What can be said of a value of a parsed Prisma enum. *)
Definition cleanEnumValue (v : string) : Prop :=
  isEmpty v = false /\ trim v = v
  /\ startsWith v "//" = false /\ startsWith v "@@" = false /\ v <> "}".

(** The stored line of an open block. *)
Definition storedLine (l : string) : Prop :=
  (exists raw, l = trim raw) /\ isEmpty l = false
  /\ startsWith l "//" = false /\ startsWith l "@@" = false /\ l <> "}".

(** The enum part of the IR invariant, as the Prisma parser keeps it: a
    field has type [enum] exactly when it carries enum values, and these
    are the values of a top-level enum of the same schema. *)
Definition enumValuesDeclared (known : list Enum.t) (f : Field.t) : Prop :=
  (Field.type f = TEnum <-> Field.enumValues f <> None)
  /\ Field.default f <> Some EmptyString
  /\ Field.description f = None
  /\ match Field.enumValues f with
     | Some vs => exists e, In e known /\ Enum.values e = vs
     | None => True
     end.

(** An enum-typed field that is no id is rendered by both generators as
    the name of a top-level enum of the schema. *)
Definition rendersEnumByName (schema : DatabaseSchema) (f : Field.t) : Prop :=
  Field.type f = TEnum -> Field.isId f = false ->
  exists e,
    In e (enums schema)
    /\ Some (Enum.values e) = Field.enumValues f
    /\ (forall strict, zodBaseType f schema strict = lowerFirst (Enum.name e) ++ "Schema")
    /\ (forall modelName, tsBaseType f modelName schema = Enum.name e).

(** The configuration with the comment switch set. *)
Definition withComments (b : bool) (config : GenerationConfig) : GenerationConfig :=
  {| formLibrary := formLibrary config; ormStyle := ormStyle config;
     apiStyle := apiStyle config; includeComments := b;
     strictMode := strictMode config |}.

(** The line is no top-level doc comment. *)
Definition notDocComment (l : string) : bool := negb (startsWith l "/**").

(** The four keywords that open a block for [detectFormat]. *)
Definition blockKeywords : list string := ["model"; "datasource"; "generator"; "enum"].

(** *** Vocabulary of the rate limiter's properties *)

(** The timestamps stored for a client. *)
Definition timestampsOf (ip : string) (store : Store) : list Z :=
  match mapGet ip store with
  | Some ts => ts
  | None => []
  end.

(** [t] lies in the window that ends at [now]. *)
Definition inWindow (now t : Z) : bool := (now - t <? WINDOW_MS)%Z.

(** The requests [(ip, now)] served one after the other: for each request
    whether it was let through. *)
Fixpoint serve (store : Store) (reqs : list (string * Z))
  : list (string * Z * bool) :=
  match reqs with
  | [] => []
  | (ip, now) :: reqs' =>
      let '(rejection, store') := rateLimit store ip now in
      (ip, now, negb (isSome rejection)) :: serve store' reqs'
  end.

(** The times at which a client was let through, in order. *)
Definition allowedOf (ip : string) (log : list (string * Z * bool)) : list Z :=
  map (fun e => snd (fst e))
      (filter (fun e => snd e && String.eqb (fst (fst e)) ip) log).

(** The clock does not go backwards between the requests. *)
Definition monotoneClock (reqs : list (string * Z)) : Prop :=
  Sorted Z.le (map snd reqs).

(** [t] lies in the window of length [WINDOW_MS] that ends at [now]. *)
Definition inLastMinute (now t : Z) : bool :=
  inWindow now t && (t <=? now)%Z.

(** The keys of a store are distinct, as in a [Map]. *)
Definition distinctKeys (store : Store) : Prop := NoDup (map fst store).

(** Twenty-five requests of one client, one millisecond apart. *)
Definition burst : list (string * Z) :=
  map (fun n => ("10.0.0.1", Z.of_nat n)) (seq 0 25).

(** Twenty requests of one client, one millisecond apart. *)
Definition busyStore : Store :=
  [("10.0.0.1", map Z.of_nat (seq 0 20))].

(** *** Statements that create an enum type *)







(** The pieces of a statement [CREATE TYPE name AS ENUM (item, item)]: the
    four keywords as they are written, the white space between the words,
    the name of the type and the items between the commas. *)
Module Statement.
Record t : Type := mk {
  create : string;
  gap1 : string;
  type : string;
  gap2 : string;
  name : string;
  gap3 : string;
  as_ : string;
  gap4 : string;
  enum : string;
  gap5 : string;
  items : list string
}.
End Statement.

Definition statementText (s : Statement.t) : string :=
  Statement.create s ++ Statement.gap1 s ++ Statement.type s ++ Statement.gap2 s
  ++ Statement.name s ++ Statement.gap3 s ++ Statement.as_ s ++ Statement.gap4 s
  ++ Statement.enum s ++ Statement.gap5 s
  ++ "(" ++ join "," (Statement.items s) ++ ")".




(** A document: statements that create enum types, each after some other
    text, and the text after the last of them. *)
Fixpoint documentText (parts : list (string * Statement.t)) (tail : string)
  : string :=
  match parts with
  | [] => tail
  | (text, s) :: parts' => text ++ statementText s ++ documentText parts' tail
  end.



(** *** The sentence on enum types, read as SQL *)











Definition moodStatement : Statement.t :=
  {| Statement.create := "CREATE"; Statement.gap1 := " ";
     Statement.type := "TYPE"; Statement.gap2 := " ";
     Statement.name := "mood"; Statement.gap3 := " ";
     Statement.as_ := "AS"; Statement.gap4 := " ";
     Statement.enum := "ENUM"; Statement.gap5 := " ";
     Statement.items := ["'happy'"; " 'sad'"] |}.

Definition moodDocument : list (string * Statement.t) :=
  [ ("CREATE TABLE users (id SERIAL PRIMARY KEY, mood Mood NOT NULL);"
       ++ nl, moodStatement) ].

(* ====================================================================== *)
(** * Properties *)

(** ** The [result] monad and loops *)

Lemma bind_Ok {A B} (r : result A) (f : A -> result B) (b : B) :
  bind r f = Ok b -> exists a, r = Ok a /\ f a = Ok b.
Proof. destruct r; simpl; intros H; try discriminate. eauto. Qed.

Lemma forEach_app {A S} (body : S -> A -> result S) (xs ys : list A) (acc : S) :
  forEach body (xs ++ ys)%list acc = bind (forEach body xs acc) (forEach body ys).
Proof.
  revert acc. induction xs as [|x xs IH]; intros acc; simpl; [reflexivity|].
  destruct (body acc x); simpl; auto.
Qed.

(** A loop whose body cannot fail on the elements it meets finishes, and an
    invariant of the body holds of its result. *)
Lemma forEach_invariant {A S} (body : S -> A -> result S) (I : S -> Prop)
      (Q : A -> Prop) (xs : list A) :
  (forall acc x, I acc -> Q x -> exists acc', body acc x = Ok acc' /\ I acc') ->
  Forall Q xs ->
  forall acc, I acc -> exists res, forEach body xs acc = Ok res /\ I res.
Proof.
  intros Hbody HQ. induction HQ as [|x xs Hx _ IH]; intros acc Hacc; simpl.
  - eauto.
  - destruct (Hbody acc x Hacc Hx) as (acc' & -> & Hacc'). simpl. auto.
Qed.

Lemma fold_left_push_flat_map {A} (g : A -> list string)
      (body : list string -> A -> list string) :
  (forall ls x, body ls x = (ls ++ g x)%list) ->
  forall xs ls, fold_left body xs ls = (ls ++ flat_map g xs)%list.
Proof.
  intros Hb. induction xs as [|x xs IH]; intros ls; simpl.
  - now rewrite app_nil_r.
  - rewrite IH, Hb, <- app_assoc. reflexivity.
Qed.

(** ** The matcher *)

Lemma length_drop (n : nat) (s : string) :
  n <= String.length s -> String.length (drop n s) = String.length s - n.
Proof.
  revert s. induction n as [|n IH]; intros s Hn; simpl.
  - destruct s; simpl; lia.
  - destruct s as [|c s]; simpl in *; [lia|]. apply IH. lia.
Qed.

Lemma extends_refl st : extends st st.
Proof. repeat split; auto. Qed.

Lemma extends_trans a b c : extends a b -> extends b c -> extends a c.
Proof.
  intros (H1 & H2 & H3) (H4 & H5 & H6). repeat split; try lia. auto.
Qed.

Section MatcherFacts.
Variable icase : bool.

Lemma star_extends cs k : forall s p cp res,
  star icase cs k p cp s = Some res ->
  exists st', extends (MState p s cp) st' /\ caps st' = cp /\ k st' = Some res.
Proof.
  induction s as [|c s IH]; intros p cp res H; simpl in H.
  - eexists; split; [apply extends_refl|]; auto.
  - destruct (csetMatches icase cs c).
    + destruct (star icase cs k (S p) cp s) eqn:E.
      * inversion H; subst. destruct (IH _ _ _ E) as (st' & (H1 & H2 & H3) & Hc & Hk).
        exists st'. split; [|auto]. simpl in *.
        repeat split; simpl; try lia.
        intros n Hn. unfold cap in *. simpl in Hn. now rewrite Hc.
      * eexists; split; [apply extends_refl|]; auto.
    + eexists; split; [apply extends_refl|]; auto.
Qed.

Lemma rmatch_after : forall r k st res,
  rmatch icase r k st = Some res ->
  exists st', after r st st' /\ k st' = Some res.
Proof.
  induction r as [|cs| | |r1 IH1 r2 IH2|r1 IH1 r2 IH2|r1 IH1|cs|cs|g r1 IH1];
    intros k st res H; simpl in H.
  - (* Eps *)
    exists st. split; [|assumption].
    split; [apply extends_refl|]. split; simpl; intros; discriminate.
  - (* Chr *)
    destruct st as [p s cp]; simpl in *.
    destruct s as [|c s]; [discriminate|].
    destruct (csetMatches icase cs c); [|discriminate].
    eexists; split; [|exact H].
    repeat split; simpl; try lia; auto; intros; discriminate.
  - (* Bol *)
    destruct (pos st =? 0)%nat; [|discriminate].
    exists st. split; [|assumption].
    split; [apply extends_refl|]. split; simpl; intros; discriminate.
  - (* Eol *)
    destruct (isEmpty (rest st)); [|discriminate].
    exists st. split; [|assumption].
    split; [apply extends_refl|]. split; simpl; intros; discriminate.
  - (* Seq *)
    destruct (IH1 _ _ _ H) as (st1 & (E1 & D1 & C1) & H1).
    destruct (IH2 _ _ _ H1) as (st2 & (E2 & D2 & C2) & H2).
    exists st2. split; [|assumption].
    split; [eapply extends_trans; eauto|].
    split; simpl.
    + intros n Hn. apply orb_true_iff in Hn. destruct Hn as [Hn|Hn]; auto.
      destruct E2 as (_ & _ & M). auto.
    + intros Hc. apply orb_true_iff in Hc.
      destruct E1 as (_ & P1 & _), E2 as (_ & P2 & _).
      destruct Hc as [Hc|Hc]; [specialize (C1 Hc)|specialize (C2 Hc)]; lia.
  - (* Alt *)
    destruct (rmatch icase r1 k st) eqn:E.
    + inversion H; subst.
      destruct (IH1 _ _ _ E) as (st1 & (E1 & D1 & C1) & H1).
      exists st1. split; [|assumption]. split; [assumption|].
      split; simpl; [intros n X|intros X]; apply andb_true_iff in X; destruct X; auto.
    + destruct (IH2 _ _ _ H) as (st1 & (E1 & D1 & C1) & H1).
      exists st1. split; [|assumption]. split; [assumption|].
      split; simpl; [intros n X|intros X]; apply andb_true_iff in X; destruct X; auto.
  - (* Opt *)
    match type of H with
    | match ?m with _ => _ end = _ => destruct m eqn:E
    end.
    + inversion H; subst.
      destruct (IH1 _ _ _ E) as (st1 & (E1 & _ & _) & H1).
      destruct (pos st1 =? pos st)%nat; [discriminate|].
      exists st1. split; [|assumption]. split; [assumption|].
      split; simpl; intros; discriminate.
    + exists st. split; [|assumption].
      split; [apply extends_refl|]. split; simpl; intros; discriminate.
  - (* Star *)
    destruct (star_extends _ _ _ _ _ _ H) as (st' & E' & _ & Hk).
    exists st'. split; [|assumption].
    destruct st as [p s cp]. split; [assumption|].
    split; simpl; intros; discriminate.
  - (* Plus *)
    destruct st as [p s cp]; simpl in *.
    destruct s as [|c s]; [discriminate|].
    destruct (csetMatches icase cs c); [|discriminate].
    destruct (star_extends _ _ _ _ _ _ H) as (st' & (L & P & M) & _ & Hk).
    exists st'. split; [|assumption]. simpl in *.
    split; [repeat split; simpl; try lia; auto|].
    split; simpl; [intros; discriminate|intros; lia].
  - (* Group *)
    destruct (IH1 _ _ _ H) as (st1 & ((L & P & M) & D1 & C1) & H1).
    eexists. split; [|exact H1].
    assert (X : forall n, cap st1 n <> None ->
              cap (MState (pos st1) (rest st1)
                     ((g, substring 0 (pos st1 - pos st) (rest st)) :: caps st1)) n
              <> None).
    { intros n Hn. unfold cap in *. simpl. destruct (Nat.eqb g n); auto; discriminate. }
    split; [repeat split; simpl; auto|].
    split; simpl; [|exact C1].
    intros n Hn. apply orb_true_iff in Hn. destruct Hn as [Hn|Hn]; [|auto].
    unfold cap; simpl. rewrite Hn. discriminate.
Qed.

Lemma matchAt_after r p s st :
  matchAt icase r p s = Some st -> after r (MState p s []) st.
Proof.
  unfold matchAt. intros H.
  destruct (rmatch_after _ _ _ _ H) as (st' & A & E). now inversion E; subst.
Qed.

(** A successful search defines the mandatory groups, ends inside the
    input and, for a consuming pattern, beyond its starting index. *)
Lemma searchFrom_facts r : forall s p st,
  searchFrom icase r p s = Some st ->
  (forall n, defines n r = true -> cap st n <> None)
  /\ pos st <= p + String.length s
  /\ (consumes r = true -> p < pos st).
Proof.
  induction s as [|c s IH]; intros p st H; simpl in H.
  - destruct (matchAt icase r p "") eqn:E; [|discriminate].
    inversion H; subst.
    destruct (matchAt_after _ _ _ _ E) as ((L & P & _) & D & C); simpl in *.
    repeat split; auto; lia.
  - destruct (matchAt icase r p (String c s)) eqn:E.
    + inversion H; subst.
      destruct (matchAt_after _ _ _ _ E) as ((L & P & _) & D & C); simpl in *.
      repeat split; auto; lia.
    + destruct (IH _ _ H) as (D & P & C). simpl.
      repeat split; auto; try lia. intros X. specialize (C X). lia.
Qed.

Lemma jsMatch_capStr r s m n :
  jsMatch icase r s = Some m -> defines n r = true ->
  exists v, capStr m n = Ok v /\ cap m n = Some v.
Proof.
  intros H Hn. apply searchFrom_facts in H. destruct H as (D & _).
  specialize (D n Hn). unfold capStr. destruct (cap m n); [eauto|congruence].
Qed.

Lemma exec_facts r input i m :
  exec icase r input i = Some m ->
  (forall n, defines n r = true -> exists v, capStr m n = Ok v /\ cap m n = Some v)
  /\ pos m <= String.length input
  /\ (consumes r = true -> i < pos m).
Proof.
  unfold exec. destruct (String.length input <? i)%nat eqn:E; [discriminate|].
  apply Nat.ltb_ge in E. intros H.
  apply searchFrom_facts in H. destruct H as (D & P & C).
  rewrite length_drop in P by assumption.
  repeat split; auto; try lia.
  intros n Hn. specialize (D n Hn). unfold capStr.
  destruct (cap m n); [eauto|congruence].
Qed.

(** The [exec] loop of a consuming pattern finishes within
    [length input + 1 - lastIndex] iterations when its body does not
    fail, and an invariant of the body holds of the result. *)
Lemma execLoop_invariant {S} r input (body : S -> mstate -> result S)
      (I : S -> Prop) :
  consumes r = true ->
  (forall acc i m, I acc -> exec icase r input i = Some m ->
                   exists acc', body acc m = Ok acc' /\ I acc') ->
  forall fuel i acc,
    String.length input + 1 - i <= fuel -> 0 < fuel -> I acc ->
    exists res, execLoop icase fuel r input body i acc = Ok res /\ I res.
Proof.
  intros Hc Hbody. induction fuel as [|fuel IH]; intros i acc Hf Hpos Hacc; [lia|].
  simpl. destruct (exec icase r input i) as [m|] eqn:E; [|eauto].
  destruct (Hbody _ _ _ Hacc E) as (acc' & -> & Hacc'). simpl.
  destruct (exec_facts _ _ _ _ E) as (_ & P & C). specialize (C Hc).
  destruct fuel as [|fuel'].
  - exfalso. lia.
  - apply IH; auto; lia.
Qed.

End MatcherFacts.

(** ** The Prisma parser: what one field line yields *)

Lemma isRelation_true t : isRelation t = true <-> t = TRelation.
Proof. destruct t; simpl; split; intros; congruence. Qed.

Lemma isRelation_false t : isRelation t = false <-> t <> TRelation.
Proof. destruct t; simpl; split; intros; congruence. Qed.

Lemma parsePrismaField_unmatched line known :
  jsMatch false fieldPattern line = None ->
  parsePrismaField line known = Ok None.
Proof. unfold parsePrismaField. now intros ->. Qed.

Lemma parsePrismaField_matched line known m :
  jsMatch false fieldPattern line = Some m ->
  exists name rawType f,
    cap m 1 = Some name /\ cap m 2 = Some rawType /\
    parsePrismaField line known = Ok (Some f) /\
    Field.name f = name /\
    Field.isList f = isSome (cap m 3) /\
    Field.type f = mapPrismaType rawType (isSome (prismaEnumDef rawType known)) /\
    Field.enumValues f = option_map Enum.values (prismaEnumDef rawType known) /\
    (Field.type f = TRelation ->
     exists fk, Field.relation f =
                Some {| Relation.model := rawType;
                        Relation.type := if isSome (cap m 3) then OneToMany else OneToOne;
                        Relation.foreignKey := fk |}) /\
    (Field.type f <> TRelation -> Field.relation f = None).
Proof.
  intros E.
  destruct (jsMatch_capStr _ _ _ _ 1 E eq_refl) as (name & Hn & Cn).
  destruct (jsMatch_capStr _ _ _ _ 2 E eq_refl) as (rawType & Hr & Cr).
  exists name, rawType. unfold parsePrismaField. rewrite E, Hn, Hr. simpl.
  fold (prismaEnumDef rawType known).
  destruct (isRelation (mapPrismaType rawType (isSome (prismaEnumDef rawType known)))) eqn:R.
  - assert (F : exists fk,
       match jsMatch false relationPattern line with
       | Some relationMatch =>
           inner <- capStr relationMatch 1 ;;
           match jsMatch false fkPattern inner with
           | Some fkMatch => Ok (cap fkMatch 1)
           | None => Ok None
           end
       | None => Ok None
       end = Ok fk).
    { destruct (jsMatch false relationPattern line) as [rm|] eqn:ER; [|eauto].
      destruct (jsMatch_capStr _ _ _ _ 1 ER eq_refl) as (inner & -> & _). simpl.
      destruct (jsMatch false fkPattern inner); eauto. }
    destruct F as (fk & ->). simpl.
    eexists. repeat split; simpl; auto.
    + intros _. eauto.
    + apply isRelation_true in R. congruence.
  - eexists. repeat split; simpl; auto.
    apply isRelation_false in R. congruence.
Qed.

Lemma parsePrismaField_total line known :
  exists o, parsePrismaField line known = Ok o.
Proof.
  destruct (jsMatch false fieldPattern line) as [m|] eqn:E.
  - destruct (parsePrismaField_matched line known m E)
      as (? & ? & f & _ & _ & H & _). eauto.
  - rewrite (parsePrismaField_unmatched _ _ E). eauto.
Qed.

Lemma parseModelFields_flat_map lines known :
  parseModelFields lines known = Ok (flat_map (fieldOfLine known) lines).
Proof.
  unfold parseModelFields.
  enough (G : forall acc,
    forEach (fun fields line =>
               field <- parsePrismaField line known ;;
               Ok match field with
                  | Some f => (fields ++ [f])%list
                  | None => fields
                  end) lines acc
    = Ok (acc ++ flat_map (fieldOfLine known) lines)%list) by apply (G []).
  induction lines as [|l lines IH]; intros acc; simpl.
  - now rewrite app_nil_r.
  - unfold fieldOfLine at 1.
    destruct (parsePrismaField_total l known) as (o & ->). simpl.
    rewrite IH. destruct o; simpl; [rewrite <- app_assoc|]; reflexivity.
Qed.

(** ** The Prisma parser: the line loop *)

Lemma fieldOfLine_from known lines :
  Forall (fun f => exists line known', parsePrismaField line known' = Ok (Some f))
         (flat_map (fieldOfLine known) lines).
Proof.
  apply Forall_forall. intros f Hf. apply in_flat_map in Hf.
  destruct Hf as (l & _ & Hf). unfold fieldOfLine in Hf.
  destruct (parsePrismaField l known) as [[f'|]| |] eqn:E; simpl in Hf;
    try contradiction.
  destruct Hf as [<-|[]]. eauto.
Qed.

Lemma prismaStep_total st line :
  prismaFieldsFrom (pmodels st) ->
  exists st', prismaStep st line = Ok st' /\ prismaFieldsFrom (pmodels st').
Proof.
  intros I. unfold prismaStep.
  destruct (jsMatch false modelStart (trim line)) as [m|] eqn:EM.
  { destruct (jsMatch_capStr _ _ _ _ 1 EM eq_refl) as (v & -> & _). simpl. eauto. }
  destruct (jsMatch false enumStart (trim line)) as [m|] eqn:EE.
  { destruct (jsMatch_capStr _ _ _ _ 1 EE eq_refl) as (v & -> & _). simpl. eauto. }
  destruct (String.eqb (trim line) "}"), (currentBlock st) as [b|];
    try solve [eexists; split; [reflexivity|exact I]].
  - destruct (btype b).
    + rewrite parseModelFields_flat_map. simpl. eexists; split; [reflexivity|].
      simpl. apply Forall_app. split; [exact I|].
      constructor; [|constructor]. simpl. apply fieldOfLine_from.
    + eexists; split; [reflexivity|exact I].
  - destruct (truthy (trim line) && negb (startsWith (trim line) "//")
              && negb (startsWith (trim line) "@@"));
      eexists; split; try reflexivity; exact I.
Qed.

Lemma prismaLoop_total lines : forall st,
  prismaFieldsFrom (pmodels st) ->
  exists st', forEach prismaStep lines st = Ok st' /\ prismaFieldsFrom (pmodels st').
Proof.
  intros st I.
  apply (forEach_invariant prismaStep (fun s => prismaFieldsFrom (pmodels s))
           (fun _ => True)); auto.
  - intros acc x Hacc _. now apply prismaStep_total.
  - apply Forall_forall. auto.
Qed.

Lemma parsePrismaSchema_total input :
  exists d, parsePrismaSchema input = Ok d /\ prismaFieldsFrom (models d).
Proof.
  unfold parsePrismaSchema.
  destruct (prismaLoop_total (split newline input) prismaInit) as (st & -> & I).
  - constructor.
  - simpl. eauto.
Qed.

(** ** The SQL parser: what one column definition yields *)

Lemma parseSqlColumn_unmatched def known :
  jsMatch true columnPattern def = None ->
  parseSqlColumn def known = Ok None.
Proof. unfold parseSqlColumn. now intros ->. Qed.

Lemma parseSqlColumn_matched def known m :
  jsMatch true columnPattern def = Some m ->
  exists name rawType rest f,
    cap m 1 = Some name /\ cap m 2 = Some rawType /\ cap m 4 = Some rest /\
    parseSqlColumn def known = Ok (Some f) /\
    Field.name f = toCamelCase name /\
    Field.isList f = false /\
    Field.enumValues f = option_map Enum.values (sqlEnumDef rawType known) /\
    match jsMatch true referencesPattern rest with
    | Some rm =>
        exists table, cap rm 1 = Some table /\
          Field.type f = TRelation /\
          Field.relation f =
            Some {| Relation.model := toPascalCase table;
                    Relation.type := OneToOne;
                    Relation.foreignKey := Some (toCamelCase name) |}
    | None =>
        Field.type f = (if isSome (sqlEnumDef rawType known) then TEnum
                        else mapSqlType (toUpperCase rawType))
        /\ Field.relation f = None
    end.
Proof.
  intros E.
  destruct (jsMatch_capStr _ _ _ _ 1 E eq_refl) as (name & Hn & Cn).
  destruct (jsMatch_capStr _ _ _ _ 2 E eq_refl) as (rawType & Hr & Cr).
  destruct (jsMatch_capStr _ _ _ _ 4 E eq_refl) as (rest & Hs & Cs).
  exists name, rawType, rest. unfold parseSqlColumn. rewrite E, Hn, Hr, Hs. simpl.
  fold (sqlEnumDef rawType known).
  destruct (jsMatch true referencesPattern rest) as [rm|] eqn:ER.
  - destruct (jsMatch_capStr _ _ _ _ 1 ER eq_refl) as (table & -> & Ct). simpl.
    eexists. repeat split; simpl; auto. exists table. auto.
  - eexists. repeat split; simpl; auto.
Qed.

Lemma parseSqlColumn_total def known :
  exists o, parseSqlColumn def known = Ok o.
Proof.
  destruct (jsMatch true columnPattern def) as [m|] eqn:E.
  - destruct (parseSqlColumn_matched def known m E)
      as (? & ? & ? & f & _ & _ & _ & H & _). eauto.
  - rewrite (parseSqlColumn_unmatched _ _ E). eauto.
Qed.

Lemma parseSqlColumns_flat_map body known :
  parseSqlColumns body known = Ok (flat_map (columnOfDef known) (splitColumns body)).
Proof.
  unfold parseSqlColumns. generalize (splitColumns body) as defs.
  enough (G : forall defs acc,
    forEach (fun fields def =>
               let trimmed := trim def in
               if test true constraintPattern trimmed then Ok fields
               else
                 field <- parseSqlColumn trimmed known ;;
                 Ok match field with
                    | Some f => (fields ++ [f])%list
                    | None => fields
                    end) defs acc
    = Ok (acc ++ flat_map (columnOfDef known) defs)%list)
    by (intros defs; apply (G defs [])).
  induction defs as [|d defs IH]; intros acc; simpl.
  - now rewrite app_nil_r.
  - unfold columnOfDef at 1.
    destruct (test true constraintPattern (trim d)).
    + apply IH.
    + destruct (parseSqlColumn_total (trim d) known) as (o & ->). simpl.
      rewrite IH. destruct o; simpl; [rewrite <- app_assoc|]; reflexivity.
Qed.

(** ** The SQL parser: the two statement loops *)

Lemma execAll_from icase r input : forall fuel i m,
  In m (execAll icase fuel r input i) ->
  exists j, exec icase r input j = Some m.
Proof.
  induction fuel as [|fuel IH]; intros i m H; simpl in H; [contradiction|].
  destruct (exec icase r input i) as [m'|] eqn:E; [|contradiction].
  destruct H as [<-|H]; eauto.
Qed.

(** With enough fuel the loop is the iteration of its body over the
    successive matches. *)
Lemma execLoop_execAll {S} icase r input (body : S -> mstate -> result S) :
  consumes r = true ->
  forall fuel i acc,
    String.length input + 1 - i <= fuel -> 0 < fuel ->
    execLoop icase fuel r input body i acc
    = forEach body (execAll icase fuel r input i) acc.
Proof.
  intros Hc. induction fuel as [|fuel IH]; intros i acc Hf Hpos; [lia|].
  simpl. destruct (exec icase r input i) as [m|] eqn:E; [|reflexivity].
  simpl. destruct (body acc m) as [acc'| |]; simpl; try reflexivity.
  destruct (exec_facts _ _ _ _ _ E) as (_ & P & C). specialize (C Hc).
  apply IH; lia.
Qed.


Lemma forEach_map {A B} (body : list B -> A -> result (list B)) (f : A -> B)
      (xs : list A) :
  Forall (fun x => forall acc, body acc x = Ok (acc ++ [f x])%list) xs ->
  forall acc, forEach body xs acc = Ok (acc ++ map f xs)%list.
Proof.
  induction 1 as [|x xs Hx _ IH]; intros acc; simpl.
  - now rewrite app_nil_r.
  - rewrite Hx. simpl. rewrite IH, <- app_assoc. reflexivity.
Qed.

Lemma capStr_capOrEmpty m n v : cap m n = Some v -> capOrEmpty m n = v.
Proof. unfold capOrEmpty. now intros ->. Qed.

Lemma sqlEnumBody_spec input i m acc :
  exec true enumRegex input i = Some m ->
  sqlEnumBody acc m = Ok (acc ++ [sqlEnumOf m])%list.
Proof.
  intros E. destruct (exec_facts _ _ _ _ _ E) as (D & _ & _).
  destruct (D 1 eq_refl) as (name & Hn & Cn).
  destruct (D 2 eq_refl) as (vs & Hv & Cv).
  unfold sqlEnumBody, sqlEnumOf. rewrite Hn, Hv. simpl.
  now rewrite (capStr_capOrEmpty _ _ _ Cn), (capStr_capOrEmpty _ _ _ Cv).
Qed.

Lemma sqlTableBody_spec input i m known acc :
  exec true tableRegex input i = Some m ->
  sqlTableBody known acc m = Ok (acc ++ [sqlModelOf known m])%list.
Proof.
  intros E. destruct (exec_facts _ _ _ _ _ E) as (D & _ & _).
  destruct (D 1 eq_refl) as (name & Hn & Cn).
  destruct (D 2 eq_refl) as (body & Hb & Cb).
  unfold sqlTableBody, sqlModelOf. rewrite Hn, Hb. simpl.
  rewrite parseSqlColumns_flat_map. simpl.
  now rewrite (capStr_capOrEmpty _ _ _ Cn), (capStr_capOrEmpty _ _ _ Cb).
Qed.

(** The parser always returns, and its result is determined by the two
    lists of matches: the enums come from all [CREATE TYPE] matches, and
    every table is parsed against that complete list. *)
Lemma parseSqlSchema_spec input :
  parseSqlSchema input =
  Ok {| models := map (sqlModelOf (map sqlEnumOf (allMatches enumRegex input)))
                      (allMatches tableRegex input);
        enums := map sqlEnumOf (allMatches enumRegex input) |}.
Proof.
  unfold parseSqlSchema, allMatches. cbv zeta.
  rewrite execLoop_execAll by (reflexivity || lia).
  rewrite (forEach_map sqlEnumBody sqlEnumOf).
  2:{ apply Forall_forall. intros m Hm acc.
      destruct (execAll_from _ _ _ _ _ _ Hm) as (j & E).
      eapply sqlEnumBody_spec; eauto. }
  cbn [bind app].
  rewrite execLoop_execAll by (reflexivity || lia).
  set (known := map sqlEnumOf _).
  rewrite (forEach_map (sqlTableBody known) (sqlModelOf known)).
  2:{ apply Forall_forall. intros m Hm acc.
      destruct (execAll_from _ _ _ _ _ _ Hm) as (j & E).
      eapply sqlTableBody_spec; eauto. }
  reflexivity.
Qed.

(** ** Lines and documents *)

Lemma split_no_sep sep s : occurs sep s = false -> split sep s = [s].
Proof.
  induction s as [|c s IH]; simpl; [reflexivity|].
  intros H. apply orb_false_iff in H. destruct H as (Hc & Hs).
  rewrite Hc, (IH Hs). reflexivity.
Qed.

Lemma split_app_sep sep s t :
  occurs sep s = false ->
  split sep (s ++ String sep t) = s :: split sep t.
Proof.
  induction s as [|c s IH]; simpl.
  - intros _. now rewrite Ascii.eqb_refl.
  - intros H. apply orb_false_iff in H. destruct H as (Hc & Hs).
    rewrite Hc, (IH Hs). reflexivity.
Qed.

(** Splitting a document at line feeds gives back the lines it was joined
    from. *)
Lemma split_join_lines l ls :
  Forall isLine (l :: ls) -> split newline (join nl (l :: ls)) = l :: ls.
Proof.
  revert l. induction ls as [|l' ls IH]; intros l H.
  - inversion H; subst. now apply split_no_sep.
  - inversion H; subst.
    change (join nl (l :: l' :: ls)) with (l ++ String newline (join nl (l' :: ls))).
    rewrite split_app_sep by assumption. now rewrite IH.
Qed.

(** ** The Prisma parser: blocks *)

Lemma prismaStep_open_model st header name :
  opensModel header name ->
  prismaStep st header =
  Ok {| pmodels := pmodels st; penums := penums st;
        currentBlock := Some {| btype := BModel; bname := name; blines := [] |} |}.
Proof.
  intros (m & E & C). unfold prismaStep, capStr. now rewrite E, C.
Qed.

Lemma prismaStep_open_enum st header name :
  opensEnum header name ->
  prismaStep st header =
  Ok {| pmodels := pmodels st; penums := penums st;
        currentBlock := Some {| btype := BEnum; bname := name; blines := [] |} |}.
Proof.
  intros (N & m & E & C). unfold prismaStep, capStr. now rewrite N, E, C.
Qed.

Lemma prismaStep_body st b l :
  currentBlock st = Some b -> bodyLine l = true ->
  prismaStep st l =
  Ok {| pmodels := pmodels st; penums := penums st;
        currentBlock := Some {| btype := btype b; bname := bname b;
                                blines := (blines b ++ [trim l])%list |} |}.
Proof.
  intros Hb H. unfold bodyLine in H. cbv zeta in H.
  repeat (apply andb_true_iff in H; destruct H as (H & ?)).
  unfold prismaStep. cbv zeta.
  destruct (jsMatch false modelStart (trim l)); [discriminate|].
  destruct (jsMatch false enumStart (trim l)); [discriminate|].
  destruct (String.eqb (trim l) "}"); [discriminate|].
  rewrite Hb.
  match goal with
  | |- (if ?c then _ else _) = _ => replace c with true; [reflexivity|]
  end.
  symmetry. repeat (apply andb_true_iff; split); assumption.
Qed.

Lemma prismaLoop_body body : forall st b,
  currentBlock st = Some b -> Forall (fun l => bodyLine l = true) body ->
  forEach prismaStep body st =
  Ok {| pmodels := pmodels st; penums := penums st;
        currentBlock := Some {| btype := btype b; bname := bname b;
                                blines := (blines b ++ map trim body)%list |} |}.
Proof.
  induction body as [|l body IH]; intros st b Hb H; simpl.
  - rewrite app_nil_r. destruct st as [ms es cb], b; simpl in *. now subst.
  - inversion H; subst.
    rewrite (prismaStep_body st b l) by assumption. simpl.
    erewrite IH; [|reflexivity|assumption]. simpl.
    now rewrite <- app_assoc.
Qed.

Lemma prismaStep_close st b l :
  currentBlock st = Some b -> trim l = "}" ->
  prismaStep st l =
  match btype b with
  | BModel =>
      Ok {| pmodels := (pmodels st ++
              [ {| Model.name := bname b;
                   Model.fields := flat_map (fieldOfLine (penums st)) (blines b);
                   Model.description := None |} ])%list;
            penums := penums st; currentBlock := None |}
  | BEnum =>
      Ok {| pmodels := pmodels st;
            penums := (penums st ++
              [ {| Enum.name := bname b;
                   Enum.values :=
                     filter (fun l => truthy l && negb (startsWith l "//"))
                            (map trim (blines b)) |} ])%list;
            currentBlock := None |}
  end.
Proof.
  intros Hb Ht. unfold prismaStep. cbv zeta. rewrite Ht, Hb.
  change (jsMatch false modelStart "}") with (@None mstate).
  change (jsMatch false enumStart "}") with (@None mstate).
  cbv iota. change (String.eqb "}" "}") with true. cbv iota.
  destruct (btype b); [|reflexivity].
  now rewrite parseModelFields_flat_map.
Qed.

(** A model block: its fields are those of its stored lines, parsed against
    the enums that are closed when the block closes. *)
Lemma prisma_model_block st header body closing name :
  opensModel header name ->
  Forall (fun l => bodyLine l = true) body ->
  trim closing = "}" ->
  forEach prismaStep (header :: body ++ [closing])%list st =
  Ok {| pmodels := (pmodels st ++
          [ {| Model.name := name;
               Model.fields := flat_map (fieldOfLine (penums st)) (map trim body);
               Model.description := None |} ])%list;
        penums := penums st; currentBlock := None |}.
Proof.
  intros Ho Hb Hc. simpl.
  rewrite (prismaStep_open_model st header name Ho). simpl.
  rewrite forEach_app.
  erewrite prismaLoop_body; [|reflexivity|assumption]. simpl.
  erewrite prismaStep_close; [|reflexivity|assumption]. reflexivity.
Qed.

(** An enum block appends one enum and leaves the models alone. *)
Lemma prisma_enum_block st header body closing name :
  opensEnum header name ->
  Forall (fun l => bodyLine l = true) body ->
  trim closing = "}" ->
  forEach prismaStep (header :: body ++ [closing])%list st =
  Ok {| pmodels := pmodels st;
        penums := (penums st ++
          [ {| Enum.name := name; Enum.values := enumValuesOf body |} ])%list;
        currentBlock := None |}.
Proof.
  intros Ho Hb Hc. simpl.
  rewrite (prismaStep_open_enum st header name Ho). simpl.
  rewrite forEach_app.
  erewrite prismaLoop_body; [|reflexivity|assumption]. simpl.
  erewrite prismaStep_close; [|reflexivity|assumption]. reflexivity.
Qed.

(** The loop only ever appends to the models and to the enums. *)
Lemma prismaStep_appends st l st' :
  prismaStep st l = Ok st' ->
  exists ms es, pmodels st' = (pmodels st ++ ms)%list
                /\ penums st' = (penums st ++ es)%list.
Proof.
  unfold prismaStep. cbv zeta.
  destruct (jsMatch false modelStart (trim l)).
  { intros H. apply bind_Ok in H. destruct H as (? & _ & H). inversion H; subst.
    exists [], []. simpl. now rewrite !app_nil_r. }
  destruct (jsMatch false enumStart (trim l)).
  { intros H. apply bind_Ok in H. destruct H as (? & _ & H). inversion H; subst.
    exists [], []. simpl. now rewrite !app_nil_r. }
  assert (Same : Ok st = Ok st' ->
          exists ms es, pmodels st' = (pmodels st ++ ms)%list
                        /\ penums st' = (penums st ++ es)%list).
  { intros H. inversion H; subst. exists [], []. now rewrite !app_nil_r. }
  destruct (String.eqb (trim l) "}"), (currentBlock st) as [b|]; auto.
  - destruct (btype b); intros H.
    + apply bind_Ok in H. destruct H as (fs & _ & H). inversion H; subst. simpl.
      eexists; exists []; split; [reflexivity|now rewrite app_nil_r].
    + inversion H; subst. simpl.
      exists []; eexists; split; [now rewrite app_nil_r|reflexivity].
  - destruct (truthy (trim l) && negb (startsWith (trim l) "//")
              && negb (startsWith (trim l) "@@")); auto.
    intros H. inversion H; subst. exists [], []. simpl. now rewrite !app_nil_r.
Qed.

Lemma prismaLoop_appends lines : forall st st',
  forEach prismaStep lines st = Ok st' ->
  exists ms es, pmodels st' = (pmodels st ++ ms)%list
                /\ penums st' = (penums st ++ es)%list.
Proof.
  induction lines as [|l lines IH]; intros st st' H; simpl in H.
  - inversion H; subst. exists [], []. now rewrite !app_nil_r.
  - apply bind_Ok in H. destruct H as (st1 & H1 & H2).
    destruct (prismaStep_appends _ _ _ H1) as (ms1 & es1 & M1 & E1).
    destruct (IH _ _ H2) as (ms2 & es2 & M2 & E2).
    exists (ms1 ++ ms2)%list, (es1 ++ es2)%list.
    rewrite M2, E2, M1, E1, !app_assoc. auto.
Qed.

(** A field line resolves against the given enums and nothing else. *)
Lemma fieldOfLine_resolved known line : resolvedAgainst known line.
Proof.
  unfold resolvedAgainst.
  destruct (jsMatch false fieldPattern line) as [m|] eqn:E.
  - destruct (parsePrismaField_matched line known m E)
      as (name & rawType & f & C1 & C2 & P & _ & _ & T & V & _).
    exists rawType, f. split; [assumption|]. unfold fieldOfLine. rewrite P.
    split; [reflexivity|]. rewrite T, V. unfold mapPrismaType.
    destruct (prismaEnumDef rawType known) as [e|]; simpl; [auto|].
    repeat split; auto. unfold tableGet.
    destruct (lookup rawType prismaTypeMap) as [t|] eqn:L.
    + intros ->. revert L. simpl.
      repeat match goal with
             | |- context [if ?c then _ else _] => destruct c; [discriminate|]
             end. discriminate.
    + destruct (existsb (String.eqb rawType) objectPrototypeKeys); discriminate.
  - unfold fieldOfLine. now rewrite (parsePrismaField_unmatched _ _ E).
Qed.

(** ** Facts about every parsed field *)

Lemma allFields_impl (P Q : Field.t -> Prop) ms :
  (forall f, P f -> Q f) -> allFields P ms -> allFields Q ms.
Proof.
  intros H A. unfold allFields in *.
  eapply Forall_impl; [|exact A]. intros m Hm.
  eapply Forall_impl; [|exact Hm]. exact H.
Qed.

Lemma parsePrismaField_cardinality line known f :
  parsePrismaField line known = Ok (Some f) -> prismaCardinality f.
Proof.
  intros H. destruct (jsMatch false fieldPattern line) as [m|] eqn:E.
  2:{ rewrite (parsePrismaField_unmatched _ _ E) in H. discriminate. }
  destruct (parsePrismaField_matched line known m E)
    as (name & rawType & f' & _ & _ & P & _ & L & _ & _ & R1 & R2).
  rewrite P in H. inversion H; subst f'. clear H.
  exists line, known, m. repeat split; auto.
  destruct (Field.type f) eqn:T;
    try (rewrite R2 by discriminate; discriminate).
  destruct (R1 eq_refl) as (fk & ->). simpl. rewrite L.
  destruct (isSome (cap m 3)); repeat split; intros; congruence.
Qed.

Lemma prismaCardinality_relationPresent f :
  prismaCardinality f -> relationPresent f.
Proof.
  intros (line & known & m & _ & _ & _ & H). unfold relationPresent.
  destruct (Field.type f); auto.
  destruct (Field.relation f); eauto. congruence.
Qed.

Lemma lookup_In {V} key (table : list (string * V)) v :
  lookup key table = Some v -> In v (map snd table).
Proof.
  induction table as [|(k, x) table IH]; simpl; [discriminate|].
  destruct (String.eqb k key); [intros H; inversion H; auto|auto].
Qed.

Lemma mapSqlType_scalar sqlType :
  mapSqlType sqlType <> TRelation /\ mapSqlType sqlType <> TEnum.
Proof.
  unfold mapSqlType, tableGet.
  destruct (lookup sqlType sqlTypeMap) as [t|] eqn:L.
  - apply lookup_In in L. simpl in L.
    repeat (destruct L as [<-|L]; [split; discriminate|]). contradiction.
  - destruct (existsb (String.eqb sqlType) objectPrototypeKeys); split; discriminate.
Qed.



Lemma parseSqlColumn_facts def known f :
  parseSqlColumn def known = Ok (Some f) ->
  Field.isList f = false /\ relationPresent f.
Proof.
  intros H. destruct (jsMatch true columnPattern def) as [m|] eqn:E.
  2:{ rewrite (parseSqlColumn_unmatched _ _ E) in H. discriminate. }
  destruct (parseSqlColumn_matched def known m E)
    as (name & rawType & rest & f' & _ & _ & _ & P & _ & L & _ & R).
  rewrite P in H. inversion H; subst f'. clear H. split; [assumption|].
  unfold relationPresent.
  destruct (jsMatch true referencesPattern rest).
  - destruct R as (t & _ & -> & ->). eauto.
  - destruct R as (-> & _).
    destruct (isSome (sqlEnumDef rawType known)); [exact I|].
    destruct (mapSqlType_scalar (toUpperCase rawType)) as (N & _).
    destruct (mapSqlType (toUpperCase rawType)); auto. congruence.
Qed.

Lemma columnOfDef_from known defs :
  Forall (fun f => exists def known', parseSqlColumn def known' = Ok (Some f))
         (flat_map (columnOfDef known) defs).
Proof.
  apply Forall_forall. intros f Hf. apply in_flat_map in Hf.
  destruct Hf as (d & _ & Hf). unfold columnOfDef in Hf.
  destruct (test true constraintPattern (trim d)); [contradiction|].
  destruct (parseSqlColumn (trim d) known) as [[f'|]| |] eqn:E; simpl in Hf;
    try contradiction.
  destruct Hf as [<-|[]]. eauto.
Qed.

Lemma parseSqlSchema_total input :
  exists d, parseSqlSchema input = Ok d
            /\ allFields (fun f => exists def known,
                            parseSqlColumn def known = Ok (Some f)) (models d).
Proof.
  rewrite parseSqlSchema_spec. eexists; split; [reflexivity|]. simpl.
  unfold allFields. apply Forall_map. apply Forall_forall. intros m _. simpl.
  apply columnOfDef_from.
Qed.

(* ====================================================================== *)
(** * The field pattern on a well-shaped line *)

Lemma searchFrom_hit icase r p s st :
  matchAt icase r p s = Some st -> searchFrom icase r p s = Some st.
Proof. intros H. destruct s; simpl; now rewrite H. Qed.

(** A greedy run stops where the character set stops, when the rest of the
    pattern matches from there. *)
Lemma star_greedy icase cs k : forall w s p cp r,
  allChars (csetMatches icase cs) w = true ->
  headIs (csetMatches icase cs) s = false ->
  k (MState (p + String.length w) s cp) = Some r ->
  star icase cs k p cp (w ++ s) = Some r.
Proof.
  induction w as [|c w IH]; intros s p cp r Hw Hs Hk; simpl in *.
  - rewrite Nat.add_0_r in Hk. destruct s as [|c s]; simpl in *; [assumption|].
    now rewrite Hs.
  - apply andb_true_iff in Hw. destruct Hw as (Hc & Hw). rewrite Hc.
    rewrite (IH s (S p) cp r); auto.
    now rewrite <- Nat.add_succ_comm in Hk.
Qed.

Lemma plus_greedy icase cs k w s p cp r :
  isEmpty w = false ->
  allChars (csetMatches icase cs) w = true ->
  headIs (csetMatches icase cs) s = false ->
  k (MState (p + String.length w) s cp) = Some r ->
  rmatch icase (Plus cs) k (MState p (w ++ s) cp) = Some r.
Proof.
  intros He Hw Hs Hk. destruct w as [|c w]; [discriminate|]. simpl in *.
  apply andb_true_iff in Hw. destruct Hw as (Hc & Hw). rewrite Hc.
  apply star_greedy; auto. now rewrite <- Nat.add_succ_comm in Hk.
Qed.

Lemma substring_prefix w s : substring 0 (String.length w) (w ++ s) = w.
Proof.
  induction w as [|c w IH]; simpl.
  - destruct s; reflexivity.
  - now rewrite IH.
Qed.

Lemma space_not_word c : isSpace c = true -> isWord c = false.
Proof.
  destruct c as [[] [] [] [] [] [] [] []]; vm_compute; intros; congruence.
Qed.

Lemma headIs_blank_not_word sp s :
  isBlank sp = true -> headIs isWord (sp ++ s) = false.
Proof.
  unfold isBlank. destruct sp as [|c sp]; simpl; [discriminate|].
  intros H. apply andb_true_iff in H. destruct H as (H & _).
  now apply space_not_word.
Qed.

Lemma headIs_word_not_space w s :
  isWordToken w = true -> headIs isSpace (w ++ s) = false.
Proof.
  unfold isWordToken. destruct w as [|c w]; simpl; [discriminate|].
  intros H. apply andb_true_iff in H. destruct H as (H & _).
  destruct (isSpace c) eqn:E; [|reflexivity].
  apply space_not_word in E. congruence.
Qed.

Lemma rmatch_Seq icase r1 r2 k st :
  rmatch icase (Seq r1 r2) k st = rmatch icase r1 (rmatch icase r2 k) st.
Proof. reflexivity. Qed.

Lemma rmatch_Group icase n r k st :
  rmatch icase (Group n r) k st
  = rmatch icase r
      (fun st' => k (MState (pos st') (rest st')
                       ((n, substring 0 (pos st' - pos st) (rest st)) :: caps st')))
      st.
Proof. reflexivity. Qed.

Lemma rmatch_Bol0 icase k s cp :
  rmatch icase Bol k (MState 0 s cp) = k (MState 0 s cp).
Proof. reflexivity. Qed.

Lemma prefix_brackets tail :
  String.prefix "[]" tail =
  match tail with
  | String c1 (String c2 _) => Ascii.eqb "[" c1 && Ascii.eqb "]" c2
  | _ => false
  end.
Proof.
  destruct tail as [|c1 [|c2 t]]; cbn [String.prefix]; try reflexivity.
  - destruct (ascii_dec "[" c1); reflexivity.
  - destruct (ascii_dec "[" c1) as [<-|N1].
    + rewrite Ascii.eqb_refl. destruct (ascii_dec "]" c2) as [<-|N2].
      * rewrite Ascii.eqb_refl. destruct t; reflexivity.
      * apply Ascii.eqb_neq in N2. now rewrite N2.
    + apply Ascii.eqb_neq in N1. now rewrite N1.
Qed.

Ltac rsimpl :=
  cbn [rmatch lit seqs star rest pos caps csetMatches atomMatches charEq isEmpty].

(** The end of the field pattern, the optional bracket pair and the
    optional question mark: group 3 takes part exactly when the text goes on
    with the bracket pair. *)
Lemma fieldPattern_tail p tail cp :
  exists m,
    rmatch false (Seq (Opt (Group 3 (lit "[]"))) (Opt (lit "?"))) Some
           (MState p tail cp) = Some m
    /\ caps m = if String.prefix "[]" tail then (3, "[]") :: cp else cp.
Proof.
  assert (Q : forall q t c, exists m,
             rmatch false (Opt (lit "?")) Some (MState q t c) = Some m
             /\ caps m = c).
  { intros q t c. rsimpl. destruct t as [|x t]; rsimpl;
      [eexists; split; reflexivity|].
    destruct (Ascii.eqb "?" x); rsimpl; [|eexists; split; reflexivity].
    destruct (S q =? q)%nat eqn:E; [apply Nat.eqb_eq in E; lia|].
    eexists; split; reflexivity. }
  rewrite prefix_brackets.
  destruct tail as [|c1 tail].
  { destruct (Q p EmptyString cp) as (m & Hm & Hc). exists m.
    split; [|exact Hc]. rsimpl. exact Hm. }
  destruct (Ascii.eqb "[" c1) eqn:E1.
  2:{ destruct (Q p (String c1 tail) cp) as (m & Hm & Hc).
      exists m. split; [|destruct tail; exact Hc].
      rsimpl. rewrite E1. exact Hm. }
  destruct tail as [|c2 tail].
  { destruct (Q p (String c1 EmptyString) cp) as (m & Hm & Hc). exists m.
    split; [|exact Hc]. rsimpl. rewrite E1. rsimpl. exact Hm. }
  destruct (Ascii.eqb "]" c2) eqn:E2.
  2:{ destruct (Q p (String c1 (String c2 tail)) cp) as (m & Hm & Hc).
      exists m. split; [|exact Hc].
      rsimpl. rewrite E1. rsimpl. rewrite E2. exact Hm. }
  apply Ascii.eqb_eq in E1, E2. subst c1 c2.
  destruct (Q (S (S p)) tail ((3, "[]") :: cp)) as (m & Hm & Hc).
  exists m. split; [|exact Hc].
  rsimpl. rewrite !Ascii.eqb_refl. rsimpl.
  replace (S (S p) - p) with 2 by lia.
  destruct (S (S p) =? p)%nat eqn:E; [apply Nat.eqb_eq in E; lia|].
  change (substring 0 2 (String "[" (String "]" tail)))
    with (substring 0 (String.length "[]") ("[]" ++ tail)).
  rewrite substring_prefix.
  cbn [rmatch lit rest pos caps csetMatches atomMatches charEq] in Hm.
  now rewrite Hm.
Qed.

(** On a line made of a name, blanks, a type name and a tail that does not
    go on with a word character, the field pattern captures the name and
    the type name, and its group 3 tells whether the tail starts with the
    bracket pair. *)
Lemma fieldPattern_on_shaped_line name sp ty tail :
  isWordToken name = true -> isBlank sp = true -> isWordToken ty = true ->
  headIs isWord tail = false ->
  exists m,
    jsMatch false fieldPattern (name ++ sp ++ ty ++ tail) = Some m
    /\ cap m 1 = Some name /\ cap m 2 = Some ty
    /\ cap m 3 = if String.prefix "[]" tail then Some "[]" else None.
Proof.
  intros Hn Hs Ht Hh.
  destruct (fieldPattern_tail
              (String.length name + String.length sp + String.length ty) tail
              [(2, ty); (1, name)]) as (m & Hm & Hc).
  exists m. split.
  - unfold jsMatch. apply searchFrom_hit. unfold matchAt.
    pose proof (headIs_blank_not_word sp (ty ++ tail) Hs) as Hsp.
    pose proof (headIs_word_not_space ty tail Ht) as Hty.
    unfold isWordToken, isBlank in Hn, Hs, Ht.
    apply andb_true_iff in Hn, Hs, Ht.
    destruct Hn as (Hn1 & Hn2), Hs as (Hs1 & Hs2), Ht as (Ht1 & Ht2).
    apply negb_true_iff in Hn1, Hs1, Ht1.
    change fieldPattern
      with (Seq Bol (Seq (Group 1 (Plus word))
             (Seq (Plus ws) (Seq (Group 2 (Plus word))
                (Seq (Opt (Group 3 (lit "[]"))) (Opt (lit "?"))))))).
    rewrite rmatch_Seq, rmatch_Bol0, rmatch_Seq, rmatch_Group.
    apply plus_greedy; [exact Hn1|exact Hn2|exact Hsp|].
    simpl pos; simpl rest; simpl caps.
    rewrite ?Nat.add_0_l, ?Nat.sub_0_r, substring_prefix.
    rewrite rmatch_Seq.
    apply plus_greedy; [exact Hs1|exact Hs2|exact Hty|].
    rewrite rmatch_Seq, rmatch_Group.
    apply plus_greedy; [exact Ht1|exact Ht2|exact Hh|].
    simpl pos; simpl rest; simpl caps.
    replace (String.length name + String.length sp + String.length ty
             - (String.length name + String.length sp))
      with (String.length ty) by lia.
    rewrite substring_prefix. exact Hm.
  - unfold cap. rewrite Hc. destruct (String.prefix "[]" tail); simpl; auto.
Qed.

(** So on such a line the parser marks the field as a list exactly when
    the bracket pair follows the type name, and a relation is then
    [one-to-many], and [one-to-one] otherwise. *)
Lemma parsePrismaField_list_marker name sp ty tail known :
  isWordToken name = true -> isBlank sp = true -> isWordToken ty = true ->
  headIs isWord tail = false ->
  exists f,
    parsePrismaField (name ++ sp ++ ty ++ tail) known = Ok (Some f)
    /\ Field.name f = name
    /\ Field.isList f = String.prefix "[]" tail
    /\ (Field.type f = TRelation ->
        exists fk, Field.relation f =
                   Some {| Relation.model := ty;
                           Relation.type :=
                             if String.prefix "[]" tail then OneToMany else OneToOne;
                           Relation.foreignKey := fk |}).
Proof.
  intros Hn Hs Ht Hh.
  destruct (fieldPattern_on_shaped_line name sp ty tail Hn Hs Ht Hh)
    as (m & Hm & C1 & C2 & C3).
  destruct (parsePrismaField_matched _ known m Hm)
    as (name' & ty' & f & D1 & D2 & P & N & L & _ & _ & R & _).
  rewrite C1 in D1. rewrite C2 in D2.
  injection D1 as <-. injection D2 as <-.
  exists f. repeat split; auto.
  - rewrite L, C3. now destruct (String.prefix "[]" tail).
  - intros T. destruct (R T) as (fk & ->). exists fk. rewrite C3.
    now destruct (String.prefix "[]" tail).
Qed.

(* ====================================================================== *)
(** * Main results: the parsers *)

(** C5. [parsePrismaSchema] returns for every input, and every field of its
    result comes from a line matched by the field pattern: the field is a
    list exactly when the bracket pair after the type took part in the
    match (group 3), it carries a [relation] attribute exactly when its type
    is [relation], and then the cardinality is [one-to-many] if and only if
    the field is list-marked and [one-to-one] if and only if it is not; it
    is never [many-to-many].  On a line made of a name, blanks, a type name
    and a tail, the field is list-marked exactly when the tail starts with
    the bracket pair. *)
Theorem C5_prisma_relation_cardinality :
  (forall input,
      exists d, parsePrismaSchema input = Ok d
                /\ allFields prismaCardinality (models d))
  /\ (forall name sp ty tail known,
         isWordToken name = true -> isBlank sp = true -> isWordToken ty = true ->
         headIs isWord tail = false ->
         exists f,
           parsePrismaField (name ++ sp ++ ty ++ tail) known = Ok (Some f)
           /\ Field.name f = name
           /\ Field.isList f = String.prefix "[]" tail
           /\ (Field.type f = TRelation ->
               exists fk, Field.relation f =
                          Some {| Relation.model := ty;
                                  Relation.type :=
                                    if String.prefix "[]" tail then OneToMany
                                    else OneToOne;
                                  Relation.foreignKey := fk |})).
Proof.
  split.
  - intros input. destruct (parsePrismaSchema_total input) as (d & H & F).
    exists d. split; [assumption|].
    eapply allFields_impl; [|exact F]. simpl.
    intros f (line & known & P). eapply parsePrismaField_cardinality; eauto.
  - apply parsePrismaField_list_marker.
Qed.

(** A list of posts and a single author. *)
Lemma C5_list_marker_witness :
  (exists f,
      parsePrismaField "posts Post[]" [] = Ok (Some f)
      /\ Field.name f = "posts"
      /\ Field.isList f = true
      /\ (Field.type f = TRelation ->
          exists fk, Field.relation f =
                     Some {| Relation.model := "Post"; Relation.type := OneToMany;
                             Relation.foreignKey := fk |}))
  /\ (exists f,
         parsePrismaField "author User @relation(fields: [authorId])" [] = Ok (Some f)
         /\ Field.name f = "author"
         /\ Field.isList f = false
         /\ (Field.type f = TRelation ->
             exists fk, Field.relation f =
                        Some {| Relation.model := "User"; Relation.type := OneToOne;
                                Relation.foreignKey := fk |})).
Proof.
  destruct C5_prisma_relation_cardinality as (_ & H). split.
  - apply (H "posts" " " "Post" "[]" []); reflexivity.
  - apply (H "author" " " "User" " @relation(fields: [authorId])" []); reflexivity.
Defined.

(** C9. Both parsers return for every input, and every field they emit
    satisfies the IR invariant: a field of type [relation] carries a
    [relation] attribute, which holds a model name and a relation type. *)
Theorem C9_relation_fields_carry_relation : forall input,
  (exists d, parsePrismaSchema input = Ok d
             /\ allFields relationPresent (models d))
  /\ (exists d, parseSqlSchema input = Ok d
                /\ allFields relationPresent (models d)).
Proof.
  intros input. split.
  - destruct (parsePrismaSchema_total input) as (d & H & F).
    exists d. split; [assumption|].
    eapply allFields_impl; [|exact F]. simpl.
    intros f (line & known & P). apply prismaCardinality_relationPresent.
    eapply parsePrismaField_cardinality; eauto.
  - destruct (parseSqlSchema_total input) as (d & H & F).
    exists d. split; [assumption|].
    eapply allFields_impl; [|exact F]. simpl.
    intros f (def & known & P). eapply parseSqlColumn_facts; eauto.
Qed.

(** C10. [parseSqlSchema] returns for every input, and [isList] is false on
    every field of its result. *)
Theorem C10_sql_fields_never_lists : forall input,
  exists d, parseSqlSchema input = Ok d
            /\ allFields (fun f => Field.isList f = false) (models d).
Proof.
  intros input. destruct (parseSqlSchema_total input) as (d & H & F).
  exists d. split; [assumption|].
  eapply allFields_impl; [|exact F]. simpl.
  intros f (def & known & P). eapply parseSqlColumn_facts; eauto.
Qed.

Lemma fieldOfLine_count known lines :
  List.length (flat_map (fieldOfLine known) lines)
  = List.length (filter isFieldLine lines).
Proof.
  induction lines as [|l lines IH]; simpl; [reflexivity|].
  rewrite length_app, IH. unfold isFieldLine, fieldOfLine.
  destruct (jsMatch false fieldPattern l) as [m|] eqn:E; simpl.
  - destruct (parsePrismaField_matched l known m E)
      as (? & ? & f & _ & _ & -> & _). reflexivity.
  - now rewrite (parsePrismaField_unmatched _ _ E).
Qed.

Lemma columnOfDef_count known defs :
  List.length (flat_map (columnOfDef known) defs)
  = List.length (filter isColumnDef defs).
Proof.
  induction defs as [|d defs IH]; simpl; [reflexivity|].
  rewrite length_app, IH. unfold isColumnDef, columnOfDef.
  destruct (test true constraintPattern (trim d)); simpl; [reflexivity|].
  destruct (jsMatch true columnPattern (trim d)) as [m|] eqn:E; simpl.
  - destruct (parseSqlColumn_matched (trim d) known m E)
      as (? & ? & ? & f & _ & _ & _ & -> & _). reflexivity.
  - now rewrite (parseSqlColumn_unmatched _ _ E).
Qed.

Lemma prismaLoop_returns lines st :
  exists st', forEach prismaStep lines st = Ok st'.
Proof.
  revert st. induction lines as [|l lines IH]; intros st; simpl; [eauto|].
  assert (R : exists st1, prismaStep st l = Ok st1).
  { unfold prismaStep. cbv zeta.
    destruct (jsMatch false modelStart (trim l)) as [m|] eqn:EM.
    { destruct (jsMatch_capStr _ _ _ _ 1 EM eq_refl) as (v & -> & _). simpl. eauto. }
    destruct (jsMatch false enumStart (trim l)) as [m|] eqn:EE.
    { destruct (jsMatch_capStr _ _ _ _ 1 EE eq_refl) as (v & -> & _). simpl. eauto. }
    destruct (String.eqb (trim l) "}"), (currentBlock st) as [b|]; eauto.
    - destruct (btype b); eauto. rewrite parseModelFields_flat_map. simpl. eauto.
    - destruct (truthy (trim l) && negb (startsWith (trim l) "//")
                && negb (startsWith (trim l) "@@")); eauto. }
  destruct R as (st1 & ->). simpl. apply IH.
Qed.

Lemma split_join_app pre l post :
  Forall isLine (pre ++ l :: post)%list ->
  split newline (join nl (pre ++ l :: post)%list) = (pre ++ l :: post)%list.
Proof.
  destruct pre as [|p pre]; simpl app; apply split_join_lines.
Qed.

(** ** Blocks with blank lines, comments and block attributes *)

Lemma searchFrom_anchor_later icase r : forall s p,
  0 < p -> searchFrom icase (Seq Bol r) p s = None.
Proof.
  induction s as [|c s IH]; intros p Hp; cbn [searchFrom]; unfold matchAt;
    cbn [rmatch pos]; (destruct p; [lia|]); cbn [Nat.eqb].
  - reflexivity.
  - apply IH. lia.
Qed.

Lemma prefix_two a b t :
  String.prefix (String a (String b EmptyString)) t = true ->
  exists rest, t = String a (String b rest).
Proof.
  destruct t as [|c1 [|c2 r]]; cbn [String.prefix]; try discriminate.
  - destruct (ascii_dec a c1); discriminate.
  - destruct (ascii_dec a c1) as [<-|]; [|discriminate].
    destruct (ascii_dec b c2) as [<-|]; [|discriminate]. eauto.
Qed.

(** What a skipped line starts with. *)
Lemma skippedLine_start l :
  skippedLine l = true ->
  trim l = EmptyString
  \/ (exists rest, trim l = String "/" (String "/" rest))
  \/ (exists rest, trim l = String "@" (String "@" rest)).
Proof.
  unfold skippedLine, startsWith. intros H.
  apply orb_true_iff in H. destruct H as [H|H].
  - apply orb_true_iff in H. destruct H as [H|H].
    + left. destruct (trim l); [reflexivity|discriminate].
    + right. left. now apply prefix_two.
  - right. right. now apply prefix_two.
Qed.

(** The field pattern needs a word character at the start of the line. *)
Lemma fieldPattern_needs_word t :
  headIs isWord t = false -> jsMatch false fieldPattern t = None.
Proof.
  intros H. unfold jsMatch. destruct t as [|c t]; [reflexivity|].
  simpl in H. cbn [searchFrom]. unfold matchAt, fieldPattern, seqs, word.
  cbn [rmatch pos rest Nat.eqb csetMatches atomMatches]. rewrite H.
  apply (searchFrom_anchor_later false). lia.
Qed.

(** A line the loop passes over yields no field. *)
Lemma fieldOfLine_skipped known l :
  skippedLine l = true -> fieldOfLine known (trim l) = [].
Proof.
  intros H. apply skippedLine_start in H. unfold fieldOfLine.
  rewrite parsePrismaField_unmatched; [reflexivity|].
  apply fieldPattern_needs_word.
  destruct H as [->|[(r & ->)|(r & ->)]]; reflexivity.
Qed.

Lemma fieldOfLine_stored known body :
  flat_map (fieldOfLine known)
           (map trim (filter (fun l => negb (skippedLine l)) body))
  = flat_map (fieldOfLine known) (map trim body).
Proof.
  induction body as [|l body IH]; simpl; [reflexivity|].
  destruct (skippedLine l) eqn:S; simpl.
  - now rewrite (fieldOfLine_skipped known l S).
  - now rewrite IH.
Qed.

(** Inside an open block a line that opens and closes nothing is stored,
    unless the loop passes over it. *)
Lemma prismaStep_inner st b l :
  currentBlock st = Some b -> innerLine l = true ->
  prismaStep st l =
  Ok {| pmodels := pmodels st; penums := penums st;
        currentBlock :=
          Some {| btype := btype b; bname := bname b;
                  blines := (blines b
                             ++ map trim (filter (fun l => negb (skippedLine l)) [l]))%list |} |}.
Proof.
  intros Hb H. unfold innerLine in H. cbv zeta in H.
  repeat (apply andb_true_iff in H; destruct H as (H & ?)).
  unfold prismaStep. cbv zeta.
  destruct (jsMatch false modelStart (trim l)); [discriminate|].
  destruct (jsMatch false enumStart (trim l)); [discriminate|].
  destruct (String.eqb (trim l) "}"); [discriminate|].
  rewrite Hb. cbn [filter]. unfold skippedLine, truthy.
  destruct (isEmpty (trim l)), (startsWith (trim l) "//"),
    (startsWith (trim l) "@@"); simpl; try reflexivity;
    rewrite app_nil_r; destruct st as [ms es cb], b; simpl in *; now subst.
Qed.

Lemma prismaLoop_inner body : forall st b,
  currentBlock st = Some b -> Forall (fun l => innerLine l = true) body ->
  forEach prismaStep body st =
  Ok {| pmodels := pmodels st; penums := penums st;
        currentBlock :=
          Some {| btype := btype b; bname := bname b;
                  blines := (blines b
                             ++ map trim (filter (fun l => negb (skippedLine l)) body))%list |} |}.
Proof.
  induction body as [|l body IH]; intros st b Hb H.
  - simpl. rewrite app_nil_r. destruct st as [ms es cb], b; simpl in *. now subst.
  - inversion H; subst. cbn [forEach].
    rewrite (prismaStep_inner st b l) by assumption. cbn [bind].
    erewrite IH; [|reflexivity|assumption]. cbn [pmodels penums btype bname blines].
    rewrite <- app_assoc, <- map_app.
    change (l :: body) with ([l] ++ body)%list. now rewrite filter_app.
Qed.

Lemma bodyLine_innerLine l : bodyLine l = true -> innerLine l = true.
Proof.
  unfold bodyLine, innerLine. cbv zeta. intros H.
  repeat (apply andb_true_iff in H; destruct H as (H & ?)).
  repeat (apply andb_true_iff; split); assumption.
Qed.

(** A model block, whatever blank lines, comments and block attributes
    stand between its fields. *)
Lemma prisma_model_block_inner st header body closing name :
  opensModel header name ->
  Forall (fun l => innerLine l = true) body ->
  trim closing = "}" ->
  forEach prismaStep (header :: body ++ [closing])%list st =
  Ok {| pmodels := (pmodels st ++
          [ {| Model.name := name;
               Model.fields := flat_map (fieldOfLine (penums st)) (map trim body);
               Model.description := None |} ])%list;
        penums := penums st; currentBlock := None |}.
Proof.
  intros Ho Hb Hc. cbn [forEach app].
  rewrite (prismaStep_open_model st header name Ho). cbn [bind].
  rewrite forEach_app.
  erewrite prismaLoop_inner; [|reflexivity|assumption].
  cbn [bind forEach btype bname blines pmodels penums app].
  erewrite prismaStep_close; [|reflexivity|assumption].
  cbn [bind btype bname blines pmodels penums].
  now rewrite fieldOfLine_stored.
Qed.

(** A model block in the middle of a document. *)
Lemma parsePrismaSchema_model_block pre header body closing post name st :
  Forall isLine (pre ++ header :: body ++ closing :: post)%list ->
  forEach prismaStep pre prismaInit = Ok st ->
  opensModel header name ->
  Forall (fun l => innerLine l = true) body ->
  trim closing = "}" ->
  exists d laterModels laterEnums,
    parsePrismaSchema (join nl (pre ++ header :: body ++ closing :: post)%list) = Ok d
    /\ models d =
       (pmodels st ++
        {| Model.name := name;
           Model.fields := flat_map (fieldOfLine (penums st)) (map trim body);
           Model.description := None |} :: laterModels)%list
    /\ enums d = (penums st ++ laterEnums)%list.
Proof.
  intros HL Hpre Ho Hb Hc. unfold parsePrismaSchema.
  rewrite split_join_app by assumption.
  rewrite forEach_app, Hpre. cbn [bind].
  change (header :: body ++ closing :: post)%list
    with ((header :: body) ++ closing :: post)%list.
  replace ((header :: body) ++ closing :: post)%list
    with ((header :: body ++ [closing]) ++ post)%list
    by (simpl; now rewrite <- app_assoc).
  rewrite forEach_app.
  rewrite (prisma_model_block_inner st header body closing name) by assumption.
  cbn [bind].
  match goal with
  | |- context [forEach prismaStep post ?s] =>
      destruct (prismaLoop_returns post s) as (st' & E);
      destruct (prismaLoop_appends _ _ _ E) as (ms & es & M & N);
      rewrite E
  end.
  simpl in *. exists {| models := pmodels st'; enums := penums st' |}, ms, es.
  simpl. rewrite M, N, <- app_assoc. auto.
Qed.

(** C2. Both parsers return a schema for every input string.  A Prisma
    line that does not match the field pattern and a SQL column definition
    that does not match the column pattern yield no field and no error.  A
    document made of one model block, whose inner lines are any lines that
    open no block and are no closing brace (field lines, lines that match
    no pattern, blank lines, comments, block attributes), yields one model
    whose fields are as many as the inner lines that match the field
    pattern, so that two matching lines and one that does not give exactly
    two fields; and a table body yields as many fields as it has matching
    column definitions. *)
Theorem C2_parsers_return_and_degrade :
  (forall input, exists d, parsePrismaSchema input = Ok d)
  /\ (forall input, exists d, parseSqlSchema input = Ok d)
  /\ (forall line known,
        isFieldLine line = false -> parsePrismaField line known = Ok None)
  /\ (forall def known,
        jsMatch true columnPattern def = None -> parseSqlColumn def known = Ok None)
  /\ (forall header body closing name,
        Forall isLine (header :: body ++ [closing])%list ->
        opensModel header name ->
        Forall (fun l => innerLine l = true) body ->
        trim closing = "}" ->
        exists fields,
          parsePrismaSchema (join nl (header :: body ++ [closing])%list)
          = Ok {| models := [ {| Model.name := name; Model.fields := fields;
                                 Model.description := None |} ];
                  enums := [] |}
          /\ List.length fields = List.length (filter isFieldLine (map trim body)))
  /\ (forall body known,
        exists fields,
          parseSqlColumns body known = Ok fields
          /\ List.length fields = List.length (filter isColumnDef (splitColumns body))).
Proof.
  split; [|split; [|split; [|split; [|split]]]].
  - intros input. destruct (parsePrismaSchema_total input) as (d & H & _). eauto.
  - intros input. destruct (parseSqlSchema_total input) as (d & H & _). eauto.
  - intros line known H. apply parsePrismaField_unmatched.
    unfold isFieldLine in H. destruct (jsMatch false fieldPattern line); [discriminate|reflexivity].
  - intros def known H. now apply parseSqlColumn_unmatched.
  - intros header body closing name HL Ho Hb Hc.
    eexists. split; [|apply fieldOfLine_count].
    unfold parsePrismaSchema. rewrite split_join_lines by assumption.
    rewrite (prisma_model_block_inner prismaInit header body closing name) by assumption.
    reflexivity.
  - intros body known. rewrite parseSqlColumns_flat_map.
    eexists. split; [reflexivity|apply columnOfDef_count].
Qed.

(** A model with an unparseable line between two parseable ones. *)
Lemma C2_degrade_witness :
  exists fields,
    parsePrismaSchema
      (join nl ["model User {"; "  id String @id"; "  broken"; "  name String?"; "}"])
    = Ok {| models := [ {| Model.name := "User"; Model.fields := fields;
                           Model.description := None |} ];
            enums := [] |}
    /\ List.length fields = 2.
Proof.
  destruct C2_parsers_return_and_degrade as (_ & _ & _ & _ & H & _).
  apply (H "model User {" ["  id String @id"; "  broken"; "  name String?"] "}" "User").
  - repeat constructor.
  - eexists. split; vm_compute; reflexivity.
  - repeat constructor.
  - reflexivity.
Defined.

(** U+00A0 is white space, to [trim] and to the field pattern alike. *)
Example prisma_no_break_space :
  let sp := String (ascii_of_nat 160) EmptyString in
  fieldTypesOf
    (parsePrismaSchema
       (join nl ["model User {"; sp ++ "id" ++ sp ++ "String"; sp ++ "}" ++ sp]))
  = [("User", [("id", TString, None)])].
Proof. vm_compute. reflexivity. Qed.

(** C3. Let a model block follow the lines [pre] of a document, and let
    [st] be the state of the parser after [pre], so that [penums st] are the
    enum blocks closed before the model block.  The inner lines of the
    block are any lines that open no block and are no closing brace: blank
    lines, comments and block attributes may stand among the field lines.
    Whatever follows the block,
    the model gets the fields of its lines resolved against [penums st]
    alone: a line whose type names one of these enums yields a field of type
    [enum] with that enum's values; a line whose type names none of them
    yields a field that is not of type [enum], has no enum values and takes
    its type from the scalar table or its [relation] fallback, even if an
    enum of that name is declared later in the document. *)
Theorem C3_enum_resolution_order :
  forall pre header body closing post name st,
    Forall isLine (pre ++ header :: body ++ closing :: post)%list ->
    forEach prismaStep pre prismaInit = Ok st ->
    opensModel header name ->
    Forall (fun l => innerLine l = true) body ->
    trim closing = "}" ->
    exists d laterModels laterEnums,
      parsePrismaSchema (join nl (pre ++ header :: body ++ closing :: post)%list) = Ok d
      /\ models d =
         (pmodels st ++
          {| Model.name := name;
             Model.fields := flat_map (fieldOfLine (penums st)) (map trim body);
             Model.description := None |} :: laterModels)%list
      /\ enums d = (penums st ++ laterEnums)%list
      /\ Forall (resolvedAgainst (penums st)) (map trim body).
Proof.
  intros pre header body closing post name st HL Hpre Ho Hb Hc.
  destruct (parsePrismaSchema_model_block pre header body closing post name st)
    as (d & ms & es & P & M & E); auto.
  exists d, ms, es. repeat split; auto.
  apply Forall_forall. intros l _. apply fieldOfLine_resolved.
Qed.

(** A forward reference and a backward reference to the same enum. *)
Lemma C3_resolution_witness :
  (exists d laterModels laterEnums,
      parsePrismaSchema
        (join nl ([] ++ "model User {"
                     :: ["  id String @id"; ""; "  // the role"; "  role Role"]
                     ++ "}" :: ["enum Role {"; "  ADMIN"; "  USER"; "}"])%list) = Ok d
      /\ models d =
         ([] ++ {| Model.name := "User";
                   Model.fields :=
                     flat_map (fieldOfLine [])
                              (map trim ["  id String @id"; ""; "  // the role";
                                         "  role Role"]);
                   Model.description := None |} :: laterModels)%list
      /\ enums d = ([] ++ laterEnums)%list
      /\ Forall (resolvedAgainst [])
                (map trim ["  id String @id"; ""; "  // the role"; "  role Role"]))
  /\
  (exists d laterModels laterEnums,
      parsePrismaSchema
        (join nl (["enum Role {"; "  ADMIN"; "  USER"; "}"] ++ "model User {"
                    :: ["  id String @id"; "  role Role"] ++ "}" :: [])%list) = Ok d
      /\ models d =
         ([] ++ {| Model.name := "User";
                   Model.fields :=
                     flat_map
                       (fieldOfLine [ {| Enum.name := "Role";
                                         Enum.values := ["ADMIN"; "USER"] |} ])
                       (map trim ["  id String @id"; "  role Role"]);
                   Model.description := None |} :: laterModels)%list
      /\ enums d = ([ {| Enum.name := "Role"; Enum.values := ["ADMIN"; "USER"] |} ]
                      ++ laterEnums)%list
      /\ Forall (resolvedAgainst [ {| Enum.name := "Role";
                                      Enum.values := ["ADMIN"; "USER"] |} ])
                (map trim ["  id String @id"; "  role Role"])).
Proof.
  split.
  - apply (C3_enum_resolution_order
             [] "model User {" ["  id String @id"; ""; "  // the role"; "  role Role"] "}"
             ["enum Role {"; "  ADMIN"; "  USER"; "}"] "User" prismaInit).
    + repeat constructor.
    + reflexivity.
    + eexists. split; vm_compute; reflexivity.
    + repeat constructor.
    + reflexivity.
  - apply (C3_enum_resolution_order
             ["enum Role {"; "  ADMIN"; "  USER"; "}"]
             "model User {" ["  id String @id"; "  role Role"] "}" [] "User"
             {| pmodels := [];
                penums := [ {| Enum.name := "Role";
                               Enum.values := ["ADMIN"; "USER"] |} ];
                currentBlock := None |}).
    + repeat constructor.
    + vm_compute. reflexivity.
    + eexists. split; vm_compute; reflexivity.
    + repeat constructor.
    + reflexivity.
Defined.

(** The model block comes first: [role] falls back to a relation. *)
Example prisma_enum_declared_after_model :
  let r := parsePrismaSchema
             (join nl ["model User {"; "  id String @id"; "  role Role"; "}";
                       "enum Role {"; "  ADMIN"; "  USER"; "}"]) in
  fieldTypesOf r = [("User", [("id", TString, None); ("role", TRelation, None)])]
  /\ enumsOf r = [ {| Enum.name := "Role"; Enum.values := ["ADMIN"; "USER"] |} ].
Proof. vm_compute. split; reflexivity. Qed.

(** The enum block comes first: [role] is an enum with the declared values. *)
Example prisma_enum_declared_before_model :
  let r := parsePrismaSchema
             (join nl ["enum Role {"; "  ADMIN"; "  USER"; "}";
                       "model User {"; "  id String @id"; "  role Role"; "}"]) in
  fieldTypesOf r = [("User", [("id", TString, None);
                              ("role", TEnum, Some ["ADMIN"; "USER"])])]
  /\ enumsOf r = [ {| Enum.name := "Role"; Enum.values := ["ADMIN"; "USER"] |} ].
Proof. vm_compute. split; reflexivity. Qed.

(** The type is created after the table that uses it. *)
Example sql_type_created_after_table :
  let r := parseSqlSchema
             (join nl ["CREATE TABLE users (id SERIAL PRIMARY KEY, mood Mood NOT NULL);";
                       "CREATE TYPE mood AS ENUM ('happy', 'sad');"]) in
  fieldTypesOf r = [("Users", [("id", TNumber, None);
                               ("mood", TEnum, Some ["happy"; "sad"])])]
  /\ enumsOf r = [ {| Enum.name := "mood"; Enum.values := ["happy"; "sad"] |} ].
Proof. vm_compute. split; reflexivity. Qed.

(* ====================================================================== *)
(** * The generators *)

(** ** Loops that push lines *)

Lemma pushIf_app cond lines c : pushIf cond lines c = (lines ++ commentIf cond c)%list.
Proof. destruct cond; simpl; [reflexivity|now rewrite app_nil_r]. Qed.

Lemma fold_push_map {A} (f : A -> string) xs : forall lines,
  fold_left (fun ls x => push ls (f x)) xs lines = (lines ++ map f xs)%list.
Proof.
  induction xs as [|x xs IH]; intros lines; simpl.
  - now rewrite app_nil_r.
  - rewrite IH. unfold push. now rewrite <- app_assoc.
Qed.

Lemma forEach_flat_map {A} (g : A -> list string)
      (body : list string -> A -> result (list string)) xs :
  Forall (fun x => forall ls, body ls x = Ok (ls ++ g x)%list) xs ->
  forall ls, forEach body xs ls = Ok (ls ++ flat_map g xs)%list.
Proof.
  induction 1 as [|x xs Hx _ IH]; intros ls; simpl.
  - now rewrite app_nil_r.
  - rewrite Hx. simpl. rewrite IH, <- app_assoc. reflexivity.
Qed.

Lemma rendersBlock_flat_map {A} (g : A -> list string) xs x before after_ :
  In x xs -> rendersBlock (before ++ flat_map g xs ++ after_)%list (g x).
Proof.
  intros H. apply in_split in H. destruct H as (l1 & l2 & ->).
  rewrite flat_map_app. simpl.
  exists (before ++ flat_map g l1)%list, (flat_map g l2 ++ after_)%list.
  now rewrite <- !app_assoc.
Qed.

Lemma rendersBlock_inner lines a b c :
  rendersBlock lines (a ++ b ++ c)%list -> rendersBlock lines b.
Proof.
  intros (x & y & ->). exists (x ++ a)%list, (c ++ y)%list.
  now rewrite <- !app_assoc.
Qed.

(** ** The create-input fields *)

Lemma filter_filter {A} (p q : A -> bool) l :
  filter p (filter q l) = filter (fun x => q x && p x) l.
Proof.
  induction l as [|x l IH]; simpl; [reflexivity|].
  destruct (q x); simpl; [destruct (p x); now rewrite IH|assumption].
Qed.

(** The two filters of the Zod generator select the create-input fields. *)
Lemma zod_createFields model :
  filter (fun f => negb (isAutoField f))
         (filter (fun f => negb (isRelation (Field.type f))) (Model.fields model))
  = createFieldsOf model.
Proof.
  rewrite filter_filter. unfold createFieldsOf. apply filter_ext. intros f.
  unfold isAutoField, autoFieldNames. rewrite negb_orb, andb_assoc. reflexivity.
Qed.

(** So does the single filter of the type generator. *)
Lemma ts_createFields model :
  filter (fun f => negb (isRelation (Field.type f)) && negb (isAutoField f))
         (Model.fields model)
  = createFieldsOf model.
Proof.
  unfold createFieldsOf. apply filter_ext. intros f.
  unfold isAutoField, autoFieldNames. rewrite negb_orb, andb_assoc. reflexivity.
Qed.

(** ** The lines of the Zod generator *)

Lemma zodEnumStep_app config lines e :
  zodEnumStep config lines e = (lines ++ zodEnumConstruct config e)%list.
Proof.
  unfold zodEnumStep, zodEnumConstruct, push. rewrite pushIf_app.
  now rewrite <- !app_assoc.
Qed.

Lemma zodModelStep_app schema config lines model :
  zodModelStep schema config lines model
  = (lines ++ zodModelConstructs schema config model)%list.
Proof.
  unfold zodModelStep. cbv zeta. rewrite zod_createFields.
  rewrite !fold_push_map. unfold push. rewrite !pushIf_app.
  unfold zodModelConstructs, zodFullConstruct, zodCreateConstruct,
    zodUpdateConstruct, zodTypeAliases, dataFieldsOf.
  repeat (rewrite <- !app_assoc; simpl). reflexivity.
Qed.

Lemma zodLines_constructs schema config :
  zodLines schema config
  = ([zodImportLine; ""]
     ++ flat_map (zodEnumConstruct config) (enums schema)
     ++ flat_map (zodModelConstructs schema config) (models schema))%list.
Proof.
  unfold zodLines. cbv zeta.
  rewrite (fold_left_push_flat_map _ _ (zodModelStep_app schema config)).
  rewrite (fold_left_push_flat_map _ _ (zodEnumStep_app config)).
  unfold push. simpl. reflexivity.
Qed.

(** ** The lines of the type generator *)

Lemma tsEnumStep_app config lines e :
  tsEnumStep config lines e = (lines ++ tsEnumConstruct config e)%list.
Proof.
  unfold tsEnumStep, tsEnumConstruct, push. rewrite pushIf_app.
  now rewrite <- !app_assoc.
Qed.

Lemma tsBrandStep_app lines model :
  tsBrandStep lines model = (lines ++ [tsBrand model])%list.
Proof. reflexivity. Qed.

Lemma tsFullFields_app schema config modelName fields : forall lines,
  fold_left (tsFullFieldStep schema config modelName) fields lines
  = (lines ++ flat_map (tsFullProperty schema config modelName)
                       (filter (fun f => negb (isRelation (Field.type f))) fields))%list.
Proof.
  induction fields as [|f fields IH]; intros lines; simpl.
  - now rewrite app_nil_r.
  - rewrite IH. unfold tsFullFieldStep.
    destruct (isRelation (Field.type f)); simpl; [reflexivity|].
    generalize (flat_map (tsFullProperty schema config modelName)
                  (filter (fun f => negb (isRelation (Field.type f))) fields)).
    intros tail_. unfold tsFullProperty, push.
    destruct (Field.description f); [rewrite pushIf_app|];
      now rewrite <- !app_assoc.
Qed.

Lemma tsFullStep_app schema config lines model :
  tsFullStep schema config lines model
  = (lines ++ tsFullConstruct schema config model)%list.
Proof.
  unfold tsFullStep. cbv zeta. rewrite tsFullFields_app.
  unfold push. rewrite pushIf_app.
  unfold tsFullConstruct, dataFieldsOf.
  repeat (rewrite <- !app_assoc; simpl). reflexivity.
Qed.

Lemma tsCreateStep_app schema config lines model :
  tsCreateStep schema config lines model
  = (lines ++ tsCreateConstruct schema config model)%list.
Proof.
  unfold tsCreateStep. cbv zeta. rewrite ts_createFields, fold_push_map.
  unfold push. rewrite pushIf_app. unfold tsCreateConstruct.
  repeat (rewrite <- !app_assoc; simpl). reflexivity.
Qed.

Lemma tsUpdateStep_app config lines model :
  tsUpdateStep config lines model = (lines ++ tsUpdateConstruct config model)%list.
Proof.
  unfold tsUpdateStep, tsUpdateConstruct, push. rewrite pushIf_app.
  now rewrite <- !app_assoc.
Qed.

(** The relation fields all carry their relation, so reading its model
    never fails. *)
Lemma tsRelationFields_app fs : forall lines,
  Forall (fun f => isSome (Field.relation f) = true) fs ->
  forEach tsRelationFieldStep fs lines = Ok (lines ++ map tsRelationLine fs)%list.
Proof.
  induction fs as [|f fs IH]; intros lines H; simpl.
  - now rewrite app_nil_r.
  - inversion H; subst. unfold tsRelationFieldStep at 1, tsRelationLine at 1.
    destruct (Field.relation f); [|discriminate].
    destruct (Field.isList f); simpl; rewrite IH by assumption;
      unfold push; now rewrite <- app_assoc.
Qed.

Lemma tsRelationsStep_app config lines model :
  tsRelationsStep config lines model
  = Ok (lines ++ tsRelationsConstruct config model)%list.
Proof.
  unfold tsRelationsStep, tsRelationsConstruct. cbv zeta.
  fold (relationFieldsOf model).
  assert (F : Forall (fun f => isSome (Field.relation f) = true)
                     (relationFieldsOf model)).
  { apply Forall_forall. intros f Hf. apply filter_In in Hf.
    destruct Hf as (_ & Hf). apply andb_true_iff in Hf. tauto. }
  destruct (relationFieldsOf model) as [|f fs] eqn:E.
  - simpl. now rewrite app_nil_r.
  - change (0 <? List.length (f :: fs))%nat with true. cbv iota.
    rewrite tsRelationFields_app by assumption. cbn [bind].
    unfold push. rewrite pushIf_app.
    repeat (rewrite <- !app_assoc; simpl). reflexivity.
Qed.

Lemma tsLines_constructs schema config :
  tsLines schema config
  = Ok (flat_map (tsEnumConstruct config) (enums schema)
        ++ map tsBrand (models schema) ++ [EmptyString]
        ++ flat_map (tsFullConstruct schema config) (models schema)
        ++ flat_map (tsCreateConstruct schema config) (models schema)
        ++ flat_map (tsUpdateConstruct config) (models schema)
        ++ flat_map (tsRelationsConstruct config) (models schema)
        ++ tsUtilityLines)%list.
Proof.
  unfold tsLines. cbv zeta.
  assert (E : (if (0 <? List.length (enums schema))%nat
               then fold_left (tsEnumStep config) (enums schema) []
               else [])
              = flat_map (tsEnumConstruct config) (enums schema)).
  { rewrite (fold_left_push_flat_map _ _ (tsEnumStep_app config)).
    destruct (enums schema); reflexivity. }
  rewrite E.
  rewrite (fold_push_map tsBrand).
  rewrite (fold_left_push_flat_map _ _ (tsFullStep_app schema config)).
  rewrite (fold_left_push_flat_map _ _ (tsCreateStep_app schema config)).
  rewrite (fold_left_push_flat_map _ _ (tsUpdateStep_app config)).
  rewrite (forEach_flat_map (tsRelationsConstruct config)).
  2:{ apply Forall_forall. intros m _ ls. apply tsRelationsStep_app. }
  simpl. unfold push. repeat (rewrite <- !app_assoc; simpl). reflexivity.
Qed.

(** ** Comparing value lists *)

Lemma arraysEqual_at (b pre : list string) : forall a b',
  b = (pre ++ b')%list ->
  List.length a = List.length b' ->
  forallb (fun '(i, val) =>
             match nth_error b i with
             | Some x => String.eqb val x
             | None => false
             end)
          (combine (seq (List.length pre) (List.length a)) a) = true
  <-> a = b'.
Proof.
  intros a. revert pre.
  induction a as [|x a IH]; intros pre b' Hb Hl; destruct b' as [|y b'];
    simpl in Hl; try discriminate.
  - simpl. tauto.
  - simpl. subst b.
    rewrite nth_error_app2, Nat.sub_diag by lia. simpl.
    rewrite andb_true_iff, String.eqb_eq.
    specialize (IH (pre ++ [y])%list b').
    rewrite length_app in IH. simpl in IH. rewrite Nat.add_1_r in IH.
    rewrite IH; [|now rewrite <- app_assoc|lia].
    split; [intros (-> & ->); reflexivity|intros H; inversion H; auto].
Qed.

(** [arraysEqual] decides equality of the two lists. *)
Lemma arraysEqual_sameValues a b : arraysEqual a b = sameValues a b.
Proof.
  unfold arraysEqual, sameValues, indexed.
  destruct (list_eq_dec string_dec a b) as [->|N].
  - rewrite Nat.eqb_refl. simpl.
    apply (arraysEqual_at b [] b b); reflexivity.
  - destruct (List.length a =? List.length b)%nat eqn:L; simpl; [|reflexivity].
    apply Nat.eqb_eq in L.
    apply not_true_is_false. intros H. apply N.
    now apply (arraysEqual_at b [] a b).
Qed.

Lemma find_pointwise {A} (p q : A -> bool) l :
  (forall x, p x = q x) -> find p l = find q l.
Proof.
  intros H. induction l as [|x l IH]; simpl; [reflexivity|].
  rewrite H, IH. reflexivity.
Qed.

Lemma findTopEnum_topEnumFor field schema :
  findTopEnum field schema =
  match Field.enumValues field with
  | Some vs => topEnumFor schema vs
  | None => None
  end.
Proof.
  unfold findTopEnum, topEnumFor. destruct (Field.enumValues field) as [vs|].
  - apply find_pointwise. intros e. apply arraysEqual_sameValues.
  - induction (enums schema); simpl; auto.
Qed.

Lemma topEnumFor_Some schema vs e :
  topEnumFor schema vs = Some e -> In e (enums schema) /\ Enum.values e = vs.
Proof.
  unfold topEnumFor. intros H. apply find_some in H. destruct H as (I & H).
  split; [assumption|]. unfold sameValues in H.
  destruct (list_eq_dec string_dec (Enum.values e) vs); [assumption|discriminate].
Qed.

Lemma topEnumFor_None schema vs :
  topEnumFor schema vs = None ->
  forall e, In e (enums schema) -> Enum.values e <> vs.
Proof.
  unfold topEnumFor. intros H e I Heq.
  apply (find_none _ _ H) in I. unfold sameValues in I.
  destruct (list_eq_dec string_dec (Enum.values e) vs); [discriminate|contradiction].
Qed.

Lemma rendersBlock_In lines block x :
  rendersBlock lines block -> In x block -> In x lines.
Proof.
  intros (a & b & ->) H. apply in_or_app. right. apply in_or_app. now left.
Qed.

Lemma createFieldsOf_In model f :
  In f (createFieldsOf model) <->
  In f (Model.fields model) /\ Field.type f <> TRelation /\ Field.isId f = false
  /\ ~ In (Field.name f) ["createdAt"; "updatedAt"; "created_at"; "updated_at"].
Proof.
  unfold createFieldsOf. rewrite filter_In, !andb_true_iff, !negb_true_iff.
  rewrite isRelation_false.
  assert (E : existsb (String.eqb (Field.name f))
                ["createdAt"; "updatedAt"; "created_at"; "updated_at"] = false
              <-> ~ In (Field.name f)
                       ["createdAt"; "updatedAt"; "created_at"; "updated_at"]).
  { split.
    - intros H I. apply not_true_iff_false in H. apply H.
      apply existsb_exists. exists (Field.name f). split; [assumption|].
      apply String.eqb_refl.
    - intros H. apply not_true_iff_false. intros X. apply H.
      apply existsb_exists in X. destruct X as (x & I & X).
      apply String.eqb_eq in X. now subst. }
  rewrite E. tauto.
Qed.

(** ** The generated text against the text written out *)

Lemma quoted_inQuotes v : quoted v = inQuotes v.
Proof. reflexivity. Qed.

Lemma map_quoted vs : map quoted vs = map inQuotes vs.
Proof. apply map_ext. intros v. apply quoted_inQuotes. Qed.

Lemma lowerFirst_lowerInitial name : lowerFirst name = lowerInitial name.
Proof. destruct name; reflexivity. Qed.

(** The generator's base validator is the table's. *)
Lemma zodBaseType_table field schema strict :
  zodBaseType field schema strict = zodTableBase schema strict field.
Proof.
  unfold zodBaseType, zodTableBase. destruct (Field.isId field); [reflexivity|].
  destruct (Field.type field); try reflexivity.
  rewrite findTopEnum_topEnumFor.
  unfold zodEnumValidator, hasEnumValues, enumValuesOrEmpty.
  destruct (Field.enumValues field) as [vs|]; [|reflexivity].
  destruct (topEnumFor schema vs) as [e|].
  - now rewrite lowerFirst_lowerInitial.
  - destruct vs; [reflexivity|]. now rewrite map_quoted.
Qed.

Lemma zodFieldLine_property schema strict f :
  zodFieldLine schema strict f
  = zodProperty (Field.name f) (zodValidator schema strict f).
Proof.
  unfold zodFieldLine, zodProperty, zodValidator, zodFieldType, zodWrapped.
  cbv zeta. rewrite zodBaseType_table. destruct (Field.isRequired f); reflexivity.
Qed.

Lemma zodCreateConstruct_schema schema config model :
  zodCreateConstruct schema config model = zodCreateSchema schema config model.
Proof.
  unfold zodCreateConstruct, zodCreateSchema.
  now rewrite (map_ext _ _ (zodFieldLine_property schema (strictMode config))).
Qed.

(** The generator's base type is the printed base type of the field. *)
Lemma tsBaseType_print field modelName schema :
  tsBaseType field modelName schema = printTs (tsBaseOf schema modelName field).
Proof.
  unfold tsBaseType, tsBaseOf, tsTableType.
  destruct (Field.isId field); [reflexivity|].
  destruct (Field.type field); try reflexivity.
  rewrite findTopEnum_topEnumFor. unfold hasEnumValues, enumValuesOrEmpty.
  destruct (Field.enumValues field) as [vs|]; [|reflexivity].
  destruct (topEnumFor schema vs); [reflexivity|].
  destruct vs; [reflexivity|]. cbn [printTs]. now rewrite map_quoted.
Qed.

(** Except for the list of an inline union, the generator's type is the
    printed type of the field. *)
Lemma tsFieldType_print field modelName schema :
  unionList schema modelName field = false ->
  tsFieldType field modelName schema = printTs (tsTypeOf schema modelName field).
Proof.
  unfold unionList, tsFieldType, tsTypeOf, tsListOf. cbv zeta.
  rewrite tsBaseType_print. destruct (Field.isList field); [|reflexivity].
  cbn [andb printTs]. intros ->. reflexivity.
Qed.

Lemma typesAsSpecified_fieldType schema modelName fields :
  typesAsSpecified schema modelName (fun f => tsFieldType f modelName schema) fields.
Proof. apply Forall_forall. intros f _. apply tsFieldType_print. Qed.

Lemma tsFieldLine_property schema modelName f :
  tsFieldLine schema modelName f
  = tsProperty (Field.name f) (negb (Field.isRequired f))
               (tsFieldType f modelName schema).
Proof.
  unfold tsFieldLine, tsProperty, optionalMark.
  destruct (Field.isRequired f); reflexivity.
Qed.

Lemma tsFullConstruct_interface schema config model :
  tsFullConstruct schema config model
  = tsFullInterface config model (fun f => tsFieldType f (Model.name model) schema).
Proof.
  unfold tsFullConstruct, tsFullInterface.
  rewrite (flat_map_ext (tsFullProperty schema config (Model.name model))
             (fun f => tsDocComment config f
                       ++ [tsProperty (Field.name f) (negb (Field.isRequired f))
                             (tsFieldType f (Model.name model) schema)])%list);
    [reflexivity|].
  intros f. unfold tsFullProperty, tsDocComment. now rewrite tsFieldLine_property.
Qed.

Lemma tsCreateConstruct_input schema config model :
  tsCreateConstruct schema config model
  = tsCreateInput config model (fun f => tsFieldType f (Model.name model) schema).
Proof.
  unfold tsCreateConstruct, tsCreateInput.
  now rewrite (map_ext _ _ (tsFieldLine_property schema (Model.name model))).
Qed.

(** Where the constructs of a model stand in the output. *)
Lemma zodLines_model schema config model :
  In model (models schema) ->
  rendersBlock (zodLines schema config) (zodModelConstructs schema config model).
Proof.
  intros Hm. rewrite zodLines_constructs.
  pose proof (rendersBlock_flat_map (zodModelConstructs schema config)
                (models schema) model
                ([zodImportLine; ""] ++ flat_map (zodEnumConstruct config) (enums schema))%list
                [] Hm) as R.
  now rewrite app_nil_r, <- app_assoc in R.
Qed.

Lemma tsLines_full schema config model :
  In model (models schema) ->
  exists lines,
    tsLines schema config = Ok lines
    /\ rendersBlock lines (tsFullConstruct schema config model).
Proof.
  intros Hm. rewrite tsLines_constructs. eexists. split; [reflexivity|].
  match goal with
  | |- rendersBlock (?e ++ ?b ++ ?n ++ flat_map ?g ?ms ++ ?rest)%list _ =>
      replace (e ++ b ++ n ++ flat_map g ms ++ rest)%list
        with ((e ++ b ++ n) ++ flat_map g ms ++ rest)%list
        by (now rewrite <- !app_assoc)
  end.
  now apply rendersBlock_flat_map.
Qed.

(** The line of a data field in the full schema and in the full
    interface. *)
Lemma data_field_lines schema config model field :
  In model (models schema) ->
  In field (Model.fields model) ->
  Field.type field <> TRelation ->
  In (zodProperty (Field.name field)
        (zodValidator schema (strictMode config) field))
     (zodLines schema config)
  /\ exists lines,
       tsLines schema config = Ok lines
       /\ In (tsProperty (Field.name field) (negb (Field.isRequired field))
                (tsFieldType field (Model.name model) schema))
             lines.
Proof.
  intros Hm Hf Ht.
  assert (D : In field (dataFieldsOf model)).
  { unfold dataFieldsOf. apply filter_In. split; [assumption|].
    apply negb_true_iff. now apply isRelation_false. }
  split.
  - apply (rendersBlock_In _ _ _ (zodLines_model schema config model Hm)).
    unfold zodModelConstructs. apply in_or_app. left.
    unfold zodFullConstruct. apply in_or_app. right. right.
    apply in_or_app. left. rewrite <- zodFieldLine_property. now apply in_map.
  - destruct (tsLines_full schema config model Hm) as (lines & L & R).
    exists lines. split; [assumption|].
    apply (rendersBlock_In _ _ _ R). rewrite tsFullConstruct_interface.
    unfold tsFullInterface. apply in_or_app. right. right.
    apply in_or_app. left. apply in_flat_map. exists field.
    split; [assumption|]. apply in_or_app. right. now left.
Qed.

(* ====================================================================== *)
(** * Main results: the generators *)

(** C1. For every schema and configuration, and for each model, both
    generators render a create-input construct whose properties are, in
    order, exactly the model's non-relation fields that are neither the id
    field nor named [createdAt], [updatedAt], [created_at] or
    [updated_at]: each property is written out, with the name of its field,
    its validator in the Zod schema, and its optional mark and type in the
    interface; and the update-input construct is that create-input
    construct with every field made optional: the Zod generator writes it
    as [partial()] of the create schema, the type generator as [Partial] of
    the create input. *)
Theorem C1_create_update_shape : forall schema config,
  Forall (fun model =>
            rendersBlock (zodLines schema config)
              (zodCreateSchema schema config model
               ++ zodUpdateSchema config model)%list)
         (models schema)
  /\ generateZodSchemas schema config = join nl (zodLines schema config)
  /\ (exists lines,
         tsLines schema config = Ok lines
         /\ generateTypeDefinitions schema config = Ok (join nl lines)
         /\ Forall (fun model =>
                      exists typeOf,
                        rendersBlock lines (tsCreateInput config model typeOf)
                        /\ typesAsSpecified schema (Model.name model) typeOf
                             (createFieldsOf model)
                        /\ rendersBlock lines (tsUpdateInput config model))
                   (models schema))
  /\ (forall model f,
         In f (createFieldsOf model) <->
         In f (Model.fields model) /\ Field.type f <> TRelation
         /\ Field.isId f = false
         /\ ~ In (Field.name f) ["createdAt"; "updatedAt"; "created_at"; "updated_at"]).
Proof.
  intros schema config. split; [|split; [reflexivity|split]].
  - apply Forall_forall. intros model Hm.
    destruct (zodLines_model schema config model Hm) as (a & b & R).
    rewrite R. unfold zodModelConstructs.
    rewrite zodCreateConstruct_schema.
    change (zodUpdateConstruct config model) with (zodUpdateSchema config model).
    exists (a ++ zodFullConstruct schema config model)%list,
           (zodTypeAliases model ++ b)%list.
    now rewrite <- !app_assoc.
  - unfold generateTypeDefinitions. rewrite tsLines_constructs.
    eexists. split; [reflexivity|]. split; [reflexivity|].
    apply Forall_forall. intros model Hm.
    exists (fun f => tsFieldType f (Model.name model) schema).
    split; [|split].
    + rewrite <- tsCreateConstruct_input.
      match goal with
      | |- rendersBlock (?e ++ ?b ++ ?n ++ ?f ++ flat_map ?g ?ms ++ ?rest)%list _ =>
          replace (e ++ b ++ n ++ f ++ flat_map g ms ++ rest)%list
            with ((e ++ b ++ n ++ f) ++ flat_map g ms ++ rest)%list
            by (now rewrite <- !app_assoc)
      end.
      now apply rendersBlock_flat_map.
    + apply typesAsSpecified_fieldType.
    + change (tsUpdateInput config model) with (tsUpdateConstruct config model).
      match goal with
      | |- rendersBlock (?e ++ ?b ++ ?n ++ ?f ++ ?c ++ flat_map ?g ?ms ++ ?rest)%list _ =>
          replace (e ++ b ++ n ++ f ++ c ++ flat_map g ms ++ rest)%list
            with ((e ++ b ++ n ++ f ++ c) ++ flat_map g ms ++ rest)%list
            by (now rewrite <- !app_assoc)
      end.
      now apply rendersBlock_flat_map.
  - apply createFieldsOf_In.
Qed.

(** C6. In the output of [generateZodSchemas], a string field that is no id
    is rendered with the non-empty string validator exactly when
    [strictMode] is on and the field is required, and with the plain string
    validator otherwise; with [strictMode] off the plain validator is used
    even for a required field. *)
Theorem C6_strict_mode_string_validator :
  forall schema config model field,
    In model (models schema) ->
    In field (Model.fields model) ->
    Field.type field = TString ->
    Field.isId field = false ->
    zodBaseType field schema (strictMode config)
    = zodStringBase (strictMode config) field
    /\ (zodBaseType field schema (strictMode config) = "z.string().min(1)"
        <-> strictMode config = true /\ Field.isRequired field = true)
    /\ (strictMode config = false ->
        zodBaseType field schema (strictMode config) = "z.string()")
    /\ In ("  " ++ Field.name field ++ ": "
           ++ zodWrapped field (zodStringBase (strictMode config) field) ++ ",")
          (zodLines schema config).
Proof.
  intros schema config model field Hm Hf Ht Hi.
  assert (B : zodBaseType field schema (strictMode config)
              = zodStringBase (strictMode config) field).
  { unfold zodBaseType, zodStringBase. now rewrite Hi, Ht. }
  split; [exact B|]. split; [|split].
  - rewrite B. unfold zodStringBase.
    destruct (strictMode config), (Field.isRequired field); simpl;
      split; try tauto; try discriminate; intros (? & ?); discriminate.
  - intros S. rewrite B. unfold zodStringBase. now rewrite S.
  - rewrite zodLines_constructs.
    apply in_or_app. right. apply in_or_app. right.
    apply in_flat_map. exists model. split; [assumption|].
    unfold zodModelConstructs. apply in_or_app. left.
    unfold zodFullConstruct. apply in_or_app. right. right.
    apply in_or_app. left.
    replace ("  " ++ Field.name field ++ ": "
             ++ zodWrapped field (zodStringBase (strictMode config) field) ++ ",")
      with (zodFieldLine schema (strictMode config) field).
    + apply in_map. unfold dataFieldsOf. apply filter_In. split; [assumption|].
      now rewrite Ht.
    + unfold zodFieldLine, zodFieldType, zodWrapped. cbv zeta. rewrite B.
      destruct (Field.isRequired field); reflexivity.
Qed.

(** A required string field, rendered with [strictMode] off. *)
Lemma C6_lax_witness :
  In "  name: z.string()," (zodLines userSchema laxConfig).
Proof.
  destruct (C6_strict_mode_string_validator userSchema laxConfig
              {| Model.name := "User";
                 Model.fields := [ idField "id" TString; plainField "name" TString;
                                   enumField "role" ["ADMIN"; "EDITOR"; "AUTHOR"];
                                   plainField "createdAt" TDatetime ];
                 Model.description := None |}
              (plainField "name" TString))
    as (_ & _ & _ & H).
  - left. reflexivity.
  - right. left. reflexivity.
  - reflexivity.
  - reflexivity.
  - exact H.
Defined.

(** C7. For an enum-typed field of a model that is no id: when its
    [enumValues] equal the values of a top-level enum (same length, same
    elements, same order), the field's line in the output of both
    generators names the first such enum's construct, [<name>Schema] with a
    lower-case initial for Zod and [<name>] for the types, and that
    construct is declared in the output; when no top-level enum has these
    values, a non-empty [enumValues] is written inline on the field's line;
    and absent or empty [enumValues] give the plain string form.  The Zod
    line wraps the validator for a list and for an optional field; the
    type of a list field is followed by the array suffix. *)
Theorem C7_enum_fields_reference_top_level_enum :
  forall schema config model field,
    In model (models schema) ->
    In field (Model.fields model) ->
    Field.isId field = false ->
    Field.type field = TEnum ->
    exists lines,
      tsLines schema config = Ok lines
      /\ let zodLine validator :=
           zodProperty (Field.name field) (zodWrapped field validator) in
         let tsLine type :=
           tsProperty (Field.name field) (negb (Field.isRequired field))
                      (if Field.isList field then type ++ "[]" else type) in
         match Field.enumValues field with
         | Some vs =>
             match topEnumFor schema vs with
             | Some e =>
                 In e (enums schema) /\ Enum.values e = vs
                 /\ In (zodLine (lowerInitial (Enum.name e) ++ "Schema"))
                       (zodLines schema config)
                 /\ In (zodEnumDeclaration e) (zodLines schema config)
                 /\ In (tsLine (Enum.name e)) lines
                 /\ In (tsEnumDeclaration e) lines
             | None =>
                 (forall e, In e (enums schema) -> Enum.values e <> vs)
                 /\ match vs with
                    | [] =>
                        In (zodLine "z.string()") (zodLines schema config)
                        /\ In (tsLine "string") lines
                    | _ =>
                        In (zodLine ("z.enum([" ++ join ", " (map inQuotes vs) ++ "])"))
                           (zodLines schema config)
                        /\ In (tsLine (join " | " (map inQuotes vs))) lines
                    end
             end
         | None =>
             In (zodLine "z.string()") (zodLines schema config)
             /\ In (tsLine "string") lines
         end.
Proof.
  intros schema config model field Hm Hf Hi Ht.
  destruct (data_field_lines schema config model field Hm Hf) as (Z & lines & L & T).
  { rewrite Ht. discriminate. }
  exists lines. split; [exact L|]. cbv zeta.
  unfold zodValidator, zodTableBase in Z. rewrite Hi, Ht in Z.
  unfold tsFieldType in T. cbv zeta in T. rewrite tsBaseType_print in T.
  unfold tsBaseOf, tsTableType in T. rewrite Hi, Ht in T.
  unfold zodEnumValidator in Z.
  destruct (Field.enumValues field) as [vs|]; [|split; assumption].
  destruct (topEnumFor schema vs) as [e|] eqn:E.
  - destruct (topEnumFor_Some _ _ _ E) as (I & V).
    repeat split; auto.
    + rewrite zodLines_constructs. apply in_or_app. right. apply in_or_app. left.
      apply in_flat_map. exists e. split; [assumption|].
      unfold zodEnumConstruct. apply in_or_app. right. left.
      unfold zodEnumDeclaration. now rewrite lowerFirst_lowerInitial, map_quoted.
    + rewrite tsLines_constructs in L. injection L as <-.
      apply in_or_app. left. apply in_flat_map. exists e. split; [assumption|].
      unfold tsEnumConstruct. apply in_or_app. right. left.
      unfold tsEnumDeclaration. now rewrite map_quoted.
  - split; [now apply topEnumFor_None|]. destruct vs; split; assumption.
Qed.

(** The role of a user, whose values are those of the top-level [Role]. *)
Lemma C7_role_witness :
  In "  role: roleSchema," (zodLines userSchema defaultConfig)
  /\ exists lines,
       tsLines userSchema defaultConfig = Ok lines /\ In "  role: Role;" lines.
Proof.
  destruct (C7_enum_fields_reference_top_level_enum userSchema defaultConfig
              {| Model.name := "User";
                 Model.fields := [ idField "id" TString; plainField "name" TString;
                                   enumField "role" ["ADMIN"; "EDITOR"; "AUTHOR"];
                                   plainField "createdAt" TDatetime ];
                 Model.description := None |}
              (enumField "role" ["ADMIN"; "EDITOR"; "AUTHOR"]))
    as (lines & L & _ & _ & Z & _ & T & _).
  - left. reflexivity.
  - right. right. left. reflexivity.
  - reflexivity.
  - reflexivity.
  - split; [exact Z|]. exists lines. split; [exact L|exact T].
Defined.

Lemma not_fullInterfacesByTable schema config model x :
  models schema = [model] ->
  In x (tsFullInterface config model (fun f => printTs (tsTypeByTable schema f))) ->
  (forall lines, tsLines schema config = Ok lines -> ~ In x lines) ->
  ~ fullInterfacesByTable schema config.
Proof.
  intros M X N (lines & L & F). rewrite M in F. apply Forall_inv in F.
  apply (N lines L). eapply rendersBlock_In; eauto.
Qed.

(** The sentence of the specification fails twice.  An id field of type
    [string] is rendered as the branded [UserId], not as the table's
    [string]: the full interface of [userSchema] is not the one the table
    gives.  And a list of an inline union is not rendered as the array of
    that union: the interface of [postSchema] has the union followed by the
    array suffix, which is a union whose last member is an array. *)
Lemma C8_id_field_counterexample :
  ~ fullInterfacesByTable userSchema defaultConfig
  /\ ~ fullInterfacesByTable postSchema defaultConfig.
Proof.
  split.
  - eapply (not_fullInterfacesByTable _ _ _ "  id: string;"); [reflexivity| |].
    + vm_compute. tauto.
    + intros lines L. vm_compute in L. injection L as <-. intros I.
      repeat (destruct I as [I|I]; [discriminate I|]). exact I.
  - eapply (not_fullInterfacesByTable _ _ _
              (tsProperty "labels" false
                 (printTs (TsArray (TsUnion ["DRAFT"; "LIVE"])))));
      [reflexivity| |].
    + vm_compute. tauto.
    + intros lines L. vm_compute in L. injection L as <-. intros I.
      vm_compute in I.
      repeat (destruct I as [I|I]; [discriminate I|]). exact I.
Qed.

(** C8, amended. For every schema and configuration the type generator
    returns, and the full interface of every model lists, in order, every
    non-relation field of the model as a property with the name of the
    field, marked optional exactly when the field is not required.  The
    type of the property is the one the specification gives: a field that
    is the id has the branded [<Model>Id]; every other field goes through
    the fixed table (string, number, boolean, [Date] for date and datetime,
    for an enum the name of the top-level enum with exactly its values,
    else the inline union of its values, else string, and the string-keyed
    record for json); and a list field has the array of that base type.
    The one field whose type is left open is the list of an inline union
    of two or more values. *)
Theorem C8_full_interface_fields : forall schema config,
  exists lines,
    tsLines schema config = Ok lines
    /\ generateTypeDefinitions schema config = Ok (join nl lines)
    /\ Forall (fun model =>
                 exists typeOf,
                   rendersBlock lines (tsFullInterface config model typeOf)
                   /\ typesAsSpecified schema (Model.name model) typeOf
                        (dataFieldsOf model)
                   /\ (forall f, In f (dataFieldsOf model) <->
                                 In f (Model.fields model)
                                 /\ Field.type f <> TRelation))
              (models schema).
Proof.
  intros schema config. unfold generateTypeDefinitions.
  destruct (tsLines schema config) as [lines| |] eqn:L;
    try (rewrite tsLines_constructs in L; discriminate).
  exists lines. split; [reflexivity|]. split; [reflexivity|].
  apply Forall_forall. intros model Hm.
  exists (fun f => tsFieldType f (Model.name model) schema).
  split; [|split].
  - destruct (tsLines_full schema config model Hm) as (lines' & L' & R).
    rewrite L in L'. injection L' as <-. now rewrite <- tsFullConstruct_interface.
  - apply typesAsSpecified_fieldType.
  - intros f. unfold dataFieldsOf.
    rewrite filter_In, negb_true_iff, isRelation_false. tauto.
Qed.


(* ====================================================================== *)
(** * The examples of the specification, run on the model *)

(** An enum block followed by a model block: the model's lines are
    resolved against that enum. *)
Lemma prisma_enum_block_then_model_block
      eheader ebody eclosing ename header body closing post name :
  Forall isLine ((eheader :: ebody ++ [eclosing])
                 ++ header :: body ++ closing :: post)%list ->
  opensEnum eheader ename ->
  Forall (fun l => bodyLine l = true) ebody ->
  trim eclosing = "}" ->
  opensModel header name ->
  Forall (fun l => bodyLine l = true) body ->
  trim closing = "}" ->
  exists d laterModels laterEnums,
    parsePrismaSchema
      (join nl ((eheader :: ebody ++ [eclosing])
                ++ header :: body ++ closing :: post)%list) = Ok d
    /\ models d =
       {| Model.name := name;
          Model.fields :=
            flat_map (fieldOfLine [ {| Enum.name := ename;
                                       Enum.values := enumValuesOf ebody |} ])
                     (map trim body);
          Model.description := None |} :: laterModels
    /\ enums d = {| Enum.name := ename; Enum.values := enumValuesOf ebody |}
                   :: laterEnums.
Proof.
  intros HL He Heb Hec Ho Hb Hc.
  pose proof (prisma_enum_block prismaInit eheader ebody eclosing ename He Heb Hec) as E.
  assert (Hi : Forall (fun l => innerLine l = true) body).
  { eapply Forall_impl; [|exact Hb]. apply bodyLine_innerLine. }
  destruct (parsePrismaSchema_model_block _ _ _ _ _ _ _ HL E Ho Hi Hc)
    as (d & ms & es & P & M & N).
  exists d, ms, es. auto.
Qed.

(** Arrays on both sides of a relation still give [one-to-many] twice. *)
Example prisma_arrays_on_both_sides :
  match parsePrismaSchema
          (join nl ["model Post {"; "  tags Tag[]"; "}";
                    "model Tag {"; "  posts Post[]"; "  owner User?"; "}"]) with
  | Ok d =>
      map (fun m => map (fun f => option_map Relation.type (Field.relation f))
                        (Model.fields m))
          (models d)
  | _ => []
  end
  = [[Some OneToMany]; [Some OneToMany; Some OneToOne]].
Proof. vm_compute. reflexivity. Qed.

(** One model with the fields [id], [email] and [name], in that order. *)
Example prisma_round_trip :
  match parsePrismaSchema
          (join nl ["model Account {"; "  id    String @id";
                    "  email String @unique"; "  name  String"; "}"]) with
  | Ok d =>
      map (fun m => (Model.name m,
                     map (fun f => (Field.name f, Field.isId f, Field.isUnique f))
                         (Model.fields m)))
          (models d)
  | _ => []
  end
  = [("Account", [("id", true, false); ("email", false, true);
                  ("name", false, false)])].
Proof. vm_compute. reflexivity. Qed.

Example sql_customers :
  match parseSqlSchema
          "CREATE TABLE customers (id UUID PRIMARY KEY, email VARCHAR(255) NOT NULL UNIQUE)"
  with
  | Ok d =>
      map (fun m => (Model.name m,
                     map (fun f => (Field.name f, Field.type f, Field.isId f,
                                    Field.isRequired f, Field.isUnique f))
                         (Model.fields m)))
          (models d)
  | _ => []
  end
  = [("Customers", [("id", TString, true, true, false);
                    ("email", TString, false, true, true)])].
Proof. vm_compute. reflexivity. Qed.

(** The comma inside the parentheses does not split. *)
Example splitColumns_nested_comma :
  splitColumns "price DECIMAL(10,2) NOT NULL, sku VARCHAR(100)"
  = ["price DECIMAL(10,2) NOT NULL"; " sku VARCHAR(100)"].
Proof. reflexivity. Qed.

(** A table constraint and a column without a type are left out. *)
Example sql_unparseable_column :
  fieldTypesOf
    (parseSqlSchema
       "CREATE TABLE t (id INT PRIMARY KEY, broken, PRIMARY KEY (id), note TEXT)")
  = [("T", [("id", TNumber, None); ("note", TString, None)])].
Proof. vm_compute. reflexivity. Qed.

(** A type name that an object literal inherits is not looked up in the
    table and is no relation. *)
Example prisma_inherited_type_name :
  fieldTypesOf
    (parsePrismaSchema (join nl ["model M {"; "  owner constructor"; "}"]))
  = [("M", [("owner", TInherited "constructor", None)])].
Proof. vm_compute. reflexivity. Qed.


(* ====================================================================== *)
(** * Further properties: the helpers of the SQL parser *)

Lemma sapp_assoc (a b c : string) : (a ++ b) ++ c = a ++ b ++ c.
Proof. induction a as [|x a IH]; simpl; [reflexivity|now rewrite IH]. Qed.

Lemma sapp_nil_r (a : string) : a ++ "" = a.
Proof. induction a as [|x a IH]; simpl; [reflexivity|now rewrite IH]. Qed.

Lemma join_snoc sep l x :
  join sep (l ++ [x])%list
  = match l with
    | [] => x
    | _ => join sep l ++ sep ++ x
    end.
Proof.
  induction l as [|y l IH]; [reflexivity|].
  destruct l as [|z l]; [reflexivity|].
  change (join sep ((y :: z :: l) ++ [x])%list)
    with (y ++ sep ++ join sep ((z :: l) ++ [x])%list).
  rewrite IH. change (join sep (y :: z :: l)) with (y ++ sep ++ join sep (z :: l)).
  now rewrite !sapp_assoc.
Qed.

(** The loop of [splitColumns] loses no character: the pieces and the
    current piece, joined by commas, are the text read so far. *)
Lemma splitColumnsLoop_join : forall body depth current result,
  let '(r, c) := splitColumnsLoop body depth current result in
  join "," (r ++ [c])%list = join "," (result ++ [current])%list ++ body.
Proof.
  induction body as [|ch body IH]; intros depth current result; simpl.
  - now rewrite sapp_nil_r.
  - match goal with
    | |- context [if ?c then _ else _] => destruct c eqn:E
    end.
    + specialize (IH (if Ascii.eqb ch "(" then (depth + 1)%Z
                      else if Ascii.eqb ch ")" then (depth - 1)%Z else depth)
                     EmptyString (result ++ [current])%list).
      destruct (splitColumnsLoop body _ EmptyString (result ++ [current])%list)
        as (r, c).
      rewrite IH. apply andb_true_iff in E. destruct E as (E & _).
      apply Ascii.eqb_eq in E. subst ch.
      rewrite join_snoc. destruct (result ++ [current])%list eqn:L.
      * destruct result; discriminate.
      * now rewrite sapp_nil_r, sapp_assoc.
    + specialize (IH (if Ascii.eqb ch "(" then (depth + 1)%Z
                      else if Ascii.eqb ch ")" then (depth - 1)%Z else depth)
                     (current ++ String ch EmptyString) result).
      destruct (splitColumnsLoop body _ (current ++ String ch EmptyString) result)
        as (r, c).
      rewrite IH. rewrite !join_snoc.
      destruct result; now rewrite !sapp_assoc.
Qed.

(** X1. [splitColumns] only cuts at commas and drops nothing but a blank
    last piece: joining its pieces with commas gives the body back, up to a
    piece of white space after the last cut. *)
Theorem splitColumns_join body :
  exists tail,
    isEmpty (trim tail) = true
    /\ (join "," (splitColumns body) = body
        \/ join "," (splitColumns body ++ [tail])%list = body).
Proof.
  unfold splitColumns.
  pose proof (splitColumnsLoop_join body 0%Z EmptyString []) as H.
  destruct (splitColumnsLoop body 0 "" []) as (r, c). simpl in H.
  destruct (truthy (trim c)) eqn:T.
  - exists EmptyString. split; [reflexivity|]. left. exact H.
  - exists c. split; [|right; exact H].
    unfold truthy in T. now apply negb_false_iff in T.
Qed.

(** A stretch without parentheses is read into the current piece, provided
    it holds no comma or the depth is not zero. *)
Lemma splitColumnsLoop_plain : forall s rest depth current result,
  noParens s = true ->
  (depth <> 0%Z \/ occurs "," s = false) ->
  splitColumnsLoop (s ++ rest) depth current result
  = splitColumnsLoop rest depth (current ++ s) result.
Proof.
  induction s as [|ch s IH]; intros rest depth current result Hp Hc; simpl.
  - now rewrite sapp_nil_r.
  - unfold noParens in Hp. simpl in Hp.
    rewrite !negb_orb in Hp. apply andb_true_iff in Hp.
    destruct Hp as (Hp1 & Hp2).
    apply andb_true_iff in Hp1, Hp2.
    destruct Hp1 as (O1 & O2), Hp2 as (C1 & C2).
    apply negb_true_iff in O1, C1. rewrite O1, C1.
    assert (E : Ascii.eqb ch "," && (depth =? 0)%Z = false).
    { destruct Hc as [Hd|Hc].
      - apply Z.eqb_neq in Hd. rewrite Hd. apply andb_false_r.
      - simpl in Hc. apply orb_false_iff in Hc. destruct Hc as (Hc & _).
        now rewrite Hc. }
    rewrite E. rewrite IH.
    + now rewrite sapp_assoc.
    + unfold noParens. now rewrite O2, C2.
    + destruct Hc as [Hd|Hc]; [now left|right].
      simpl in Hc. apply orb_false_iff in Hc. tauto.
Qed.

(** A text that holds a character other than white space is not blank. *)
Lemma truthy_trim_nonblank a c b :
  isSpace c = false -> truthy (trim (a ++ String c b)) = true.
Proof.
  intros Hc. unfold truthy, trim.
  assert (N : forall x y, isEmpty (trimEnd (x ++ String c y)) = false).
  { induction x as [|z x IH]; intros y; simpl.
    - rewrite Hc. reflexivity.
    - rewrite IH. now rewrite andb_false_r. }
  assert (M : forall x y, exists x', trimStart (x ++ String c y) = x' ++ String c y).
  { induction x as [|z x IH]; intros y; simpl.
    - rewrite Hc. exists EmptyString. reflexivity.
    - destruct (isSpace z); [apply IH|]. exists (String z x). reflexivity. }
  destruct (M a b) as (a' & ->). now rewrite N.
Qed.

(** X2. A column definition with one group of parentheses is a single
    piece, whatever commas stand between the parentheses. *)
Theorem splitColumns_keeps_parenthesised_commas before inner after_ :
  noParens before = true -> occurs "," before = false ->
  noParens inner = true ->
  noParens after_ = true -> occurs "," after_ = false ->
  splitColumns (before ++ "(" ++ inner ++ ")" ++ after_)
  = [before ++ "(" ++ inner ++ ")" ++ after_].
Proof.
  intros Hb1 Hb2 Hi Ha1 Ha2. unfold splitColumns.
  rewrite splitColumnsLoop_plain by auto.
  change ("(" ++ inner ++ ")" ++ after_) with (String "(" (inner ++ ")" ++ after_)).
  cbn [splitColumnsLoop]. change (Ascii.eqb "(" "(") with true. cbv iota.
  change (Ascii.eqb "(" ",") with false. cbn [andb].
  rewrite splitColumnsLoop_plain by (auto; left; discriminate).
  change (")" ++ after_) with (String ")" after_).
  cbn [splitColumnsLoop]. change (Ascii.eqb ")" "(") with false.
  change (Ascii.eqb ")" ")") with true. cbv iota.
  change (Ascii.eqb ")" ",") with false. cbn [andb].
  replace after_ with (after_ ++ "") at 1 by apply sapp_nil_r.
  rewrite splitColumnsLoop_plain by auto.
  cbn [splitColumnsLoop].
  assert (E : (((("" ++ before) ++ "(") ++ inner) ++ ")") ++ after_
              = before ++ String "(" (inner ++ String ")" after_)).
  { cbn [append]. now rewrite !sapp_assoc. }
  rewrite E. rewrite truthy_trim_nonblank by reflexivity. reflexivity.
Qed.

(** A decimal column with precision and scale. *)
Lemma splitColumns_decimal_witness :
  splitColumns ("price DECIMAL" ++ "(" ++ "10,2" ++ ")" ++ " NOT NULL")
  = ["price DECIMAL" ++ "(" ++ "10,2" ++ ")" ++ " NOT NULL"].
Proof.
  apply (splitColumns_keeps_parenthesised_commas "price DECIMAL" "10,2" " NOT NULL");
    reflexivity.
Defined.

Lemma allChars_app p a b :
  allChars p (a ++ b) = allChars p a && allChars p b.
Proof.
  induction a as [|c a IH]; simpl; [reflexivity|].
  now rewrite IH, andb_assoc.
Qed.

Lemma allChars_smap p f s :
  (forall c, p c = true -> p (f c) = true) ->
  allChars p s = true -> allChars p (smap f s) = true.
Proof.
  intros Hf. induction s as [|c s IH]; simpl; [reflexivity|].
  intros H. apply andb_true_iff in H. destruct H as (H1 & H2).
  now rewrite (Hf c H1), (IH H2).
Qed.

Lemma allChars_join_empty p l :
  Forall (fun w => allChars p w = true) l -> allChars p (join "" l) = true.
Proof.
  induction 1 as [|w l Hw _ IH]; [reflexivity|].
  destruct l as [|w' l]; [exact Hw|].
  change (join "" (w :: w' :: l)) with (w ++ join "" (w' :: l)).
  now rewrite allChars_app, Hw, IH.
Qed.

Lemma splitRuns_pieces sep : forall s prevSep,
  Forall (fun w => allChars (fun c => negb (sep c)) w = true)
         (splitRuns sep s prevSep).
Proof.
  induction s as [|c s IH]; intros prevSep; simpl.
  - repeat constructor.
  - destruct (sep c) eqn:E.
    + destruct prevSep; [apply IH|constructor; [reflexivity|apply IH]].
    + specialize (IH false). destruct (splitRuns sep s false) as [|h t].
      * repeat constructor. simpl. now rewrite E.
      * inversion IH; subst. constructor; [|assumption].
        simpl. now rewrite E.
Qed.

Lemma charToUpper_keeps_nonseparator c :
  negb (wordSeparator c) = true -> negb (wordSeparator (charToUpper c)) = true.
Proof.
  destruct c as [[] [] [] [] [] [] [] []]; vm_compute; intros; congruence.
Qed.

Lemma charToLower_keeps_nonseparator c :
  negb (wordSeparator c) = true -> negb (wordSeparator (charToLower c)) = true.
Proof.
  destruct c as [[] [] [] [] [] [] [] []]; vm_compute; intros; congruence.
Qed.

Lemma charToLower_not_upper c : isUpper (charToLower c) = false.
Proof. destruct c as [[] [] [] [] [] [] [] []]; vm_compute; reflexivity. Qed.

Lemma toPascalCase_noSeparators str : noSeparators (toPascalCase str) = true.
Proof.
  unfold noSeparators, toPascalCase. apply allChars_join_empty.
  apply Forall_map.
  eapply Forall_impl; [|apply (splitRuns_pieces wordSeparator str false)].
  intros w Hw. simpl in Hw. rewrite allChars_app. apply andb_true_iff. split.
  - destruct w as [|c w]; [reflexivity|].
    simpl in Hw. apply andb_true_iff in Hw. destruct Hw as (Hc & _).
    cbn [charAt0 toUpperCase]. rewrite sapp_nil_r. unfold upperOf.
    destruct (code c =? 223)%nat; [reflexivity|].
    cbn [allChars]. now rewrite (charToUpper_keeps_nonseparator c Hc).
  - apply allChars_smap; [apply charToLower_keeps_nonseparator|].
    destruct w as [|c w]; simpl in *; [reflexivity|].
    apply andb_true_iff in Hw. tauto.
Qed.

(** The camel-case name is the Pascal-case name with its first letter
    lowered. *)
Lemma toCamelCase_shape str :
  noSeparators (toCamelCase str) = true
  /\ headIs isUpper (toCamelCase str) = false.
Proof.
  pose proof (toPascalCase_noSeparators str) as P.
  unfold toCamelCase, noSeparators in *. cbv zeta.
  destruct (toPascalCase str) as [|c s]; [split; reflexivity|].
  simpl in *. apply andb_true_iff in P. destruct P as (P1 & P2).
  rewrite P2, (charToLower_keeps_nonseparator c P1).
  split; [reflexivity|apply charToLower_not_upper].
Qed.

(** X3. Whatever the identifier, [toPascalCase] and [toCamelCase] return a
    name without underscore, hyphen or white space, and the camel-case name
    does not start with an upper-case letter. *)
Theorem case_conversions_remove_separators str :
  noSeparators (toPascalCase str) = true
  /\ noSeparators (toCamelCase str) = true
  /\ headIs isUpper (toCamelCase str) = false.
Proof.
  split.
  - apply toPascalCase_noSeparators.
  - apply toCamelCase_shape.
Qed.

(** What [parseSqlColumn] puts into the field it returns. *)
Lemma parseSqlColumn_shapes def known f :
  parseSqlColumn def known = Ok (Some f) ->
  sqlRelationShape f /\ sqlFlagsShape f.
Proof.
  intros H. destruct (jsMatch true columnPattern def) as [m|] eqn:E.
  2:{ rewrite (parseSqlColumn_unmatched _ _ E) in H. discriminate. }
  destruct (jsMatch_capStr _ _ _ _ 1 E eq_refl) as (name & Hn & _).
  destruct (jsMatch_capStr _ _ _ _ 2 E eq_refl) as (rawType & Hr & _).
  destruct (jsMatch_capStr _ _ _ _ 4 E eq_refl) as (rest & Hs & _).
  unfold parseSqlColumn in H. rewrite E, Hn, Hr, Hs in H. simpl in H.
  assert (D : forall o : option string,
             match o with
             | Some d => if truthy d then Some d else None
             | None => None
             end <> Some EmptyString).
  { intros [[|c d]|]; simpl; discriminate. }
  assert (Nm : noSeparators (toCamelCase name) = true)
    by apply toCamelCase_shape.
  destruct (jsMatch true referencesPattern rest) as [rm|] eqn:ER.
  - destruct (jsMatch_capStr _ _ _ _ 1 ER eq_refl) as (table & Ht & _).
    rewrite Ht in H. simpl in H. inversion H; subst f; clear H.
    unfold sqlRelationShape, sqlFlagsShape. simpl. repeat split; auto.
    + apply toPascalCase_noSeparators.
    + destruct (includes (toUpperCase rest) "PRIMARY KEY"
                || includes (toUpperCase rest) "SERIAL"); simpl;
        [apply orb_true_r|reflexivity].
  - inversion H; subst f; clear H.
    unfold sqlRelationShape, sqlFlagsShape. simpl. repeat split; auto.
    + destruct (isSome (find _ known)); [discriminate|].
      apply mapSqlType_scalar.
    + destruct (includes (toUpperCase rest) "PRIMARY KEY"
                || includes (toUpperCase rest) "SERIAL"); simpl;
        [apply orb_true_r|reflexivity].
Qed.


(** X5. In every result of [parseSqlSchema] an id field is required, no
    field has the empty string as default or a description, and no model
    name or field name holds an underscore, a hyphen or white space. *)
Theorem sql_fields_flags_and_names input :
  exists d,
    parseSqlSchema input = Ok d
    /\ allFields sqlFlagsShape (models d)
    /\ Forall (fun m => noSeparators (Model.name m) = true) (models d).
Proof.
  destruct (parseSqlSchema_total input) as (d & H & F).
  exists d. split; [assumption|]. split.
  - eapply allFields_impl; [|exact F]. simpl.
    intros f (def & known & P). eapply parseSqlColumn_shapes; eauto.
  - rewrite parseSqlSchema_spec in H. inversion H; subst d. simpl.
    apply Forall_map. apply Forall_forall. intros m _. simpl.
    apply toPascalCase_noSeparators.
Qed.


(* ====================================================================== *)
(** * Further properties: the line loop of the Prisma parser *)

(** An anchored pattern that starts with a literal does not match a text
    that starts with another character. *)
Lemma jsMatch_anchored_other_start x r r' c s :
  Ascii.eqb x c = false ->
  jsMatch false (Seq Bol (Seq (Seq (Chr (One (AChar x))) r) r')) (String c s) = None.
Proof.
  intros H. unfold jsMatch. cbn [searchFrom]. unfold matchAt.
  cbn [rmatch pos rest Nat.eqb csetMatches atomMatches charEq]. rewrite H.
  apply searchFrom_anchor_later. lia.
Qed.

Lemma blockStart_other_start c s :
  Ascii.eqb "m" c = false -> Ascii.eqb "e" c = false ->
  jsMatch false modelStart (String c s) = None
  /\ jsMatch false enumStart (String c s) = None.
Proof.
  intros Hm He. split.
  - apply (jsMatch_anchored_other_start "m" (lit "odel")). exact Hm.
  - apply (jsMatch_anchored_other_start "e" (lit "num")). exact He.
Qed.

(** X6. A blank line, a comment line and a block attribute line leave the
    state of the parser as it is, inside a block and outside. *)
Theorem prismaStep_skips_comments st l :
  skippedLine l = true -> prismaStep st l = Ok st.
Proof.
  intros H. pose proof H as S.
  apply skippedLine_start in H. unfold prismaStep. cbv zeta.
  unfold skippedLine in S.
  destruct H as [E|[(rest & E)|(rest & E)]]; rewrite E in *.
  - change (jsMatch false modelStart "") with (@None mstate).
    change (jsMatch false enumStart "") with (@None mstate).
    cbv iota. simpl. destruct (currentBlock st); reflexivity.
  - destruct (blockStart_other_start "/" (String "/" rest) eq_refl eq_refl)
      as (-> & ->).
    cbv iota. change (String.eqb (String "/" (String "/" rest)) "}") with false.
    cbv iota. destruct (currentBlock st); [|reflexivity].
    assert (P : startsWith (String "/" (String "/" rest)) "//" = true).
    { unfold startsWith. cbn [String.prefix].
      destruct (ascii_dec "/" "/"); [|congruence]. destruct rest; reflexivity. }
    rewrite P. reflexivity.
  - destruct (blockStart_other_start "@" (String "@" rest) eq_refl eq_refl)
      as (-> & ->).
    cbv iota. change (String.eqb (String "@" (String "@" rest)) "}") with false.
    cbv iota. destruct (currentBlock st); [|reflexivity].
    assert (P : startsWith (String "@" (String "@" rest)) "@@" = true).
    { unfold startsWith. cbn [String.prefix].
      destruct (ascii_dec "@" "@"); [|congruence]. destruct rest; reflexivity. }
    rewrite P. now rewrite andb_false_r.
Qed.

(** A comment between two field lines. *)
Lemma prismaStep_skip_witness :
  prismaStep prismaInit "  // the owner of the post" = Ok prismaInit
  /\ prismaStep prismaInit "  @@index([authorId])" = Ok prismaInit.
Proof.
  split; apply prismaStep_skips_comments; reflexivity.
Defined.

(** The five things one turn of the line loop can do. *)
Lemma prismaStep_cases st l st' :
  prismaStep st l = Ok st' ->
  (exists bt name,
      st' = {| pmodels := pmodels st; penums := penums st;
               currentBlock := Some {| btype := bt; bname := name; blines := [] |} |})
  \/ (exists b,
         currentBlock st = Some b /\ btype b = BModel
         /\ st' = {| pmodels := (pmodels st ++
                        [ {| Model.name := bname b;
                             Model.fields := flat_map (fieldOfLine (penums st)) (blines b);
                             Model.description := None |} ])%list;
                     penums := penums st; currentBlock := None |})
  \/ (exists b,
         currentBlock st = Some b /\ btype b = BEnum
         /\ st' = {| pmodels := pmodels st;
                     penums := (penums st ++
                        [ {| Enum.name := bname b;
                             Enum.values :=
                               filter (fun l => truthy l && negb (startsWith l "//"))
                                      (map trim (blines b)) |} ])%list;
                     currentBlock := None |})
  \/ (exists b,
         currentBlock st = Some b /\ storedLine (trim l)
         /\ st' = {| pmodels := pmodels st; penums := penums st;
                     currentBlock :=
                       Some {| btype := btype b; bname := bname b;
                               blines := (blines b ++ [trim l])%list |} |})
  \/ st' = st.
Proof.
  unfold prismaStep. cbv zeta.
  destruct (jsMatch false modelStart (trim l)).
  { intros H. apply bind_Ok in H. destruct H as (n & _ & H). inversion H.
    left. eauto. }
  destruct (jsMatch false enumStart (trim l)).
  { intros H. apply bind_Ok in H. destruct H as (n & _ & H). inversion H.
    left. eauto. }
  destruct (String.eqb (trim l) "}") eqn:C, (currentBlock st) as [b|] eqn:B.
  - destruct (btype b) eqn:T; intros H.
    + rewrite parseModelFields_flat_map in H. simpl in H. inversion H.
      right. left. exists b. auto.
    + inversion H. right. right. left. exists b. auto.
  - intros H. inversion H. repeat right. reflexivity.
  - destruct (truthy (trim l) && negb (startsWith (trim l) "//")
              && negb (startsWith (trim l) "@@")) eqn:P;
      intros H; inversion H; [|repeat right; reflexivity].
    right. right. right. left. exists b. split; [reflexivity|]. split; [|reflexivity].
    apply andb_true_iff in P. destruct P as (P & P3).
    apply andb_true_iff in P. destruct P as (P1 & P2).
    apply negb_true_iff in P2, P3. unfold truthy in P1. apply negb_true_iff in P1.
    apply String.eqb_neq in C. repeat split; eauto.
  - intros H. inversion H. repeat right. reflexivity.
Qed.

(** An invariant of the five cases is an invariant of the loop. *)
Lemma prismaLoop_invariant (I : PrismaState -> Prop) :
  (forall st l st', prismaStep st l = Ok st' -> I st -> I st') ->
  forall lines st st', forEach prismaStep lines st = Ok st' -> I st -> I st'.
Proof.
  intros Step. induction lines as [|l lines IH]; intros st st' H Hst; simpl in H.
  - inversion H; subst. assumption.
  - apply bind_Ok in H. destruct H as (st1 & H1 & H2). eauto.
Qed.

(** A line that is no closing brace adds no model and no enum. *)
Lemma prismaStep_no_close st l :
  closingLine l = false ->
  exists st', prismaStep st l = Ok st'
              /\ pmodels st' = pmodels st /\ penums st' = penums st.
Proof.
  unfold closingLine. intros C. unfold prismaStep. cbv zeta.
  destruct (jsMatch false modelStart (trim l)) as [m|] eqn:EM.
  { destruct (jsMatch_capStr _ _ _ _ 1 EM eq_refl) as (v & -> & _).
    cbn [bind]. eauto. }
  destruct (jsMatch false enumStart (trim l)) as [m|] eqn:EE.
  { destruct (jsMatch_capStr _ _ _ _ 1 EE eq_refl) as (v & -> & _).
    cbn [bind]. eauto. }
  rewrite C. destruct (currentBlock st) as [b|]; [|eauto].
  destruct (truthy (trim l) && negb (startsWith (trim l) "//")
            && negb (startsWith (trim l) "@@")); eauto.
Qed.

Lemma prismaLoop_no_close lines : forall st,
  Forall (fun l => closingLine l = false) lines ->
  exists st', forEach prismaStep lines st = Ok st'
              /\ pmodels st' = pmodels st /\ penums st' = penums st.
Proof.
  induction lines as [|l lines IH]; intros st H.
  - exists st. auto.
  - inversion H; subst. cbn [forEach].
    destruct (prismaStep_no_close st l) as (st1 & -> & M1 & E1); [assumption|].
    cbn [bind]. destruct (IH st1) as (st2 & -> & M2 & E2); [assumption|].
    exists st2. rewrite M2, E2. auto.
Qed.

(** The header of a block is no closing brace. *)
Lemma header_no_close header name :
  opensModel header name \/ opensEnum header name -> closingLine header = false.
Proof.
  unfold closingLine. intros H.
  destruct (String.eqb (trim header) "}") eqn:E; [|reflexivity].
  apply String.eqb_eq in E. unfold opensModel, opensEnum in H. rewrite E in H.
  destruct H as [(m & H & _)|(_ & m & H & _)]; vm_compute in H; discriminate.
Qed.

(** X7. The lines of a block that is never closed are lost: a document
    that ends in an opened block, with no closing brace on a line of its
    own after the header, parses to what the lines before that block parse
    to, whatever the lines after the header are. *)
Theorem prisma_unterminated_block_is_dropped pre header body name :
  Forall isLine (pre ++ header :: body)%list ->
  opensModel header name \/ opensEnum header name ->
  Forall (fun l => closingLine l = false) body ->
  parsePrismaSchema (join nl (pre ++ header :: body)%list)
  = parsePrismaSchema (join nl pre).
Proof.
  intros HL Ho Hb.
  assert (Tail : forall st,
             bind (forEach prismaStep (header :: body) st)
                  (fun s => Ok {| models := pmodels s; enums := penums s |})
             = Ok {| models := pmodels st; enums := penums st |}).
  { intros st.
    destruct (prismaLoop_no_close (header :: body) st) as (st' & -> & M & E).
    - constructor; [|assumption]. now apply (header_no_close header name).
    - cbn [bind]. now rewrite M, E. }
  unfold parsePrismaSchema. rewrite split_join_app by assumption.
  destruct pre as [|p pre].
  - simpl app. rewrite Tail. reflexivity.
  - rewrite split_join_lines.
    2:{ apply Forall_app in HL. tauto. }
    rewrite forEach_app.
    destruct (prismaLoop_returns (p :: pre) prismaInit) as (st & ->).
    cbn [bind]. apply Tail.
Qed.

(** A model whose closing brace is missing, with a comment, a blank line
    and the header of a further block after its first field. *)
Lemma prisma_unterminated_witness :
  parsePrismaSchema
    (join nl (["enum Role {"; "  ADMIN"; "}"]
              ++ "model User {"
              :: ["  id String @id"; "  // the name"; ""; "model Post {"; "  title String"; ""])%list)
  = parsePrismaSchema (join nl ["enum Role {"; "  ADMIN"; "}"]).
Proof.
  apply (prisma_unterminated_block_is_dropped
           ["enum Role {"; "  ADMIN"; "}"] "model User {"
           ["  id String @id"; "  // the name"; ""; "model Post {"; "  title String"; ""]
           "User").
  - repeat constructor.
  - left. eexists. split; vm_compute; reflexivity.
  - repeat constructor.
Defined.

(** ** Trimming twice *)

Lemma trimStart_head s : headIs isSpace (trimStart s) = false.
Proof.
  induction s as [|c s IH]; simpl; [reflexivity|].
  destruct (isSpace c) eqn:E; [assumption|]. simpl. exact E.
Qed.

Lemma trimStart_fixed s : headIs isSpace s = false -> trimStart s = s.
Proof. destruct s as [|c s]; simpl; [reflexivity|]. now intros ->. Qed.

Lemma trimEnd_head s : headIs isSpace s = false -> headIs isSpace (trimEnd s) = false.
Proof.
  destruct s as [|c s]; simpl; [reflexivity|]. intros H. now rewrite H.
Qed.

Lemma trimEnd_idempotent s : trimEnd (trimEnd s) = trimEnd s.
Proof.
  induction s as [|c s IH]; simpl; [reflexivity|].
  destruct (isSpace c && isEmpty (trimEnd s)) eqn:E; [reflexivity|].
  simpl. rewrite IH, E. reflexivity.
Qed.

Lemma trim_idempotent s : trim (trim s) = trim s.
Proof.
  unfold trim.
  rewrite (trimStart_fixed (trimEnd (trimStart s))).
  - apply trimEnd_idempotent.
  - apply trimEnd_head, trimStart_head.
Qed.

(** X8. In every result of [parsePrismaSchema], every value of every enum
    is a non-empty trimmed line that is neither a comment, nor a block
    attribute, nor a closing brace. *)
Theorem prisma_enum_values_are_clean input :
  exists d,
    parsePrismaSchema input = Ok d
    /\ Forall (fun e => Forall cleanEnumValue (Enum.values e)) (enums d).
Proof.
  unfold parsePrismaSchema.
  destruct (prismaLoop_returns (split newline input) prismaInit) as (st & E).
  rewrite E. simpl. eexists. split; [reflexivity|]. simpl.
  pose (Inv := fun s : PrismaState =>
          Forall (fun e => Forall cleanEnumValue (Enum.values e)) (penums s)
          /\ match currentBlock s with
             | Some b => Forall storedLine (blines b)
             | None => True
             end).
  enough (G : Inv st) by apply G.
  apply (prismaLoop_invariant Inv) with (lines := split newline input)
                                        (st := prismaInit);
    [|exact E|split; [constructor|exact I]].
  clear. intros st l st' H (IE & IB). unfold Inv.
  apply prismaStep_cases in H.
  destruct H as [(bt & n & ->)|[(b & B & T & ->)|[(b & B & T & ->)|[(b & B & S & ->)| ->]]]];
    simpl; try (split; [assumption|]); auto.
  - split; [|exact I]. apply Forall_app. split; [assumption|].
    constructor; [|constructor]. simpl.
    rewrite B in IB. apply Forall_forall. intros v Hv.
    apply filter_In in Hv. destruct Hv as (Hv & _).
    apply in_map_iff in Hv. destruct Hv as (x & <- & Hx).
    rewrite Forall_forall in IB. destruct (IB x Hx) as ((raw & R) & P1 & P2 & P3 & P4).
    assert (T' : trim x = x) by (rewrite R; apply trim_idempotent).
    rewrite T'. repeat split; auto.
  - rewrite B in IB. apply Forall_app. split; [assumption|]. now constructor.
Qed.

(* ====================================================================== *)
(** * Further properties: enum fields from the parsers to the generators *)

Lemma mapPrismaType_not_enum rawType : mapPrismaType rawType false <> TEnum.
Proof.
  unfold mapPrismaType, tableGet.
  destruct (lookup rawType prismaTypeMap) as [t|] eqn:L.
  - apply lookup_In in L. simpl in L.
    repeat (destruct L as [<-|L]; [discriminate|]). contradiction.
  - destruct (existsb (String.eqb rawType) objectPrototypeKeys); discriminate.
Qed.

Lemma enumValuesDeclared_more known known' f :
  incl known known' -> enumValuesDeclared known f -> enumValuesDeclared known' f.
Proof.
  intros Hi (A & B & C & D). repeat split; try tauto.
  destruct (Field.enumValues f); [|exact I].
  destruct D as (e & He & Hv). exists e. auto.
Qed.

Lemma parsePrismaField_enum_declared line known f :
  parsePrismaField line known = Ok (Some f) -> enumValuesDeclared known f.
Proof.
  intros H. destruct (jsMatch false fieldPattern line) as [m|] eqn:E.
  2:{ rewrite (parsePrismaField_unmatched _ _ E) in H. discriminate. }
  destruct (jsMatch_capStr _ _ _ _ 1 E eq_refl) as (name & Hn & _).
  destruct (jsMatch_capStr _ _ _ _ 2 E eq_refl) as (rawType & Hr & _).
  unfold parsePrismaField in H. rewrite E, Hn, Hr in H. simpl in H.
  fold (prismaEnumDef rawType known) in H.
  assert (D : forall o : option string,
             match o with
             | Some d => if truthy d then Some d else None
             | None => None
             end <> Some EmptyString).
  { intros [[|c d]|]; simpl; discriminate. }
  assert (S : forall ty rel,
             ty = mapPrismaType rawType (isSome (prismaEnumDef rawType known)) ->
             enumValuesDeclared known
               {| Field.name := name; Field.type := ty;
                  Field.isRequired := negb (includes line "?");
                  Field.isUnique := includes line "@unique";
                  Field.isId := includes line "@id";
                  Field.isList := isSome (cap m 3);
                  Field.default :=
                    match
                      match jsMatch false defaultPattern line with
                      | Some defaultMatch => cap defaultMatch 1
                      | None => None
                      end
                    with
                    | Some d => if truthy d then Some d else None
                    | None => None
                    end;
                  Field.enumValues := option_map Enum.values (prismaEnumDef rawType known);
                  Field.relation := rel;
                  Field.description := None |}).
  { intros ty rel ->. unfold enumValuesDeclared. simpl.
    destruct (prismaEnumDef rawType known) as [e|] eqn:F; simpl.
    - repeat split; auto; try discriminate.
      apply find_some in F. exists e. tauto.
    - repeat split; auto.
      + intros T. now apply mapPrismaType_not_enum in T.
      + congruence. }
  destruct (isRelation (mapPrismaType rawType (isSome (prismaEnumDef rawType known)))).
  - apply bind_Ok in H. destruct H as (fk & _ & H). inversion H. now apply S.
  - inversion H. now apply S.
Qed.

(** The loop keeps the enum values of the fields among the closed enums. *)
Lemma prismaLoop_enum_declared lines st :
  forEach prismaStep lines prismaInit = Ok st ->
  allFields (enumValuesDeclared (penums st)) (pmodels st).
Proof.
  intros E.
  pose (Inv := fun s : PrismaState =>
          allFields (enumValuesDeclared (penums s)) (pmodels s)).
  enough (G : Inv st) by apply G.
  apply (prismaLoop_invariant Inv) with (lines := lines) (st := prismaInit);
    [|exact E|constructor].
  clear. intros st l st' H IH. unfold Inv in *.
  apply prismaStep_cases in H.
  destruct H as [(bt & n & ->)|[(b & B & T & ->)|[(b & B & T & ->)|[(b & B & S & ->)| ->]]]];
    simpl; auto.
  - unfold allFields. apply Forall_app. split; [exact IH|].
    constructor; [|constructor]. simpl.
    apply Forall_forall. intros f Hf. apply in_flat_map in Hf.
    destruct Hf as (x & _ & Hf). unfold fieldOfLine in Hf.
    destruct (parsePrismaField x (penums st)) as [[f'|]| |] eqn:P; simpl in Hf;
      try contradiction.
    destruct Hf as [<-|[]]. eapply parsePrismaField_enum_declared; eauto.
  - eapply allFields_impl; [|exact IH]. intros f.
    apply enumValuesDeclared_more. apply incl_appl, incl_refl.
Qed.

(** X9. In every result of [parsePrismaSchema] a field has type [enum]
    exactly when it carries enum values, these values are those of a
    top-level enum of the result, no default is the empty string and no
    field has a description. *)
Theorem prisma_enum_values_are_declared input :
  exists d,
    parsePrismaSchema input = Ok d
    /\ allFields (enumValuesDeclared (enums d)) (models d).
Proof.
  unfold parsePrismaSchema.
  destruct (prismaLoop_returns (split newline input) prismaInit) as (st & E).
  rewrite E. simpl. eexists. split; [reflexivity|]. simpl.
  now apply (prismaLoop_enum_declared (split newline input)).
Qed.

Lemma parseSqlColumn_enum_declared def known f :
  parseSqlColumn def known = Ok (Some f) ->
  Field.type f = TEnum ->
  exists e, In e known /\ Field.enumValues f = Some (Enum.values e).
Proof.
  intros H T. destruct (jsMatch true columnPattern def) as [m|] eqn:E.
  2:{ rewrite (parseSqlColumn_unmatched _ _ E) in H. discriminate. }
  destruct (parseSqlColumn_matched def known m E)
    as (name & rawType & rest & f' & _ & _ & _ & P & _ & _ & V & R).
  rewrite P in H. inversion H; subst f'. clear H.
  destruct (jsMatch true referencesPattern rest).
  - destruct R as (t & _ & R & _). congruence.
  - destruct R as (R & _). rewrite V.
    destruct (sqlEnumDef rawType known) as [e|] eqn:F; simpl in *.
    + apply find_some in F. exists e. tauto.
    + rewrite R in T. now apply mapSqlType_scalar in T.
Qed.

Lemma columnOfDef_from_known known defs :
  Forall (fun f => exists def, parseSqlColumn def known = Ok (Some f))
         (flat_map (columnOfDef known) defs).
Proof.
  apply Forall_forall. intros f Hf. apply in_flat_map in Hf.
  destruct Hf as (d & _ & Hf). unfold columnOfDef in Hf.
  destruct (test true constraintPattern (trim d)); [contradiction|].
  destruct (parseSqlColumn (trim d) known) as [[f'|]| |] eqn:E; simpl in Hf;
    try contradiction.
  destruct Hf as [<-|[]]. eauto.
Qed.

(** A field whose enum values are those of a top-level enum is rendered by
    name. *)
Lemma declared_values_render_by_name schema f vs e :
  Field.enumValues f = Some vs -> In e (enums schema) -> Enum.values e = vs ->
  rendersEnumByName schema f.
Proof.
  intros V I E T Id.
  destruct (topEnumFor schema vs) as [e'|] eqn:F.
  - destruct (topEnumFor_Some _ _ _ F) as (I' & E').
    exists e'. split; [assumption|]. split; [congruence|]. split.
    + intros strict. unfold zodBaseType.
      now rewrite Id, T, findTopEnum_topEnumFor, V, F.
    + intros modelName. unfold tsBaseType.
      now rewrite Id, T, findTopEnum_topEnumFor, V, F.
  - exfalso. apply (topEnumFor_None _ _ F e I E).
Qed.

(** X10. Whatever either parser returns, given to either generator: an
    enum-typed field that is no id is never inlined and never falls back to
    the plain string form; it is rendered as the name of a top-level enum
    of that schema with the field's values. *)
Theorem parsed_enum_fields_render_by_name input :
  (exists d, parsePrismaSchema input = Ok d
             /\ allFields (rendersEnumByName d) (models d))
  /\ (exists d, parseSqlSchema input = Ok d
                /\ allFields (rendersEnumByName d) (models d)).
Proof.
  split.
  - unfold parsePrismaSchema.
    destruct (prismaLoop_returns (split newline input) prismaInit) as (st & E).
    rewrite E. cbn [bind].
    pose proof (prismaLoop_enum_declared _ _ E) as F.
    set (d := {| models := pmodels st; enums := penums st |}).
    exists d. split; [reflexivity|].
    change (allFields (enumValuesDeclared (enums d)) (models d)) in F.
    eapply allFields_impl; [|exact F]. intros f (A & _ & _ & D) T Id.
    destruct (Field.enumValues f) as [vs|] eqn:V; [|tauto].
    destruct D as (e & He & Hv).
    pose proof (declared_values_render_by_name d f vs e V He Hv T Id) as R.
    rewrite V in R. exact R.
  - rewrite parseSqlSchema_spec.
    set (known := map sqlEnumOf (allMatches enumRegex input)).
    set (d := {| models := map (sqlModelOf known) (allMatches tableRegex input);
                 enums := known |}).
    exists d. split; [reflexivity|].
    unfold allFields. apply Forall_map. apply Forall_forall. intros m _.
    cbn [sqlModelOf Model.fields].
    eapply Forall_impl; [|apply columnOfDef_from_known].
    intros f (def & P) T Id.
    destruct (parseSqlColumn_enum_declared _ _ _ P T) as (e & He & V).
    exact (declared_values_render_by_name d f _ e V He eq_refl T Id).
Qed.


(* ====================================================================== *)
(** * Further properties: the generators and their dispatcher *)

Lemma filter_keeps_all {A} (p : A -> bool) l :
  Forall (fun x => p x = true) l -> filter p l = l.
Proof.
  induction 1 as [|x l Hx _ IH]; simpl; [reflexivity|]. now rewrite Hx, IH.
Qed.

Lemma filter_flat_map {A B} (p : B -> bool) (g h : A -> list B) xs :
  (forall x, filter p (g x) = h x) ->
  filter p (flat_map g xs) = flat_map h xs.
Proof.
  intros H. induction xs as [|x xs IH]; simpl; [reflexivity|].
  now rewrite filter_app, H, IH.
Qed.

Lemma filter_flat_map_Forall {A B} (p : B -> bool) (g h : A -> list B) xs :
  Forall (fun x => filter p (g x) = h x) xs ->
  filter p (flat_map g xs) = flat_map h xs.
Proof.
  induction 1 as [|x xs Hx _ IH]; simpl; [reflexivity|].
  now rewrite filter_app, Hx, IH.
Qed.

Lemma filter_commentIf rest c :
  notDocComment c = false ->
  Forall (fun l => notDocComment l = true) rest ->
  filter notDocComment (commentIf true c ++ rest)%list
  = (commentIf false c ++ rest)%list.
Proof.
  intros Hc Hr. simpl. rewrite Hc. now apply filter_keeps_all.
Qed.

Lemma zodFieldLines_no_comment schema strict fields :
  Forall (fun l => notDocComment l = true) (map (zodFieldLine schema strict) fields).
Proof. apply Forall_map. apply Forall_forall. intros f _. reflexivity. Qed.

Lemma tsFieldLines_no_comment schema name fields :
  Forall (fun l => notDocComment l = true) (map (tsFieldLine schema name) fields).
Proof. apply Forall_map. apply Forall_forall. intros f _. reflexivity. Qed.

Lemma zodFull_without_comments schema config m :
  filter notDocComment (zodFullConstruct schema (withComments true config) m)
  = zodFullConstruct schema (withComments false config) m.
Proof.
  unfold zodFullConstruct. cbn [includeComments strictMode withComments].
  apply filter_commentIf; [reflexivity|]. constructor; [reflexivity|].
  apply Forall_app. split; [apply zodFieldLines_no_comment|repeat constructor].
Qed.

Lemma zodCreate_without_comments schema config m :
  filter notDocComment (zodCreateConstruct schema (withComments true config) m)
  = zodCreateConstruct schema (withComments false config) m.
Proof.
  unfold zodCreateConstruct. cbn [includeComments strictMode withComments].
  apply filter_commentIf; [reflexivity|]. constructor; [reflexivity|].
  apply Forall_app. split; [apply zodFieldLines_no_comment|repeat constructor].
Qed.

Lemma zodUpdate_without_comments config m :
  filter notDocComment (zodUpdateConstruct (withComments true config) m)
  = zodUpdateConstruct (withComments false config) m.
Proof.
  unfold zodUpdateConstruct. cbn [includeComments withComments].
  apply filter_commentIf; [reflexivity|]. repeat constructor.
Qed.

(** X11. Turning comments off removes the doc comment lines of the Zod
    output and changes nothing else: the lines without comments are the
    lines with comments minus those that start a doc comment. *)
Theorem zod_comments_only_add_lines schema config :
  zodLines schema (withComments false config)
  = filter notDocComment (zodLines schema (withComments true config)).
Proof.
  rewrite !zodLines_constructs, !filter_app.
  change (filter notDocComment [zodImportLine; EmptyString])
    with [zodImportLine; EmptyString].
  apply f_equal. f_equal.
  - symmetry. apply filter_flat_map. intros e.
    unfold zodEnumConstruct. cbn [includeComments withComments].
    apply filter_commentIf; [reflexivity|]. repeat constructor.
  - symmetry. apply filter_flat_map. intros m.
    unfold zodModelConstructs.
    rewrite !filter_app, zodFull_without_comments, zodCreate_without_comments,
      zodUpdate_without_comments.
    rewrite (filter_keeps_all notDocComment (zodTypeAliases m))
      by (repeat constructor).
    reflexivity.
Qed.

Lemma tsFullProperty_without_description schema config name f :
  Field.description f = None ->
  tsFullProperty schema config name f = [tsFieldLine schema name f].
Proof. unfold tsFullProperty. now intros ->. Qed.

Lemma flat_map_pointwise {A B} (g h : A -> list B) xs :
  Forall (fun x => g x = h x) xs -> flat_map g xs = flat_map h xs.
Proof.
  induction 1 as [|x xs Hx _ IH]; simpl; [reflexivity|]. now rewrite Hx, IH.
Qed.

Lemma tsFull_without_comments schema config m :
  Forall (fun f => Field.description f = None) (Model.fields m) ->
  filter notDocComment (tsFullConstruct schema (withComments true config) m)
  = tsFullConstruct schema (withComments false config) m.
Proof.
  intros Hd.
  assert (P : forall c,
             flat_map (tsFullProperty schema c (Model.name m)) (dataFieldsOf m)
             = map (tsFieldLine schema (Model.name m)) (dataFieldsOf m)).
  { intros c.
    assert (Hd' : Forall (fun f => Field.description f = None) (dataFieldsOf m)).
    { apply Forall_forall. intros f Hf. unfold dataFieldsOf in Hf.
      apply filter_In in Hf. rewrite Forall_forall in Hd. apply Hd. tauto. }
    induction Hd' as [|f fs Hf _ IH]; simpl; [reflexivity|].
    now rewrite (tsFullProperty_without_description _ _ _ _ Hf), IH. }
  unfold tsFullConstruct. rewrite !P. cbn [includeComments withComments].
  apply filter_commentIf; [reflexivity|]. constructor; [reflexivity|].
  apply Forall_app. split; [apply tsFieldLines_no_comment|repeat constructor].
Qed.

Lemma tsCreate_without_comments schema config m :
  filter notDocComment (tsCreateConstruct schema (withComments true config) m)
  = tsCreateConstruct schema (withComments false config) m.
Proof.
  unfold tsCreateConstruct. cbn [includeComments withComments].
  apply filter_commentIf; [reflexivity|]. constructor; [reflexivity|].
  apply Forall_app. split; [apply tsFieldLines_no_comment|repeat constructor].
Qed.

Lemma tsRelationLine_no_comment f :
  isSome (Field.relation f) = true -> notDocComment (tsRelationLine f) = true.
Proof.
  unfold tsRelationLine. destruct (Field.relation f); [|discriminate].
  intros _. destruct (Field.isList f); reflexivity.
Qed.

Lemma tsRelations_without_comments config m :
  filter notDocComment (tsRelationsConstruct (withComments true config) m)
  = tsRelationsConstruct (withComments false config) m.
Proof.
  unfold tsRelationsConstruct.
  assert (F : Forall (fun f => isSome (Field.relation f) = true) (relationFieldsOf m)).
  { apply Forall_forall. intros f Hf. unfold relationFieldsOf in Hf.
    apply filter_In in Hf. destruct Hf as (_ & Hf).
    apply andb_true_iff in Hf. tauto. }
  destruct (relationFieldsOf m) as [|f fs]; [reflexivity|].
  cbn [includeComments withComments].
  apply filter_commentIf; [reflexivity|]. constructor; [reflexivity|].
  apply Forall_app. split; [|repeat constructor].
  apply Forall_map. eapply Forall_impl; [|exact F].
  apply tsRelationLine_no_comment.
Qed.

(** X12. For a schema without field descriptions, as both parsers produce
    them, turning comments off removes the doc comment lines of the type
    definitions and changes nothing else. *)
Theorem ts_comments_only_add_lines schema config :
  allFields (fun f => Field.description f = None) (models schema) ->
  exists withDocs withoutDocs,
    tsLines schema (withComments true config) = Ok withDocs
    /\ tsLines schema (withComments false config) = Ok withoutDocs
    /\ withoutDocs = filter notDocComment withDocs.
Proof.
  intros Hd. rewrite !tsLines_constructs.
  eexists. eexists. split; [reflexivity|]. split; [reflexivity|].
  rewrite !filter_app.
  rewrite (filter_flat_map _ _ (tsEnumConstruct (withComments false config))).
  2:{ intros e. unfold tsEnumConstruct. cbn [includeComments withComments].
      apply filter_commentIf; [reflexivity|]. repeat constructor. }
  rewrite (filter_keeps_all _ (map tsBrand (models schema))).
  2:{ apply Forall_map. apply Forall_forall. intros m _. reflexivity. }
  rewrite (filter_flat_map_Forall _ _
             (tsFullConstruct schema (withComments false config))).
  2:{ eapply Forall_impl; [|exact Hd].
      intros m Hm. now apply tsFull_without_comments. }
  rewrite (filter_flat_map _ _ (tsCreateConstruct schema (withComments false config))).
  2:{ intros m. apply tsCreate_without_comments. }
  rewrite (filter_flat_map _ _ (tsUpdateConstruct (withComments false config))).
  2:{ intros m. unfold tsUpdateConstruct. cbn [includeComments withComments].
      apply filter_commentIf; [reflexivity|]. repeat constructor. }
  rewrite (filter_flat_map _ _ (tsRelationsConstruct (withComments false config))).
  2:{ intros m. apply tsRelations_without_comments. }
  reflexivity.
Qed.

(** The sample schema has no descriptions. *)
Lemma ts_comments_witness :
  exists withDocs withoutDocs,
    tsLines userSchema (withComments true defaultConfig) = Ok withDocs
    /\ tsLines userSchema (withComments false defaultConfig) = Ok withoutDocs
    /\ withoutDocs = filter notDocComment withDocs.
Proof.
  apply (ts_comments_only_add_lines userSchema defaultConfig).
  repeat constructor.
Defined.

(** X13. [generateTypeDefinitions] returns for every schema, also for one
    that breaks the IR invariant with a relation-typed field that has no
    [relation] attribute: such a field is left out, and a model gets its
    [WithRelations] interface exactly when one of its fields has type
    [relation] and carries the attribute; the interface then lists exactly
    those fields. *)
Theorem ts_relations_never_fail schema config :
  exists lines,
    tsLines schema config = Ok lines
    /\ generateTypeDefinitions schema config = Ok (join nl lines)
    /\ Forall (fun m =>
                 rendersBlock lines (tsRelationsConstruct config m)
                 /\ (tsRelationsConstruct config m = []
                     <-> forall f, In f (Model.fields m) ->
                                   Field.type f = TRelation ->
                                   Field.relation f = None)
                 /\ List.length (tsRelationsConstruct config m)
                    <= 4 + List.length (filter (fun f => isRelation (Field.type f))
                                               (Model.fields m)))
              (models schema).
Proof.
  unfold generateTypeDefinitions. rewrite tsLines_constructs.
  eexists. split; [reflexivity|]. split; [reflexivity|].
  apply Forall_forall. intros m Hm. split; [|split].
  - match goal with
    | |- rendersBlock (?e ++ ?b ++ ?n ++ ?f ++ ?c ++ ?u ++ flat_map ?g ?ms ++ ?rest)%list _ =>
        replace (e ++ b ++ n ++ f ++ c ++ u ++ flat_map g ms ++ rest)%list
          with ((e ++ b ++ n ++ f ++ c ++ u) ++ flat_map g ms ++ rest)%list
          by (now rewrite <- !app_assoc)
    end.
    now apply rendersBlock_flat_map.
  - unfold tsRelationsConstruct.
    assert (R : relationFieldsOf m = [] <->
                forall f, In f (Model.fields m) -> Field.type f = TRelation ->
                          Field.relation f = None).
    { unfold relationFieldsOf. split.
      - intros E f Hf T. destruct (Field.relation f) eqn:Rf; [|reflexivity].
        exfalso. assert (X : In f []); [|contradiction].
        rewrite <- E. apply filter_In. split; [assumption|].
        now rewrite T, Rf.
      - intros H. destruct (filter _ (Model.fields m)) as [|f fs] eqn:E; [reflexivity|].
        assert (X : In f (f :: fs)) by now left.
        rewrite <- E in X. apply filter_In in X. destruct X as (X1 & X2).
        apply andb_true_iff in X2. destruct X2 as (X2 & X3).
        apply isRelation_true in X2. rewrite (H f X1 X2) in X3. discriminate. }
    rewrite <- R. destruct (relationFieldsOf m) as [|f fs]; [tauto|].
    split; [|discriminate]. intros E. apply (f_equal (@List.length string)) in E.
    rewrite length_app in E. destruct (includeComments config); simpl in E; lia.
  - unfold tsRelationsConstruct.
    assert (L : List.length (relationFieldsOf m)
                <= List.length (filter (fun f => isRelation (Field.type f))
                                       (Model.fields m))).
    { unfold relationFieldsOf. induction (Model.fields m) as [|f fs IH]; simpl; [lia|].
      destruct (isRelation (Field.type f)); simpl; [|assumption].
      destruct (isSome (Field.relation f)); simpl; lia. }
    destruct (relationFieldsOf m) as [|f fs]; [simpl; lia|].
    rewrite length_app. cbn [List.length]. rewrite length_app, length_map.
    cbn [List.length] in *. destruct (includeComments config); simpl; lia.
Qed.

(** X14. The dispatcher returns code exactly for the targets that
    [isTemplateTarget] accepts; for the others it throws an error that
    names the target. *)
Theorem template_targets_are_generated schema target config :
  (isTemplateTarget target = true
   <-> exists code, generateFromTemplate schema target config = Done (Ok code))
  /\ (isTemplateTarget target = false
      <-> generateFromTemplate schema target config
          = Throws ("No template generator for target: " ++ targetName target)).
Proof.
  assert (G : exists lines, generateTypeDefinitions schema config = Ok (join nl lines)).
  { unfold generateTypeDefinitions. rewrite tsLines_constructs.
    eexists. reflexivity. }
  destruct G as (lines & G).
  destruct target; unfold generateFromTemplate; rewrite ?G; simpl;
    (split; split; intros H; try reflexivity; try discriminate;
     try (destruct H; discriminate); eauto).
Qed.

(** X15. [arraysEqual] holds exactly of equal lists: a shorter, a longer
    and a reordered list are all unequal. *)
Theorem arraysEqual_decides_equality a b : arraysEqual a b = true <-> a = b.
Proof.
  rewrite arraysEqual_sameValues. unfold sameValues.
  destruct (list_eq_dec string_dec a b); split; intros; congruence.
Qed.


(* ====================================================================== *)
(** * Further properties: the entry points of the parsers *)

(** [parseSchema] returns for every input and each of the three formats:
    the result of the matching parser for Prisma and SQL, and [null] for
    English only. *)
Lemma parseSchema_null_only_for_english input :
  parseSchema input FEnglish = Ok None
  /\ (exists d, parseSchema input FPrisma = Ok (Some d)
                /\ parsePrismaSchema input = Ok d)
  /\ (exists d, parseSchema input FSql = Ok (Some d)
                /\ parseSqlSchema input = Ok d).
Proof.
  split; [reflexivity|]. split; simpl.
  - destruct (parsePrismaSchema_total input) as (d & -> & _). simpl. eauto.
  - destruct (parseSqlSchema_total input) as (d & -> & _). simpl. eauto.
Qed.

(** ** White space around the input *)

Lemma trimStart_blank ws s :
  allChars isSpace ws = true -> trimStart (ws ++ s) = trimStart s.
Proof.
  induction ws as [|c ws IH]; simpl; [reflexivity|].
  intros H. apply andb_true_iff in H. destruct H as (-> & H). auto.
Qed.

Lemma trimEnd_all_blank ws : allChars isSpace ws = true -> trimEnd ws = "".
Proof.
  induction ws as [|c ws IH]; simpl; [reflexivity|].
  intros H. apply andb_true_iff in H. destruct H as (-> & H).
  now rewrite (IH H).
Qed.

Lemma trimEnd_blank s ws :
  allChars isSpace ws = true -> trimEnd (s ++ ws) = trimEnd s.
Proof.
  intros H. induction s as [|c s IH]; simpl.
  - now apply trimEnd_all_blank.
  - now rewrite IH.
Qed.

Lemma trimStart_app s w :
  trimStart (s ++ w) = if isEmpty (trimStart s) then trimStart w else trimStart s ++ w.
Proof.
  induction s as [|c s IH]; simpl; [reflexivity|].
  destruct (isSpace c); [assumption|reflexivity].
Qed.

(** [trim] sees through white space on both sides. *)
Lemma trim_surrounding ws1 s ws2 :
  allChars isSpace ws1 = true -> allChars isSpace ws2 = true ->
  trim (ws1 ++ s ++ ws2) = trim s.
Proof.
  intros H1 H2. unfold trim. rewrite trimStart_blank by assumption.
  rewrite trimStart_app. destruct (isEmpty (trimStart s)) eqn:E.
  - destruct (trimStart s); [|discriminate].
    rewrite <- (sapp_nil_r ws2), trimStart_blank by assumption. reflexivity.
  - now apply trimEnd_blank.
Qed.

(** X16. [detectFormat] does not depend on white space before and after
    the text. *)
Theorem detectFormat_ignores_surrounding_space ws1 s ws2 :
  allChars isSpace ws1 = true -> allChars isSpace ws2 = true ->
  detectFormat (ws1 ++ s ++ ws2) = detectFormat s.
Proof.
  intros H1 H2. unfold detectFormat. now rewrite trim_surrounding.
Qed.

(** A pasted schema with a blank line before and a line feed after. *)
Lemma detectFormat_space_witness :
  detectFormat (nl ++ "CREATE TABLE t (id INT);" ++ nl)
  = detectFormat "CREATE TABLE t (id INT);".
Proof.
  apply (detectFormat_ignores_surrounding_space nl "CREATE TABLE t (id INT);" nl);
    reflexivity.
Defined.

Lemma trimEnd_keeps_up_to a c b :
  isSpace c = false -> exists b', trimEnd (a ++ String c b) = a ++ String c b'.
Proof.
  intros Hc. induction a as [|x a IH]; simpl.
  - rewrite Hc. simpl. eauto.
  - destruct IH as (b' & ->).
    assert (E : isEmpty (a ++ String c b') = false) by (destruct a; reflexivity).
    rewrite E, andb_false_r. eauto.
Qed.

Lemma testLines_hit icase r s st :
  matchAt icase r 0 s = Some st -> testLines icase r s = true.
Proof.
  intros H. unfold testLines. destruct s; simpl; now rewrite H.
Qed.

Lemma headIs_app_nonempty p a b :
  isEmpty a = false -> headIs p (a ++ b) = headIs p a.
Proof. destruct a; [discriminate|reflexivity]. Qed.

(** The part of [blockOpener] after the keyword, on blanks, a name, white
    space and an opening brace. *)
Lemma blockOpener_after_keyword k p cp sp name sp2 more :
  isBlank sp = true -> isWordToken name = true -> allChars isSpace sp2 = true ->
  (forall st, exists st', k st = Some st') ->
  exists st',
    rmatch false (Seq (Plus ws) (Seq (Plus word) (Seq (Star ws) (lit "{")))) k
           (MState p (sp ++ name ++ sp2 ++ String "{" more) cp) = Some st'.
Proof.
  intros Hs Hn H2 Hk.
  pose proof (headIs_word_not_space name (sp2 ++ String "{" more) Hn) as Hname.
  unfold isBlank, isWordToken in *.
  apply andb_true_iff in Hs, Hn.
  destruct Hs as (Hs1 & Hs2), Hn as (Hn1 & Hn2).
  apply negb_true_iff in Hs1, Hn1.
  destruct (Hk (MState (S (p + String.length sp + String.length name
                           + String.length sp2)) more cp)) as (st' & Hst).
  exists st'.
  rewrite rmatch_Seq. apply plus_greedy; [exact Hs1|exact Hs2|exact Hname|].
  rewrite rmatch_Seq. apply plus_greedy; [exact Hn1|exact Hn2| |].
  { destruct sp2 as [|c sp2]; [reflexivity|]. simpl in *.
    apply andb_true_iff in H2. destruct H2 as (H2 & _).
    now apply space_not_word. }
  rewrite rmatch_Seq. cbn [rmatch pos rest caps].
  apply star_greedy; [exact H2|reflexivity|].
  cbn [rmatch lit rest pos caps csetMatches atomMatches charEq].
  rewrite Ascii.eqb_refl. exact Hst.
Qed.

(** X17. A text that starts, after white space, with one of the four block
    keywords, blanks, a name and an opening brace is detected as Prisma,
    whatever follows, also when the rest holds [CREATE TABLE]. *)
Theorem detectFormat_block_opener lead keyword sp name sp2 more :
  allChars isSpace lead = true ->
  In keyword blockKeywords ->
  isBlank sp = true -> isWordToken name = true -> allChars isSpace sp2 = true ->
  detectFormat (lead ++ keyword ++ sp ++ name ++ sp2 ++ "{" ++ more) = FPrisma.
Proof.
  intros Hw Hk Hs Hn H2. unfold detectFormat. cbv zeta.
  assert (T : exists rest',
             trim (lead ++ keyword ++ sp ++ name ++ sp2 ++ "{" ++ more)
             = keyword ++ sp ++ name ++ sp2 ++ String "{" rest').
  { unfold trim. rewrite trimStart_blank by assumption.
    rewrite trimStart_fixed.
    - destruct (trimEnd_keeps_up_to (keyword ++ sp ++ name ++ sp2) "{" more eq_refl)
        as (b' & E).
      exists b'. rewrite !sapp_assoc in E. exact E.
    - simpl in Hk.
      destruct Hk as [<-|[<-|[<-|[<-|[]]]]]; reflexivity. }
  destruct T as (rest' & ->).
  assert (M : exists st, matchAt false blockOpener 0
                           (keyword ++ sp ++ name ++ sp2 ++ String "{" rest')
                         = Some st).
  { unfold matchAt.
    change blockOpener
      with (Seq (Group 1 (alts [lit "model"; lit "datasource"; lit "generator"; lit "enum"]))
                (Seq (Plus ws) (Seq (Plus word) (Seq (Star ws) (lit "{"))))).
    rewrite rmatch_Seq, rmatch_Group. simpl in Hk.
    destruct Hk as [<-|[<-|[<-|[<-|[]]]]];
      cbn [alts lit rmatch append pos rest caps csetMatches atomMatches charEq
           Ascii.eqb Bool.eqb andb];
      match goal with
      | |- exists st, match ?m with Some _ => _ | None => _ end = Some st =>
          let H := fresh in
          assert (H : exists st, m = Some st);
          [|destruct H as (st & ->); eauto]
      | _ => idtac
      end;
      apply blockOpener_after_keyword; auto; intros; eauto. }
  destruct M as (st & M). now rewrite (testLines_hit _ _ _ _ M).
Qed.

(** The first line of a Prisma schema, and of one that quotes SQL. *)
Lemma detectFormat_block_witness :
  detectFormat ("" ++ "model" ++ " " ++ "Foo" ++ " " ++ "{" ++ " // CREATE TABLE foo")
  = FPrisma.
Proof.
  apply (detectFormat_block_opener "" "model" " " "Foo" " " " // CREATE TABLE foo");
    try reflexivity.
  left. reflexivity.
Defined.


(* ====================================================================== *)
(** * Further properties: the rate limiter *)

Lemma ceilSeconds_bounds x :
  (0 < x)%Z -> (1 <= ceilSeconds x)%Z /\ ((x <= WINDOW_MS)%Z -> (ceilSeconds x <= 60)%Z).
Proof.
  intros Hx. unfold ceilSeconds, WINDOW_MS. split.
  - assert ((- x) / 1000 < 0)%Z by (apply Z.div_lt_upper_bound; lia). lia.
  - intros Hw.
    assert (-60 <= (- x) / 1000)%Z by (apply Z.div_le_lower_bound; lia). lia.
Qed.

(** A rejected request is not recorded. *)
Lemma rateLimit_rejected_store store ip now r store' :
  rateLimit store ip now = (Some r, store') -> store' = store.
Proof.
  unfold rateLimit. cbv zeta.
  destruct (MAX_REQUESTS <=? _)%nat; [|discriminate].
  intros H. now injection H as _ <-.
Qed.

(** X18. A rejected request leaves the store as it is and answers 429;
    at least 20 stored timestamps of the client lie in the window, and
    [Retry-After] is at least one second, and at most 60 when no stored
    timestamp of the client is in the future. *)
Theorem rateLimit_rejection store ip now r store' :
  rateLimit store ip now = (Some r, store') ->
  store' = store /\ status r = 429%Z
  /\ MAX_REQUESTS <= List.length (filter (inWindow now) (timestampsOf ip store))
  /\ exists s,
       retryAfter r = Some s /\ (1 <= s)%Z
       /\ ((forall t, In t (timestampsOf ip store) -> (t <= now)%Z) -> (s <= 60)%Z).
Proof.
  unfold rateLimit. cbv zeta. fold (timestampsOf ip store).
  change (fun t : Z => (now - t <? WINDOW_MS)%Z) with (inWindow now).
  destruct (MAX_REQUESTS <=? List.length (filter (inWindow now) (timestampsOf ip store)))%nat
    eqn:E; [|discriminate].
  intros H. injection H as Hr Hs. subst r store'. apply Nat.leb_le in E.
  repeat split; auto. simpl.
  destruct (filter (inWindow now) (timestampsOf ip store)) as [|t0 ts] eqn:F.
  - unfold MAX_REQUESTS in E. simpl in E. lia.
  - assert (I : In t0 (filter (inWindow now) (timestampsOf ip store)))
      by (rewrite F; now left).
    apply filter_In in I. destruct I as (I1 & I2).
    unfold inWindow in I2. apply Z.ltb_lt in I2.
    exists (ceilSeconds (t0 + WINDOW_MS - now)). split; [reflexivity|].
    destruct (ceilSeconds_bounds (t0 + WINDOW_MS - now)) as (B1 & B2); [lia|].
    split; [exact B1|]. intros Hpast. apply B2. specialize (Hpast t0 I1). lia.
Qed.

(** The twenty-first request of a client within a second. *)
Lemma rateLimit_rejection_witness :
  busyStore = busyStore /\ 429%Z = 429%Z
  /\ MAX_REQUESTS <= List.length (filter (inWindow 1000) (timestampsOf "10.0.0.1" busyStore))
  /\ exists s,
       Some 59%Z = Some s /\ (1 <= s)%Z
       /\ ((forall t, In t (timestampsOf "10.0.0.1" busyStore) -> (t <= 1000)%Z)
           -> (s <= 60)%Z).
Proof.
  apply (rateLimit_rejection busyStore "10.0.0.1" 1000
           {| status := 429; retryAfter := Some 59%Z |} busyStore).
  vm_compute. reflexivity.
Defined.

Lemma mapGet_mapSet_same k v store : mapGet k (mapSet k v store) = Some v.
Proof.
  induction store as [|[k0 v0] store IH]; simpl.
  - now rewrite String.eqb_refl.
  - destruct (String.eqb k0 k) eqn:E; simpl; rewrite E; auto.
Qed.

Lemma mapGet_mapSet_other k k' v store :
  k <> k' -> mapGet k' (mapSet k v store) = mapGet k' store.
Proof.
  intros N. induction store as [|[k0 v0] store IH]; simpl.
  - destruct (String.eqb k k') eqn:E; auto.
    apply String.eqb_eq in E. contradiction.
  - destruct (String.eqb k0 k) eqn:E; simpl.
    + apply String.eqb_eq in E. subst k0.
      destruct (String.eqb k k') eqn:E'; auto.
      apply String.eqb_eq in E'. contradiction.
    + destruct (String.eqb k0 k'); auto.
Qed.

Lemma keys_mapSet k v store key :
  In key (map fst (mapSet k v store)) -> key = k \/ In key (map fst store).
Proof.
  induction store as [|[k0 v0] store IH]; simpl.
  - intros [H|[]]; auto.
  - destruct (String.eqb k0 k) eqn:E; simpl.
    + intros [H|H]; auto.
    + intros [H|H]; auto. destruct (IH H); auto.
Qed.

Lemma distinctKeys_mapSet k v store :
  distinctKeys store -> distinctKeys (mapSet k v store).
Proof.
  unfold distinctKeys. induction store as [|[k0 v0] store IH]; simpl; intros D.
  - constructor; [intros []|constructor].
  - inversion D as [|? ? N D']; subst.
    destruct (String.eqb k0 k) eqn:E; simpl.
    + constructor; auto.
    + constructor; auto. intros I. apply keys_mapSet in I. destruct I as [I|I].
      * subst. rewrite String.eqb_refl in E. discriminate.
      * contradiction.
Qed.

Lemma keys_filter (p : string * list Z -> bool) store key :
  In key (map fst (filter p store)) -> In key (map fst store).
Proof.
  intros I. apply in_map_iff in I. destruct I as (e & <- & I).
  apply filter_In in I. apply in_map. tauto.
Qed.

Lemma distinctKeys_filter (p : string * list Z -> bool) store :
  distinctKeys store -> distinctKeys (filter p store).
Proof.
  unfold distinctKeys. induction store as [|[k0 v0] store IH]; simpl; intros D.
  - constructor.
  - inversion D as [|? ? N D']; subst. destruct (p (k0, v0)); simpl; auto.
    constructor; auto. intros I. apply N. eapply keys_filter; eauto.
Qed.

Lemma mapGet_absent k store : ~ In k (map fst store) -> mapGet k store = None.
Proof.
  induction store as [|[k0 v0] store IH]; simpl; intros N; auto.
  destruct (String.eqb k0 k) eqn:E.
  - apply String.eqb_eq in E. subst. tauto.
  - apply IH. tauto.
Qed.

(** With distinct keys, deleting entries deletes what [get] returned or
    leaves it. *)
Lemma mapGet_filter (p : string * list Z -> bool) k store :
  distinctKeys store ->
  mapGet k (filter p store)
  = match mapGet k store with
    | Some v => if p (k, v) then Some v else None
    | None => None
    end.
Proof.
  unfold distinctKeys. induction store as [|[k0 v0] store IH]; simpl; intros D; auto.
  inversion D as [|? ? N D']; subst.
  destruct (String.eqb k0 k) eqn:E.
  - apply String.eqb_eq in E. subst k0.
    destruct (p (k, v0)); simpl.
    + now rewrite String.eqb_refl.
    + apply mapGet_absent. intros I. apply N. eapply keys_filter; eauto.
  - destruct (p (k0, v0)); simpl; [rewrite E|]; auto.
Qed.

Lemma filter_narrower {A} (p q : A -> bool) (l : list A) :
  (forall x, In x l -> q x = true -> p x = true) ->
  filter q (filter p l) = filter q l.
Proof.
  induction l as [|x l IH]; simpl; intros H; auto.
  destruct (p x) eqn:P; simpl.
  - destruct (q x); [f_equal|]; apply IH; intros; apply H; auto.
  - destruct (q x) eqn:Q.
    + rewrite (H x) in P; auto. discriminate.
    + apply IH; intros; apply H; auto.
Qed.

Lemma filter_none {A} (q : A -> bool) (l : list A) :
  (forall x, In x l -> q x = false) -> filter q l = [].
Proof.
  induction l as [|x l IH]; simpl; intros H; auto.
  rewrite (H x); auto.
Qed.

Lemma filter_length_le {A} (p q : A -> bool) (l : list A) :
  (forall x, In x l -> p x = true -> q x = true) ->
  List.length (filter p l) <= List.length (filter q l).
Proof.
  induction l as [|x l IH]; simpl; intros H; auto.
  assert (IH' := IH (fun y I => H y (or_intror I))).
  destruct (p x) eqn:P.
  - rewrite (H x); simpl; auto. lia.
  - destruct (q x); simpl; lia.
Qed.

Lemma inWindow_later now now' t :
  (now <= now')%Z -> inWindow now' t = true -> inWindow now t = true.
Proof.
  unfold inWindow. intros L H. apply Z.ltb_lt in H. apply Z.ltb_lt. lia.
Qed.

(** What a request that is let through leaves in the store, seen through
    any later window. *)
Lemma rateLimit_allowed store ip now store' :
  distinctKeys store ->
  rateLimit store ip now = (None, store') ->
  distinctKeys store'
  /\ List.length (filter (inWindow now) (timestampsOf ip store)) < MAX_REQUESTS
  /\ forall k now', (now <= now')%Z ->
       filter (inWindow now') (timestampsOf k store')
       = filter (inWindow now')
           (timestampsOf k store ++ (if String.eqb ip k then [now] else []))%list.
Proof.
  intros D. unfold rateLimit. cbv zeta. fold (timestampsOf ip store).
  change (fun t : Z => (now - t <? WINDOW_MS)%Z) with (inWindow now).
  set (recent := filter (inWindow now) (timestampsOf ip store)).
  destruct (MAX_REQUESTS <=? List.length recent)%nat eqn:E; [discriminate|].
  apply Nat.leb_gt in E. intros H. injection H as Hs.
  set (store2 := mapSet ip (recent ++ [now])%list store) in *.
  assert (D2 : distinctKeys store2) by (apply distinctKeys_mapSet; exact D).
  assert (G : forall k now', (now <= now')%Z ->
            filter (inWindow now') (timestampsOf k store2)
            = filter (inWindow now')
                (timestampsOf k store ++ (if String.eqb ip k then [now] else []))%list).
  { intros k now' L. unfold timestampsOf at 1. unfold store2.
    destruct (String.eqb ip k) eqn:K.
    - apply String.eqb_eq in K. subst k. rewrite mapGet_mapSet_same.
      rewrite !filter_app. f_equal. unfold recent.
      apply filter_narrower. intros t _. apply inWindow_later. exact L.
    - rewrite mapGet_mapSet_other.
      + now rewrite app_nil_r.
      + intros ->. rewrite String.eqb_refl in K. discriminate. }
  split; [|split]; [|exact E|].
  - subst store'. destruct (10000 <? Z.of_nat (List.length store2))%Z; auto.
    apply distinctKeys_filter. exact D2.
  - intros k now' L. rewrite <- (G k now' L). subst store'.
    destruct (10000 <? Z.of_nat (List.length store2))%Z; auto.
    unfold timestampsOf, cleanup. rewrite mapGet_filter by exact D2.
    destruct (mapGet k store2) as [vals|]; auto.
    destruct (forallb (fun t => (WINDOW_MS <? now - t)%Z) vals) eqn:F; simpl; auto.
    symmetry. apply filter_none. intros t I.
    rewrite forallb_forall in F. specialize (F t I). apply Z.ltb_lt in F.
    unfold inWindow. apply Z.ltb_ge. lia.
Qed.

Lemma allowedOf_app ip l1 l2 :
  allowedOf ip (l1 ++ l2)%list = (allowedOf ip l1 ++ allowedOf ip l2)%list.
Proof. unfold allowedOf. now rewrite filter_app, map_app. Qed.

(** Whenever a request is let through, fewer than [MAX_REQUESTS] earlier
    requests of the client that were let through lie in its window. *)
Lemma serve_window reqs : forall store log tlast,
  distinctKeys store ->
  (forall k now', (tlast <= now')%Z ->
     filter (inWindow now') (timestampsOf k store)
     = filter (inWindow now') (allowedOf k log)) ->
  Sorted Z.le (tlast :: map snd reqs) ->
  forall l1 ip T l2,
    serve store reqs = (l1 ++ (ip, T, true) :: l2)%list ->
    List.length (filter (inWindow T) (allowedOf ip (log ++ l1)%list)) < MAX_REQUESTS.
Proof.
  induction reqs as [|[ip0 now] reqs IH]; intros store log tlast D Inv S l1 ip T l2 E.
  - destruct l1; discriminate.
  - simpl in S. apply Sorted_inv in S. destruct S as (S & Hd).
    apply HdRel_inv in Hd.
    cbn [serve] in E. destruct (rateLimit store ip0 now) as [rej store'] eqn:R.
    destruct l1 as [|e l1].
    + simpl in E. injection E as E1 E2 E3 E4. subst ip0 now.
      destruct rej; [discriminate|].
      destruct (rateLimit_allowed _ _ _ _ D R) as (_ & L & _).
      rewrite app_nil_r, <- Inv by exact Hd. exact L.
    + simpl in E. injection E as E1 E2. subst e.
      replace (log ++ (ip0, now, negb (isSome rej)) :: l1)%list
        with ((log ++ [(ip0, now, negb (isSome rej))]) ++ l1)%list
        by (now rewrite <- app_assoc).
      apply (IH store' _ now) with (l2 := l2); auto.
      * destruct rej as [r|].
        -- apply rateLimit_rejected_store in R. subst store'. exact D.
        -- apply (rateLimit_allowed _ _ _ _ D R).
      * intros k now' L. rewrite allowedOf_app.
        destruct rej as [r|].
        -- assert (R' := R). apply rateLimit_rejected_store in R'. subst store'.
           unfold allowedOf at 2. simpl. rewrite app_nil_r. apply Inv. lia.
        -- destruct (rateLimit_allowed _ _ _ _ D R) as (_ & _ & G).
           rewrite (G k now' L), !filter_app. rewrite Inv by lia. f_equal.
           unfold allowedOf. simpl. destruct (String.eqb ip0 k); reflexivity.
Qed.

(** X19. Under a clock that does not go backwards, and starting from the
    empty store, no client is let through more than [MAX_REQUESTS] times
    within any window of [WINDOW_MS] milliseconds. *)
Theorem rateLimit_sliding_window reqs ip now :
  monotoneClock reqs ->
  List.length (filter (inLastMinute now) (allowedOf ip (serve [] reqs))) <= MAX_REQUESTS.
Proof.
  unfold monotoneClock. intros S.
  assert (W : forall l1 ip T l2,
             serve [] reqs = (l1 ++ (ip, T, true) :: l2)%list ->
             List.length (filter (inWindow T) (allowedOf ip l1)) < MAX_REQUESTS).
  { destruct reqs as [|[ip0 t0] reqs'].
    - intros l1 ? ? ? E. destruct l1; discriminate.
    - intros l1 ip1 T l2 E.
      apply (serve_window ((ip0, t0) :: reqs') [] [] t0) with (l1 := l1) (l2 := l2).
      + constructor.
      + reflexivity.
      + constructor; [exact S|]. constructor. simpl. lia.
      + exact E. }
  assert (P : forall l rest, serve [] reqs = (l ++ rest)%list ->
              List.length (filter (inLastMinute now) (allowedOf ip l)) <= MAX_REQUESTS).
  { induction l as [|[[ip1 T] ok] l IH] using rev_ind; intros rest E.
    - unfold MAX_REQUESTS. simpl. lia.
    - rewrite <- app_assoc in E. simpl in E.
      rewrite allowedOf_app, filter_app, length_app.
      specialize (IH _ E). unfold allowedOf at 2. simpl.
      destruct ok; simpl; [|lia].
      destruct (String.eqb ip1 ip) eqn:K; simpl; [|lia].
      apply String.eqb_eq in K. subst ip1.
      destruct (inLastMinute now T) eqn:M; simpl; [|lia].
      specialize (W _ _ _ _ E).
      assert (List.length (filter (inLastMinute now) (allowedOf ip l))
              <= List.length (filter (inWindow T) (allowedOf ip l))).
      { apply filter_length_le. intros t _ Ht.
        unfold inLastMinute, inWindow in *.
        apply andb_true_iff in M. destruct M as (M1 & M2).
        apply andb_true_iff in Ht. destruct Ht as (H1 & H2).
        apply Z.ltb_lt in M1, H1. apply Z.leb_le in M2, H2.
        apply Z.ltb_lt. lia. }
      lia. }
  apply (P (serve [] reqs) []). now rewrite app_nil_r.
Qed.

(** Twenty-five requests within 25 milliseconds. *)
Lemma rateLimit_sliding_window_witness :
  List.length (filter (inLastMinute 30) (allowedOf "10.0.0.1" (serve [] burst)))
  <= MAX_REQUESTS.
Proof.
  apply (rateLimit_sliding_window burst "10.0.0.1" 30).
  unfold monotoneClock, burst. simpl.
  repeat (constructor; try lia).
Defined.

Lemma split_head_no_sep sep s :
  exists first others, split sep s = first :: others /\ occurs sep first = false.
Proof.
  induction s as [|c s (first & others & E & N)]; simpl.
  - exists EmptyString, []. auto.
  - destruct (Ascii.eqb c sep) eqn:C.
    + exists EmptyString, (split sep s). auto.
    + rewrite E. exists (String c first), others. simpl. rewrite C. auto.
Qed.

Lemma occurs_trimStart c s : occurs c s = false -> occurs c (trimStart s) = false.
Proof.
  induction s as [|x s IH]; simpl; auto.
  intros H. destruct (isSpace x); [|exact H].
  apply orb_false_iff in H. apply IH. tauto.
Qed.

Lemma occurs_trimEnd c s : occurs c s = false -> occurs c (trimEnd s) = false.
Proof.
  induction s as [|x s IH]; simpl; auto.
  intros H. apply orb_false_iff in H. destruct H as (H1 & H2).
  destruct (isSpace x && isEmpty (trimEnd s)); simpl; auto.
  now rewrite H1, IH.
Qed.

(** X20. When the [x-forwarded-for] header is present the [x-real-ip]
    header is never consulted: the key is the trimmed text before the
    header's first comma, also when that text is empty or blank; it holds
    no comma and trimming it again changes nothing. *)
Theorem clientIp_first_hop h realIp :
  (forall first others, occurs "," first = false ->
     h = first ++ "," ++ others -> clientIp (Some h) realIp = trim first)
  /\ (occurs "," h = false -> clientIp (Some h) realIp = trim h)
  /\ occurs "," (clientIp (Some h) realIp) = false
  /\ trim (clientIp (Some h) realIp) = clientIp (Some h) realIp.
Proof.
  unfold clientIp. split; [|split].
  - intros first others N ->. simpl append.
    now rewrite (split_app_sep _ _ _ N).
  - intros N. now rewrite (split_no_sep _ _ N).
  - destruct (split_head_no_sep "," h) as (first & others & E & N). rewrite E.
    split.
    + unfold trim. now apply occurs_trimEnd, occurs_trimStart.
    + apply trim_idempotent.
Qed.


(* ====================================================================== *)
(** * The enum types of a SQL document *)

(** ** Keywords under the [i] flag *)




Lemma drop_all n : forall a, String.length a <= n -> drop n a = "".
Proof.
  induction n as [|n IH]; intros a H.
  - destruct a; simpl in *; [reflexivity|lia].
  - destruct a as [|c a]; simpl in *; [reflexivity|]. apply IH. lia.
Qed.












(** ** Text that does not mention [CREATE TYPE] *)








(** ** The pattern on a well-formed statement *)















(** ** The statement loop on a document *)









(** ** Column definitions *)













(** ** From the document to the fields of its tables *)


(** ** Main result: the enum types of a SQL document *)




(** The same document, run: the column of the table that stands first is
    an enum field. *)
Example sql_table_before_type :
  fieldTypesOf (parseSqlSchema (documentText moodDocument ";"))
  = [("Users", [("id", TNumber, None); ("mood", TEnum, Some ["happy"; "sad"])])].
Proof. vm_compute. reflexivity. Qed.
